(** * Blip collection: the radar matcher, the submission store and the
      validation of submissions

    A shallow embedding of the services of the blip collection server
    that carry design content,

    - [services/radar-matcher.ts]: name normalisation, Levenshtein distance,
      similarity ratio, catalogue loading, [findPriorRadarMatch] and
      [isRadarDataAvailable];
    - [services/storage.ts]: the lock file, [loadSubmissions],
      [saveSubmission] and [getStorageStats];
    - [services/validation.ts]: [sanitizeText], [validateSubmission] and
      [validateAndSanitize];

    followed by the properties proved about them.

    Conventions of the embedding.

    - A JavaScript string is the list of its UTF-16 code units; [length] is
      the JavaScript [length].
    - A JavaScript regular expression is a term of [Regex.regex], run by a
      backtracking matcher; [replace] follows [String.prototype.replace].
      The expressions of the validation service, which use [*], [?],
      [(?!...)] and [\b], are terms of [Pattern.regex].
    - A JavaScript number that holds a count is a [nat]. The similarity
      ratio, a quotient of two such counts, is kept as the exact rational
      [Q]; [Binary64] has the same computation in binary64, and
      [findPriorRadarMatch64_agrees] shows that the lookup is the same in
      both arithmetics when the normalised names have at most 100 code
      units. The edition number that [parseInt] reads is a binary64 number
      as well: [Matcher.number] holds its exact value, a natural number
      rounded to 53 significant bits or [Infinity].
    - [String.prototype.toLowerCase] depends on the Unicode tables of the
      runtime; it is a parameter of the matcher, and [asciiLower] is the
      instance used to run examples.
    - [JSON.stringify] and [JSON.parse] are parameters of the store; a small
      printer and parser give an instance to run examples.
    - The file system is a state threaded through an error monad. The
      state also holds the clock, how late the timers fire, and the entries
      that the file system refuses to remove; what the other writers do
      during a wait is a parameter of the store.
    - A value of a request body is a term of [Validation.value]; a property
      that the body lacks is [VUndefined]. *)

From Stdlib Require Import ZArith NArith QArith Qminmax List String Ascii Lia Bool.
From Stdlib Require Import PrimFloat Uint63.
From Stdlib Require SpecFloat.
From stdpp Require Import gmap strings list pretty sorting relations.

Local Open Scope nat_scope.

(** ** JavaScript strings *)

Definition char := N.
Bind Scope N_scope with char.
Abbreviation jsstring := (list char).

(** The code units of an ASCII literal. *)
Definition str (s : string) : jsstring :=
  map N_of_ascii (list_ascii_of_string s).

Definition inRange (lo hi c : char) : bool := ((lo <=? c) && (c <=? hi))%N.

Definition isDigit (c : char) : bool := inRange 48 57 c.
Definition isUpperAZ (c : char) : bool := inRange 65 90 c.
Definition isLowerAZ (c : char) : bool := inRange 97 122 c.

(** [\w] is [[A-Za-z0-9_]]. *)
Definition isWord (c : char) : bool :=
  isUpperAZ c || isLowerAZ c || isDigit c || (c =? 95)%N.

(** [\s], and the characters removed by [trim]: WhiteSpace and
    LineTerminator of ECMAScript. *)
Definition isSpace (c : char) : bool :=
  inRange 9 13 c || (c =? 32)%N || (c =? 160)%N || (c =? 5760)%N
  || inRange 8192 8202 c || (c =? 8232)%N || (c =? 8233)%N || (c =? 8239)%N
  || (c =? 8287)%N || (c =? 12288)%N || (c =? 65279)%N.

Definition space : char := 32%N.

(** The canonical form used by a case-insensitive match without the [u]
    flag: the upper-case form of the code unit, which on the Basic Latin
    block is the only mapping that reaches a Basic Latin letter. *)
Definition canonicalize (c : char) : char :=
  if isLowerAZ c then (c - 32)%N else c.

Fixpoint dropWhile (p : char -> bool) (s : jsstring) : jsstring :=
  match s with
  | [] => []
  | c :: s' => if p c then dropWhile p s' else s
  end.

Definition trimStart (s : jsstring) : jsstring := dropWhile isSpace s.
Definition trimEnd (s : jsstring) : jsstring := rev (dropWhile isSpace (rev s)).
Definition trim (s : jsstring) : jsstring := trimEnd (trimStart s).

(** ** Regular expressions *)

Module Regex.

Inductive regex : Type :=
| Chr (c : char)
| Cls (p : char -> bool)
| Cat (r1 r2 : regex)
| Plus (r : regex)
| Eos
| Grp (r : regex).

(** A regular expression that matches the characters of [s] one after the
    other, then [r]. *)
Fixpoint lits (s : jsstring) (r : regex) : regex :=
  match s with
  | [] => r
  | c :: s' => Cat (Chr c) (lits s' r)
  end.

Definition sameChar (icase : bool) (c x : char) : bool :=
  if icase then (canonicalize c =? canonicalize x)%N else (c =? x)%N.

(** The loop of a greedy [r+]: [body] matches [r] once; after each
    iteration the loop first tries one more, and falls back on the
    continuation [k]. An iteration that consumes nothing is refused, and
    [fuel] bounds the iterations by the length of the input. *)
Fixpoint plusLoop {A : Type}
    (body : jsstring -> list jsstring -> (jsstring -> list jsstring -> option A) -> option A)
    (k : jsstring -> list jsstring -> option A)
    (fuel : nat) (s0 : jsstring) (caps0 : list jsstring) : option A :=
  match fuel with
  | O => None
  | S fuel' =>
      body s0 caps0 (fun s1 caps1 =>
        match (if length s1 <? length s0 then plusLoop body k fuel' s1 caps1 else None) with
        | Some a => Some a
        | None => k s1 caps1
        end)
  end.

(** [rmatch icase r s caps k] matches [r] at the start of [s], in
    continuation-passing style: [k] receives the rest of the input and the
    captures, and a [None] from [k] makes the matcher backtrack. *)
Fixpoint rmatch {A : Type} (icase : bool) (r : regex) (s : jsstring)
    (caps : list jsstring) (k : jsstring -> list jsstring -> option A) : option A :=
  match r with
  | Chr c =>
      match s with
      | x :: s' => if sameChar icase c x then k s' caps else None
      | [] => None
      end
  | Cls p =>
      match s with
      | x :: s' => if p x then k s' caps else None
      | [] => None
      end
  | Cat r1 r2 =>
      rmatch icase r1 s caps (fun s1 caps1 => rmatch icase r2 s1 caps1 k)
  | Plus r1 => plusLoop (rmatch icase r1) k (S (length s)) s caps
  | Eos =>
      match s with
      | [] => k s caps
      | _ :: _ => None
      end
  | Grp r1 =>
      rmatch icase r1 s caps (fun s1 caps1 =>
        k s1 (caps1 ++ [firstn (length s - length s1) s]))
  end.

(** The outcome of a successful match: what precedes it, the matched text,
    the captures and what follows. *)
Record found : Type := Found {
  before : jsstring;
  matched : jsstring;
  groups : list jsstring;
  after : jsstring
}.

(** [rsearch] tries every start position from left to right, the last one
    being the end of the input. *)
Fixpoint rsearch (icase : bool) (r : regex) (pre : jsstring) (s : jsstring) : option found :=
  match rmatch icase r s [] (fun s' caps => Some (s', caps)) with
  | Some (s', caps) =>
      Some (Found (rev pre) (firstn (length s - length s') s) caps s')
  | None =>
      match s with
      | [] => None
      | x :: s' => rsearch icase r (x :: pre) s'
      end
  end.

(** [s.match(r)] for a regular expression without the [g] flag. *)
Definition exec (icase : bool) (r : regex) (s : jsstring) : option found :=
  rsearch icase r [] s.

(** [s.replace(r, repl)] for a regular expression without the [g] flag and
    a replacement without [$] patterns. *)
Definition replace (icase : bool) (r : regex) (repl : jsstring) (s : jsstring) : jsstring :=
  match exec icase r s with
  | Some f => before f ++ repl ++ after f
  | None => s
  end.

(** [s.replace(r, repl)] with the [g] flag. [skip] counts the characters of
    the previous match that are still to be passed over; after an empty
    match the search resumes one character further. *)
Fixpoint replaceFrom (icase : bool) (r : regex) (repl : jsstring)
    (skip : nat) (s : jsstring) {struct s} : jsstring :=
  match skip with
  | S n =>
      match s with
      | [] => []
      | _ :: s' => replaceFrom icase r repl n s'
      end
  | O =>
      match rmatch icase r s [] (fun s' _ => Some (length s - length s')) with
      | Some m =>
          repl ++
          match s with
          | [] => []
          | x :: s' =>
              match m with
              | O => x :: replaceFrom icase r repl 0 s'
              | S m' => replaceFrom icase r repl m' s'
              end
          end
      | None =>
          match s with
          | [] => []
          | x :: s' => x :: replaceFrom icase r repl 0 s'
          end
      end
  end.

Definition replaceAll (icase : bool) (r : regex) (repl : jsstring) (s : jsstring) : jsstring :=
  replaceFrom icase r repl 0 s.

End Regex.

(** ** The radar matcher: [services/radar-matcher.ts] *)

Module Matcher.
Import Regex.

(** *** Data *)

Record RadarData : Type := {
  name : jsstring;
  ring : jsstring;
  quadrant : jsstring;
  description : jsstring
}.

Record RadarVolume : Type := {
  volume : jsstring;
  data : list RadarData
}.

(** [PriorRadarBlip] of [types.ts]. *)
Record PriorRadarBlip : Type := {
  prior_name : jsstring;
  prior_ring : jsstring;
  prior_quadrant : jsstring;
  prior_description : jsstring;
  prior_volume : jsstring
}.

(** The directory [data/radar]: the parsed [index.json], if the file is
    there, and for a file name the parsed content of that file, if it is
    there. *)
Record IndexEntry : Type := { filename : jsstring }.

Record RadarDir : Type := {
  index_json : option (list IndexEntry);
  radar_file : jsstring -> option (list RadarData)
}.

#[global] Instance RadarData_eq_dec : EqDecision RadarData.
Proof. solve_decision. Defined.

#[global] Instance RadarVolume_eq_dec : EqDecision RadarVolume.
Proof. solve_decision. Defined.

#[global] Instance PriorRadarBlip_eq_dec : EqDecision PriorRadarBlip.
Proof. solve_decision. Defined.

(** *** Levenshtein distance *)

(** The matrix [number[][]]. Reading a cell that was never written gives
    [undefined], rendered here as 0; writing at the length of a row extends
    the row, and further out leaves holes, rendered as 0 too. *)
Abbreviation matrix := (list (list nat)).

Definition mget (m : matrix) (i j : nat) : nat :=
  match m !! i with
  | Some row => default 0 (row !! j)
  | None => 0
  end.

Definition writeAt (j v : nat) (row : list nat) : list nat :=
  if j <? length row then <[j := v]> row
  else row ++ replicate (j - length row) 0 ++ [v].

Definition mset (m : matrix) (i j v : nat) : matrix :=
  alter (writeAt j v) i m.

(** [for (let i = 0; i <= len1; i++) matrix[i] = [i];] *)
Definition initRows (len1 : nat) : matrix :=
  fold_left (fun m i => m ++ [[i]]) (seq 0 (S len1)) [].

(** [for (let j = 0; j <= len2; j++) matrix[0][j] = j;] *)
Definition initCols (len2 : nat) (m : matrix) : matrix :=
  fold_left (fun m j => mset m 0 j j) (seq 0 (S len2)) m.

(** The value stored into [matrix[i][j]] by the body of the inner loop. *)
Definition cell (str1 str2 : jsstring) (m : matrix) (i j : nat) : nat :=
  if bool_decide (str1 !! (i - 1) = str2 !! (j - 1)) then mget m (i - 1) (j - 1)
  else Nat.min (mget m (i - 1) (j - 1) + 1)
         (Nat.min (mget m i (j - 1) + 1) (mget m (i - 1) j + 1)).

Definition fillRow (str1 str2 : jsstring) (m : matrix) (i : nat) : matrix :=
  fold_left (fun m j => mset m i j (cell str1 str2 m i j)) (seq 1 (length str2)) m.

Definition fill (str1 str2 : jsstring) (m : matrix) : matrix :=
  fold_left (fillRow str1 str2) (seq 1 (length str1)) m.

Definition levenshteinMatrix (str1 str2 : jsstring) : matrix :=
  fill str1 str2 (initCols (length str2) (initRows (length str1))).

Definition levenshteinDistance (str1 str2 : jsstring) : nat :=
  mget (levenshteinMatrix str1 str2) (length str1) (length str2).

(** *** Similarity ratio *)

Definition similarityRatio (str1 str2 : jsstring) : Q :=
  let maxLen := Nat.max (length str1) (length str2) in
  if maxLen =? 0 then 1%Q
  else
    let distance := levenshteinDistance str1 str2 in
    (1 - inject_Z (Z.of_nat distance) / inject_Z (Z.of_nat maxLen))%Q.

Definition SIMILARITY_THRESHOLD : Q := (85 # 100)%Q.

(** *** Catalogue loading *)

(** [/Volume (\d+) \(([^)]+)\)/] *)
Definition reVolumeDate : regex :=
  lits (str "Volume ")
    (Cat (Grp (Plus (Cls isDigit)))
       (lits (str " (")
          (Cat (Grp (Plus (Cls (fun c => negb (c =? 41)%N)))) (Chr 41%N)))).

(** [/Volume (\d+)/] *)
Definition reVolume : regex :=
  lits (str "Volume ") (Grp (Plus (Cls isDigit))).

(** The numbers that [parseInt] gives on a string of decimal digits are
    binary64 numbers: a natural number that is written with 53 significant
    bits at most, or [Infinity]. *)
Inductive number : Type :=
| Finite (n : N)
| Infinity.

#[global] Instance number_eq_dec : EqDecision number.
Proof. solve_decision. Defined.

(** The binary64 number nearest to a natural number: the bits that follow
    the first 53 are rounded off, to the nearest significand and to the
    even one of the two when they are as near, and a result of 2^1024 or
    more is [Infinity]. *)
Definition toNumber (n : N) : number :=
  let excess := (N.size n - 53)%N in
  let significand := N.shiftr n excess in
  let rest := N.land n (N.ones excess) in
  let half := N.shiftl 1 (excess - 1) in
  let up := (half <? rest)%N || ((rest =? half)%N && N.odd significand) in
  let rounded := N.shiftl (if up then significand + 1 else significand)%N excess in
  if (N.size rounded <=? 1024)%N then Finite rounded else Infinity.

(** The natural number that a string of decimal digits writes. *)
Definition decimal (s : jsstring) : N :=
  fold_left (fun acc c => (10 * acc + (c - 48))%N) s 0%N.

(** [parseInt] on a string of decimal digits: the number written, as a
    binary64 number (rounded as above, which is what V8 does for a string
    of any length). *)
Definition parseInt (s : jsstring) : number := toNumber (decimal s).

(** What [sort] looks at in the value of its comparison function: whether
    it is below or above zero; it takes [NaN] for zero. *)
Inductive sign : Type :=
| Negative
| Zero
| Positive
| NaN.

#[global] Instance sign_eq_dec : EqDecision sign.
Proof. solve_decision. Defined.

(** The sign of [x - y] for two such numbers: the difference of two
    binary64 numbers is zero only when they are equal, and
    [Infinity - Infinity] is [NaN]. *)
Definition minus (x y : number) : sign :=
  match x, y with
  | Finite a, Finite b =>
      match (a ?= b)%N with
      | Lt => Negative
      | Eq => Zero
      | Gt => Positive
      end
  | Infinity, Finite _ => Positive
  | Finite _, Infinity => Negative
  | Infinity, Infinity => NaN
  end.

(** The label of an edition, from the name of its file. *)
Definition volumeLabel (fname : jsstring) : jsstring :=
  match exec false reVolumeDate fname with
  | Some volumeMatch =>
      str "Volume " ++ nth 0 (groups volumeMatch) [] ++ str " (" ++
      nth 1 (groups volumeMatch) [] ++ str ")"
  | None => fname
  end.

(** [parseInt(a.volume.match(/Volume (\d+)/)?.[1] || '0')] *)
Definition volumeNumber (v : RadarVolume) : number :=
  match exec false reVolume (volume v) with
  | Some m =>
      match nth 0 (groups m) [] with
      | [] => parseInt (str "0")
      | c :: ds => parseInt (c :: ds)
      end
  | None => parseInt (str "0")
  end.

(** The comparison function given to [sort]: [bNum - aNum]. *)
Definition compareVolumes (a b : RadarVolume) : sign :=
  minus (volumeNumber b) (volumeNumber a).

(** [Array.prototype.sort] is stable: an element moves in front of another
    only when the comparison function is positive on them, in their
    order. *)
Fixpoint insertVolume (x : RadarVolume) (l : list RadarVolume) : list RadarVolume :=
  match l with
  | [] => [x]
  | y :: l' =>
      match compareVolumes x y with
      | Positive => y :: insertVolume x l'
      | _ => x :: y :: l'
      end
  end.

Definition sortVolumes (l : list RadarVolume) : list RadarVolume :=
  foldr insertVolume [] l.

(** The editions pushed by the loop over the index, in the order of the
    index. *)
Definition readVolumes (dir : RadarDir) (index : list IndexEntry) : list RadarVolume :=
  fold_left
    (fun volumes entry =>
       match radar_file dir (filename entry) with
       | Some d => volumes ++ [{| volume := volumeLabel (filename entry); data := d |}]
       | None => volumes
       end)
    index [].

Definition loadRadarData (dir : RadarDir) : list RadarVolume :=
  match index_json dir with
  | None => []
  | Some index => sortVolumes (readVolumes dir index)
  end.

(** The health check of the catalogue: [fs.existsSync(indexPath)]. *)
Definition isRadarDataAvailable (dir : RadarDir) : bool :=
  bool_decide (is_Some (index_json dir)).

Section WithCaseMapping.

(** [String.prototype.toLowerCase]. *)
Variable toLowerCase : jsstring -> jsstring.

(** *** Normalisation *)

(** [/\.js$/i] and its siblings. *)
Definition reSuffix (suffix : string) : regex := lits (str suffix) Eos.

(** [/[^\w\s]/g] *)
Definition rePunctuation : regex := Cls (fun c => negb (isWord c || isSpace c)).

(** [/\s+/g] *)
Definition reSpaces : regex := Plus (Cls isSpace).

Definition normalizeBlipName (name : jsstring) : jsstring :=
  let normalized := trim (toLowerCase name) in
  let normalized :=
    replace true (reSuffix ".org") []
      (replace true (reSuffix ".net") []
         (replace true (reSuffix ".io") []
            (replace true (reSuffix ".js") [] normalized))) in
  let normalized := replaceAll false rePunctuation [] normalized in
  let normalized := trim (replaceAll false reSpaces [space] normalized) in
  normalized.

(** *** Lookup *)

Definition priorBlip (blip : RadarData) (v : jsstring) : PriorRadarBlip :=
  {| prior_name := name blip;
     prior_ring := ring blip;
     prior_quadrant := quadrant blip;
     prior_description := description blip;
     prior_volume := v |}.

(** The state of the two nested loops: either the function has returned
    from inside them, or they go on with the current [bestMatch]. *)
Inductive scan : Type :=
| Returned (blip : PriorRadarBlip)
| Going (bestMatch : option (PriorRadarBlip * Q)).

(** One turn of the inner loop, on a [blip] of the edition labelled [v]. *)
Definition visit (normalizedInput : jsstring) (v : jsstring) (blip : RadarData)
    (bestMatch : option (PriorRadarBlip * Q)) : scan :=
  let normalizedBlipName := normalizeBlipName (name blip) in
  if bool_decide (normalizedInput = normalizedBlipName) then
    Returned (priorBlip blip v)
  else
    let similarity := similarityRatio normalizedInput normalizedBlipName in
    if Qle_bool SIMILARITY_THRESHOLD similarity then
      match bestMatch with
      | None => Going (Some (priorBlip blip v, similarity))
      | Some (_, best) =>
          if negb (Qle_bool similarity best)
          then Going (Some (priorBlip blip v, similarity))
          else Going bestMatch
      end
    else Going bestMatch.

Fixpoint scanBlips (normalizedInput : jsstring) (v : jsstring) (blips : list RadarData)
    (bestMatch : option (PriorRadarBlip * Q)) : scan :=
  match blips with
  | [] => Going bestMatch
  | blip :: rest =>
      match visit normalizedInput v blip bestMatch with
      | Returned b => Returned b
      | Going bestMatch' => scanBlips normalizedInput v rest bestMatch'
      end
  end.

Fixpoint scanVolumes (normalizedInput : jsstring) (volumes : list RadarVolume)
    (bestMatch : option (PriorRadarBlip * Q)) : scan :=
  match volumes with
  | [] => Going bestMatch
  | v :: rest =>
      match scanBlips normalizedInput (volume v) (data v) bestMatch with
      | Returned b => Returned b
      | Going bestMatch' => scanVolumes normalizedInput rest bestMatch'
      end
  end.

Definition findPriorRadarMatch (dir : RadarDir) (blipName : jsstring) : option PriorRadarBlip :=
  let volumes := loadRadarData dir in
  let normalizedInput := normalizeBlipName blipName in
  match scanVolumes normalizedInput volumes None with
  | Returned b => Some b
  | Going bestMatch => fst <$> bestMatch
  end.

End WithCaseMapping.

(** The case mapping restricted to the Basic Latin block. *)
Definition asciiLower (s : jsstring) : jsstring :=
  map (fun c => if isUpperAZ c then (c + 32)%N else c) s.

End Matcher.

(** ** Specification of the matcher *)

(** *** Edit distance *)

Module EditDistance.

(** One edit: a character is inserted, deleted or substituted, somewhere
    in the string. *)
Inductive edit1 : jsstring -> jsstring -> Prop :=
| edit_insert (c : char) (s : jsstring) : edit1 s (c :: s)
| edit_delete (c : char) (s : jsstring) : edit1 (c :: s) s
| edit_substitute (c d : char) (s : jsstring) : edit1 (c :: s) (d :: s)
| edit_inside (c : char) (s t : jsstring) : edit1 s t -> edit1 (c :: s) (c :: t).

(** [n] edits, one after the other, turn [s] into [t]. *)
Definition edits (n : nat) (s t : jsstring) : Prop := nsteps edit1 n s t.

(** The recurrence of the distance, on the first characters. *)
Fixpoint lev (s t : jsstring) : nat :=
  match s with
  | [] => length t
  | a :: s' =>
      (fix inner (t : jsstring) : nat :=
         match t with
         | [] => length s
         | b :: t' =>
             if bool_decide (a = b) then lev s' t'
             else S (Nat.min (lev s' t') (Nat.min (inner t') (lev s' t)))
         end) t
  end.

Section Prefixes.

Variables str1 str2 : jsstring.

(** The distance between the prefixes of lengths [r] and [c]. *)
Definition prefixDistance (r c : nat) : nat :=
  lev (rev (take r str1)) (rev (take c str2)).

(** The matrix once the rows above [i] are complete and row [i] is filled
    up to column [j]; the rows below hold their first cell only. *)
Definition rowWidth (i j r : nat) : nat :=
  if r <? i then S (length str2) else if r =? i then S j else 1.

Definition expectedRow (i j r : nat) : list nat :=
  prefixDistance r <$> seq 0 (rowWidth i j r).

Definition expected (i j : nat) : list (list nat) :=
  expectedRow i j <$> seq 0 (S (length str1)).

End Prefixes.

End EditDistance.

(** *** Normalisation *)

Module NormalizeSpec.

(** [s] ends with [suffix], letters compared without regard to case. *)
Definition endsWithCI (suffix s : jsstring) : bool :=
  bool_decide (canonicalize <$> drop (length s - length suffix) s = canonicalize <$> suffix).

Definition stripSuffix (suffix : string) (s : jsstring) : jsstring :=
  if endsWithCI (str suffix) s then take (length s - length (str suffix)) s else s.

(** The characters that the removal of punctuation keeps. *)
Definition kept (c : char) : bool := isWord c || isSpace c.

(** Every run of white space becomes one space; [inRun] tells that the
    previous character was white space. *)
Fixpoint collapse (inRun : bool) (s : jsstring) : jsstring :=
  match s with
  | [] => []
  | c :: s' =>
      if isSpace c then (if inRun then collapse true s' else space :: collapse true s')
      else c :: collapse false s'
  end.

Definition collapseSpaces (s : jsstring) : jsstring := collapse false s.

(** White space occurs only as single spaces. *)
Fixpoint tight (s : jsstring) : Prop :=
  match s with
  | [] => True
  | x :: s' =>
      (isSpace x = true ->
       x = space /\ match s' with y :: _ => isSpace y = false | [] => True end)
      /\ tight s'
  end.

(** The normalisation in the words of the specification: lower-case, trim,
    strip one trailing suffix of the fixed set, remove what is neither
    alphanumeric nor white space, collapse the white space, trim. *)
Definition suffixes : list string := [".js"; ".io"; ".net"; ".org"]%string.

Definition stripOneSuffix (s : jsstring) : jsstring :=
  match List.find (fun suffix => endsWithCI (str suffix) s) suffixes with
  | Some suffix => take (length s - length (str suffix)) s
  | None => s
  end.

Definition isAlphanumeric (c : char) : bool := isUpperAZ c || isLowerAZ c || isDigit c.

Definition Normalize (toLowerCase : jsstring -> jsstring) (name : jsstring) : jsstring :=
  trim (collapseSpaces
          (List.filter (fun c => isAlphanumeric c || isSpace c)
             (stripOneSuffix (trim (toLowerCase name))))).

End NormalizeSpec.

(** *** Lookup *)

Module LookupSpec.
Import Matcher.

(** The blips in the order in which the two loops visit them, each with
    the label of its edition. *)
Definition candidates (volumes : list RadarVolume) : list (RadarData * jsstring) :=
  flat_map (fun v => map (fun blip => (blip, volume v)) (data v)) volumes.

(** The order of the numbers: [Infinity] is above every natural number. *)
Definition atMost (x y : number) : Prop :=
  match x, y with
  | Finite a, Finite b => (a <= b)%N
  | _, Infinity => True
  | Infinity, Finite _ => False
  end.

(** An edition comes before the editions of lower number. *)
Definition newerFirst (a b : RadarVolume) : Prop :=
  atMost (volumeNumber b) (volumeNumber a).

Section WithCaseMapping.

Variable toLowerCase : jsstring -> jsstring.

(** The inner loop and the outer loop, as one loop over the candidates. *)
Fixpoint scanCandidates (normalizedInput : jsstring) (cands : list (RadarData * jsstring))
    (bestMatch : option (PriorRadarBlip * Q)) : scan :=
  match cands with
  | [] => Going bestMatch
  | (blip, v) :: rest =>
      match visit toLowerCase normalizedInput v blip bestMatch with
      | Returned b => Returned b
      | Going bestMatch' => scanCandidates normalizedInput rest bestMatch'
      end
  end.

(** A candidate whose normalised name is the normalised query. *)
Definition exact (normalizedInput : jsstring) (c : RadarData * jsstring) : Prop :=
  normalizeBlipName toLowerCase (name (fst c)) = normalizedInput.

Definition hasExact (normalizedInput : jsstring) (v : RadarVolume) : Prop :=
  Exists (fun blip => normalizeBlipName toLowerCase (name blip) = normalizedInput) (data v).

(** The similarity of a candidate to the normalised query. *)
Definition score (normalizedInput : jsstring) (c : RadarData * jsstring) : Q :=
  similarityRatio normalizedInput (normalizeBlipName toLowerCase (name (fst c))).

(** What [bestMatch] holds once the candidates [seen] were visited, none
    of them an exact match. *)
Definition bestOf (input : jsstring) (seen : list (RadarData * jsstring))
    (best : option (PriorRadarBlip * Q)) : Prop :=
  match best with
  | None => Forall (fun c => (score input c < SIMILARITY_THRESHOLD)%Q) seen
  | Some (b, s) =>
      exists pre c post,
        seen = pre ++ c :: post /\
        b = priorBlip (fst c) (snd c) /\
        s = score input c /\
        (SIMILARITY_THRESHOLD <= score input c)%Q /\
        Forall (fun c' => (score input c' < score input c)%Q) pre /\
        Forall (fun c' => (score input c' <= score input c)%Q) post
  end.

End WithCaseMapping.

End LookupSpec.

(** *** The similarity in binary64

    The similarity and the scan once more, on the numbers of the runtime,
    with the tables that compare the two arithmetics on every distance and
    length up to a bound. *)

Module Binary64.
Import Matcher.

(** A count, as a number of the runtime. *)
Definition numberOfNat (n : nat) : float :=
  PrimFloat.of_uint63 (Uint63.of_Z (Z.of_nat n)).

(** [1 - distance / maxLen] *)
Definition ratio64 (distance maxLen : nat) : float :=
  (1 - numberOfNat distance / numberOfNat maxLen)%float.

Definition similarityRatio64 (str1 str2 : jsstring) : float :=
  let maxLen := Nat.max (length str1) (length str2) in
  if maxLen =? 0 then 1%float
  else
    let distance := levenshteinDistance str1 str2 in
    ratio64 distance maxLen.

(** The binary64 number that the literal [0.85] denotes. *)
Definition SIMILARITY_THRESHOLD64 : float := 0x1.b333333333333p-1%float.

Inductive scan64 : Type :=
| Returned64 (blip : PriorRadarBlip)
| Going64 (bestMatch : option (PriorRadarBlip * float)).

Section WithCaseMapping.

Variable toLowerCase : jsstring -> jsstring.

Definition visit64 (normalizedInput : jsstring) (v : jsstring) (blip : RadarData)
    (bestMatch : option (PriorRadarBlip * float)) : scan64 :=
  let normalizedBlipName := normalizeBlipName toLowerCase (name blip) in
  if bool_decide (normalizedInput = normalizedBlipName) then
    Returned64 (priorBlip blip v)
  else
    let similarity := similarityRatio64 normalizedInput normalizedBlipName in
    if (SIMILARITY_THRESHOLD64 <=? similarity)%float then
      match bestMatch with
      | None => Going64 (Some (priorBlip blip v, similarity))
      | Some (_, best) =>
          if (best <? similarity)%float
          then Going64 (Some (priorBlip blip v, similarity))
          else Going64 bestMatch
      end
    else Going64 bestMatch.

Fixpoint scanCandidates64 (normalizedInput : jsstring) (cands : list (RadarData * jsstring))
    (bestMatch : option (PriorRadarBlip * float)) : scan64 :=
  match cands with
  | [] => Going64 bestMatch
  | (blip, v) :: rest =>
      match visit64 normalizedInput v blip bestMatch with
      | Returned64 b => Returned64 b
      | Going64 bestMatch' => scanCandidates64 normalizedInput rest bestMatch'
      end
  end.

(** [findPriorRadarMatch] with the similarities in binary64. *)
Definition findPriorRadarMatch64 (dir : RadarDir) (blipName : jsstring) : option PriorRadarBlip :=
  let volumes := loadRadarData dir in
  let normalizedInput := normalizeBlipName toLowerCase blipName in
  match scanCandidates64 normalizedInput (LookupSpec.candidates volumes) None with
  | Returned64 b => Some b
  | Going64 bestMatch => fst <$> bestMatch
  end.

End WithCaseMapping.

(** The exact ratio. *)
Definition ratioQ (distance maxLen : nat) : Q :=
  (1 - inject_Z (Z.of_nat distance) / inject_Z (Z.of_nat maxLen))%Q.

(** The pairs of a distance and a greater length between 1 and [n]. *)
Definition pairs (n : nat) : list (nat * nat) :=
  flat_map (fun m => map (fun d => (d, m)) (seq 0 (S m))) (seq 1 n).

Definition passes (p : nat * nat) : bool :=
  Qle_bool SIMILARITY_THRESHOLD (ratioQ (fst p) (snd p)).

(** The threshold test gives the same answer in binary64 and exactly. *)
Definition thresholdTable (n : nat) : bool :=
  forallb (fun p =>
             Bool.eqb (SIMILARITY_THRESHOLD64 <=? ratio64 (fst p) (snd p))%float (passes p))
    (pairs n).

(** So does the comparison of two ratios that pass the threshold. *)
Definition orderTable (n : nat) : bool :=
  let good := List.filter passes (pairs n) in
  forallb (fun p =>
     forallb (fun q =>
        Bool.eqb (ratio64 (fst p) (snd p) <? ratio64 (fst q) (snd q))%float
                 (negb (Qle_bool (ratioQ (fst q) (snd q)) (ratioQ (fst p) (snd p)))))
       good)
    good.

(** The lengths up to which the tables are computed. *)
Definition LENGTH_BOUND : nat := 100.

(** The two values of [bestMatch] hold the same entry, with the ratio of
    the same counts. *)
Definition sameBest (n : nat) (best64 : option (PriorRadarBlip * float))
    (best : option (PriorRadarBlip * Q)) : Prop :=
  match best64, best with
  | None, None => True
  | Some (b64, f), Some (b, q) =>
      b64 = b /\
      exists d m, In (d, m) (pairs n) /\ passes (d, m) = true /\
                  f = ratio64 d m /\ q = ratioQ d m
  | _, _ => False
  end.

End Binary64.

(** ** The submission store: [services/storage.ts] *)

Module Store.

Local Open Scope string_scope.

(** *** Values and errors *)

(** The values that [JSON.parse] produces; a submission is such a value. *)
#[local] Set Warnings "-register-all".
Inductive json : Type :=
| JNull
| JBool (b : bool)
| JNumber (z : Z)
| JString (s : string)
| JArray (items : list json)
| JObject (fields : list (string * json)).
#[local] Set Warnings "register-all".

Inductive error : Type :=
| ENOENT (path : string)
| EEXIST (path : string)
| EPERM (path : string)
| SyntaxError
| TypeError
| Error (message : string).

Inductive result (A : Type) : Type :=
| Ok (a : A)
| Thrown (e : error).

Arguments Ok {A} a.
Arguments Thrown {A} e.

(** *** The file system *)

(** The storage directory, if it exists, maps the paths of its files to
    their content; [clock] is the time in milliseconds. [pinned] holds the
    paths of the entries that the file system refuses to remove when this
    process asks (a directory in the place of a file, a file of another
    user in a directory where users may remove their own files only):
    [unlinkSync] fails on them and nothing else looks at them; the file
    that [writeFileSync] creates under the flag wx is the process's own,
    and its path leaves them. [lateness] tells how late a timer fires: a
    wait of [ms] milliseconds that begins at the time [t] ends at
    [t + ms + lateness t], which also covers the time that the code
    between two readings of the clock takes. *)
Record fsState : Type := {
  directory : option (gmap string string);
  clock : Z;
  pinned : gset string;
  lateness : Z -> Z
}.

Definition files (st : fsState) : gmap string string :=
  default ∅ (directory st).

Definition withFiles (st : fsState) (m : gmap string string) : fsState :=
  {| directory := Some m; clock := clock st;
     pinned := pinned st; lateness := lateness st |}.

(** A file that this process has just created is its own to remove. *)
Definition unpinned (path : string) (st : fsState) : fsState :=
  {| directory := directory st; clock := clock st;
     pinned := pinned st ∖ {[ path ]}; lateness := lateness st |}.

(** A computation either returns or throws, in a new state; [None] stands
    for a computation that is still running when its fuel is spent. *)
Definition M (A : Type) : Type := fsState -> option (result A * fsState).

Definition ret {A : Type} (a : A) : M A := fun st => Some (Ok a, st).
Definition throw {A : Type} (e : error) : M A := fun st => Some (Thrown e, st).

Definition bind {A B : Type} (m : M A) (f : A -> M B) : M B :=
  fun st =>
    match m st with
    | Some (Ok a, st') => f a st'
    | Some (Thrown e, st') => Some (Thrown e, st')
    | None => None
    end.

Notation "x <- m ;; k" := (bind m (fun x => k))
  (at level 100, m at next level, right associativity).
Notation "m ;;; k" := (bind m (fun _ => k))
  (at level 100, right associativity).

(** [try { body } catch (error) { handler }] *)
Definition tryCatch {A : Type} (body : M A) (handler : error -> M A) : M A :=
  fun st =>
    match body st with
    | Some (Ok a, st') => Some (Ok a, st')
    | Some (Thrown e, st') => handler e st'
    | None => None
    end.

(** [try { body } finally { finalizer }] *)
Definition tryFinally {A : Type} (body : M A) (finalizer : M unit) : M A :=
  fun st =>
    match body st with
    | Some (r, st') =>
        match finalizer st' with
        | Some (Ok _, st'') => Some (r, st'')
        | Some (Thrown e, st'') => Some (Thrown e, st'')
        | None => None
        end
    | None => None
    end.

(** [fs.existsSync] *)
Definition existsSync (path : string) : M bool :=
  fun st => Some (Ok (bool_decide (is_Some (files st !! path))), st).

Definition dirExistsSync : M bool :=
  fun st => Some (Ok (bool_decide (is_Some (directory st))), st).

(** [fs.mkdirSync(dir, { recursive: true })] *)
Definition mkdirSync : M unit :=
  fun st => Some (Ok tt, withFiles st (files st)).

(** [fs.readFileSync(path, 'utf-8')] *)
Definition readFileSync (path : string) : M string :=
  fun st =>
    match files st !! path with
    | Some content => Some (Ok content, st)
    | None => Some (Thrown (ENOENT path), st)
    end.

(** [fs.writeFileSync(path, content)], with [{ flag: 'wx' }] when
    [exclusive]: the call then fails when there is an entry at the path,
    and the file that it writes otherwise is a new one. *)
Definition writeFileSync (path content : string) (exclusive : bool) : M unit :=
  fun st =>
    match directory st with
    | None => Some (Thrown (ENOENT path), st)
    | Some m =>
        if exclusive then
          if bool_decide (is_Some (m !! path))
          then Some (Thrown (EEXIST path), st)
          else Some (Ok tt, withFiles (unpinned path st) (<[path := content]> m))
        else Some (Ok tt, withFiles st (<[path := content]> m))
    end.

(** [fs.unlinkSync]: it fails when there is nothing at the path, and when
    the file system refuses to remove what is there. *)
Definition unlinkSync (path : string) : M unit :=
  fun st =>
    match files st !! path with
    | Some _ =>
        if bool_decide (path ∈ pinned st) then Some (Thrown (EPERM path), st)
        else Some (Ok tt, withFiles st (delete path (files st)))
    | None => Some (Thrown (ENOENT path), st)
    end.

(** [fs.copyFileSync] *)
Definition copyFileSync (src dest : string) : M unit :=
  fun st =>
    match files st !! src with
    | Some content => Some (Ok tt, withFiles st (<[dest := content]> (files st)))
    | None => Some (Thrown (ENOENT src), st)
    end.

(** [fs.renameSync] *)
Definition renameSync (oldPath newPath : string) : M unit :=
  fun st =>
    match files st !! oldPath with
    | Some content =>
        Some (Ok tt, withFiles st (<[newPath := content]> (delete oldPath (files st))))
    | None => Some (Thrown (ENOENT oldPath), st)
    end.

(** [Date.now()] *)
Definition dateNow : M Z := fun st => Some (Ok (clock st), st).

Definition LOCK_TIMEOUT : Z := 5000.
Definition LOCK_RETRY_DELAY : Z := 100.

(** The attempts that the loop of [acquireLock] is given: the loop ends
    at the first failed attempt that comes more than [LOCK_TIMEOUT]
    milliseconds after its beginning, and there is a wait between two
    attempts, so that these are enough as soon as a wait takes a
    millisecond. *)
Definition LOCK_ATTEMPTS : nat := Z.to_nat LOCK_TIMEOUT + 2.

Section WithRuntime.

(** [JSON.stringify(value, null, 2)], [None] when it throws, and
    [JSON.parse], [None] when it throws. *)
Variable JSON_stringify : json -> option string.
Variable JSON_parse : string -> option json.

(** [process.env.STORAGE_PATH] or its default, and [process.pid.toString()]. *)
Variable storagePath : string.
Variable pid : string.

(** What the other writers do to the directory while this one waits, given
    the time at which the wait begins. *)
Variable others : Z -> option (gmap string string) -> option (gmap string string).

Definition stringify (v : json) : M string :=
  fun st =>
    match JSON_stringify v with
    | Some text => Some (Ok text, st)
    | None => Some (Thrown TypeError, st)
    end.

Definition parse (text : string) : M json :=
  fun st =>
    match JSON_parse text with
    | Some v => Some (Ok v, st)
    | None => Some (Thrown SyntaxError, st)
    end.

(** [await new Promise(resolve => setTimeout(resolve, ms))]: the other
    writers run, and the timer fires [ms] milliseconds later or later
    still. *)
Definition sleep (ms : Z) : M unit :=
  fun st =>
    Some (Ok tt, {| directory := others (clock st) (directory st);
                    clock := (clock st + ms + lateness st (clock st))%Z;
                    pinned := pinned st;
                    lateness := lateness st |}).

Definition getStoragePath : string := storagePath.
Definition getLockPath : string := getStoragePath +:+ ".lock".

(** The loop of [acquireLock], with the attempts left. *)
Fixpoint acquireLockFrom (attempts : nat) (lockPath : string) (startTime : Z) : M unit :=
  match attempts with
  | O => fun _ => None
  | S attempts' =>
      tryCatch (writeFileSync lockPath pid true)
        (fun _ =>
           now <- dateNow ;;
           if (now - startTime >? LOCK_TIMEOUT)%Z then
             tryCatch (unlinkSync lockPath) (fun _ => ret tt) ;;;
             throw (Error "Failed to acquire lock: timeout")
           else
             sleep LOCK_RETRY_DELAY ;;;
             acquireLockFrom attempts' lockPath startTime)
  end.

Definition acquireLock : M unit :=
  let lockPath := getLockPath in
  startTime <- dateNow ;;
  acquireLockFrom LOCK_ATTEMPTS lockPath startTime.

Definition releaseLock : M unit :=
  let lockPath := getLockPath in
  tryCatch (unlinkSync lockPath) (fun _ => ret tt).

Definition ensureStorageDirectory : M unit :=
  present <- dirExistsSync ;;
  if negb present then mkdirSync else ret tt.

Definition loadSubmissions : M (list json) :=
  let storagePath := getStoragePath in
  present <- existsSync storagePath ;;
  if negb present then ret []
  else
    tryCatch
      (data <- readFileSync storagePath ;;
       submissions <- parse data ;;
       match submissions with
       | JArray items => ret items
       | _ => ret []
       end)
      (fun _ => ret []).

Definition saveSubmission (submission : json) : M unit :=
  ensureStorageDirectory ;;;
  tryFinally
    (acquireLock ;;;
     submissions <- loadSubmissions ;;
     let submissions := (submissions ++ [submission])%list in
     let storagePath := getStoragePath in
     let tempPath := storagePath +:+ ".tmp" in
     text <- stringify (JArray submissions) ;;
     writeFileSync tempPath text false ;;;
     present <- existsSync storagePath ;;
     (if present then
        let backupPath := storagePath +:+ ".backup" in
        copyFileSync storagePath backupPath
      else ret tt) ;;;
     renameSync tempPath storagePath ;;;
     written <- readFileSync storagePath ;;
     verification <- parse written ;;
     match verification with
     | JArray items =>
         if negb (length items =? length submissions)%nat
         then throw (Error "Verification failed after write")
         else ret tt
     | _ => throw (Error "Verification failed after write")
     end)
    releaseLock.

(** Appending the submissions of a list one call after the other, each call
    awaited before the next. *)
Fixpoint saveAll (submissions : list json) : M unit :=
  match submissions with
  | [] => ret tt
  | submission :: rest => saveSubmission submission ;;; saveAll rest
  end.

(** The result of [getStorageStats]. *)
Record StorageStats : Type := { count : nat; path : string }.

Definition getStorageStats : M StorageStats :=
  submissions <- loadSubmissions ;;
  ret {| count := length submissions; path := getStoragePath |}.

End WithRuntime.

(** *** A printer and a parser of JSON text

    An instance of the two functions of the runtime, on integers, strings
    of bytes, arrays and objects, printed with an indentation of two
    spaces. *)

Module JsonText.

Local Open Scope list_scope.
Local Open Scope nat_scope.

Definition chars (s : string) : list ascii := list_ascii_of_string s.

Definition quoteChar : ascii := ascii_of_nat 34.
Definition backslashChar : ascii := ascii_of_nat 92.
Definition newlineChar : ascii := ascii_of_nat 10.

Definition hexDigit (n : nat) : ascii :=
  nth n (chars "0123456789abcdef") (ascii_of_nat 48).

Definition hexValue (c : ascii) : option nat :=
  let n := nat_of_ascii c in
  if (48 <=? n) && (n <=? 57) then Some (n - 48)
  else if (97 <=? n) && (n <=? 102) then Some (n - 87)
  else if (65 <=? n) && (n <=? 70) then Some (n - 55)
  else None.

Fixpoint escape (s : list ascii) : list ascii :=
  match s with
  | [] => []
  | c :: rest =>
      let n := nat_of_ascii c in
      (if n =? 34 then [backslashChar; quoteChar]
       else if n =? 92 then [backslashChar; backslashChar]
       else if n <? 32 then
         backslashChar :: chars "u00" ++ [hexDigit (n / 16); hexDigit (n mod 16)]
       else [c]) ++ escape rest
  end.

Definition printString (s : string) : list ascii :=
  quoteChar :: escape (chars s) ++ [quoteChar].

Fixpoint joinWith (sep : list ascii) (parts : list (list ascii)) : list ascii :=
  match parts with
  | [] => []
  | [part] => part
  | part :: rest => part ++ sep ++ joinWith sep rest
  end.

Definition block (opening closing : string) (indent : list ascii)
    (parts : list (list ascii)) : list ascii :=
  match parts with
  | [] => chars opening ++ chars closing
  | _ =>
      let inner := indent ++ chars "  " in
      chars opening ++ newlineChar :: inner ++
      joinWith (chars "," ++ newlineChar :: inner) parts ++
      newlineChar :: indent ++ chars closing
  end.

Fixpoint printValue (indent : list ascii) (v : json) : list ascii :=
  match v with
  | JNull => chars "null"
  | JBool true => chars "true"
  | JBool false => chars "false"
  | JNumber z => chars (pretty z)
  | JString s => printString s
  | JArray items =>
      block "[" "]" indent (map (printValue (indent ++ chars "  ")) items)
  | JObject fields =>
      block "{" "}" indent
        (map (fun field =>
                printString (fst field) ++ chars ": " ++
                printValue (indent ++ chars "  ") (snd field)) fields)
  end.

Definition stringifyText (v : json) : option string :=
  Some (string_of_list_ascii (printValue [] v)).

Definition isWs (c : ascii) : bool :=
  let n := nat_of_ascii c in
  (n =? 32) || (n =? 10) || (n =? 13) || (n =? 9).

Fixpoint skipWs (s : list ascii) : list ascii :=
  match s with
  | [] => []
  | c :: rest => if isWs c then skipWs rest else s
  end.

Fixpoint stripPrefix (p s : list ascii) : option (list ascii) :=
  match p, s with
  | [], _ => Some s
  | a :: p', b :: s' => if Ascii.eqb a b then stripPrefix p' s' else None
  | _ :: _, [] => None
  end.

Definition unescape (c : ascii) : option ascii :=
  let n := nat_of_ascii c in
  if (n =? 34) || (n =? 92) || (n =? 47) then Some c
  else if n =? 110 then Some (ascii_of_nat 10)
  else if n =? 116 then Some (ascii_of_nat 9)
  else if n =? 114 then Some (ascii_of_nat 13)
  else if n =? 98 then Some (ascii_of_nat 8)
  else if n =? 102 then Some (ascii_of_nat 12)
  else None.

(** The characters of a string literal, after its opening quote. *)
Fixpoint parseChars (s : list ascii) : option (list ascii * list ascii) :=
  match s with
  | [] => None
  | c :: rest =>
      let n := nat_of_ascii c in
      if n =? 34 then Some ([], rest)
      else if n =? 92 then
        match rest with
        | e :: rest' =>
            if nat_of_ascii e =? 117 then
              match rest' with
              | a :: b :: c' :: d :: rest'' =>
                  match hexValue a, hexValue b, hexValue c', hexValue d with
                  | Some 0, Some 0, Some h, Some l =>
                      match parseChars rest'' with
                      | Some (cs, r) => Some (ascii_of_nat (16 * h + l) :: cs, r)
                      | None => None
                      end
                  | _, _, _, _ => None
                  end
              | _ => None
              end
            else
              match unescape e, parseChars rest' with
              | Some x, Some (cs, r) => Some (x :: cs, r)
              | _, _ => None
              end
        | [] => None
        end
      else if n <? 32 then None
      else
        match parseChars rest with
        | Some (cs, r) => Some (c :: cs, r)
        | None => None
        end
  end.

Fixpoint parseDigits (acc : Z) (s : list ascii) : Z * list ascii :=
  match s with
  | c :: rest =>
      let n := nat_of_ascii c in
      if (48 <=? n) && (n <=? 57)
      then parseDigits (10 * acc + Z.of_nat (n - 48))%Z rest
      else (acc, s)
  | [] => (acc, [])
  end.

Definition isDigitChar (c : ascii) : bool :=
  let n := nat_of_ascii c in (48 <=? n) && (n <=? 57).

Definition parseNumber (s : list ascii) : option (json * list ascii) :=
  match s with
  | c :: rest =>
      if nat_of_ascii c =? 45 then
        match rest with
        | d :: _ =>
            if isDigitChar d
            then let (z, r) := parseDigits 0 rest in Some (JNumber (- z), r)
            else None
        | [] => None
        end
      else if isDigitChar c
      then let (z, r) := parseDigits 0 s in Some (JNumber z, r)
      else None
  | [] => None
  end.

(** The items of an array after its first bracket, the array not being
    empty; [pv] parses one value. *)
Fixpoint parseItems (pv : list ascii -> option (json * list ascii))
    (fuel : nat) (s : list ascii) : option (list json * list ascii) :=
  match fuel with
  | O => None
  | S fuel' =>
      match pv s with
      | Some (v, r) =>
          match skipWs r with
          | c :: r' =>
              if nat_of_ascii c =? 44 then
                match parseItems pv fuel' r' with
                | Some (vs, r'') => Some (v :: vs, r'')
                | None => None
                end
              else if nat_of_ascii c =? 93 then Some ([v], r')
              else None
          | [] => None
          end
      | None => None
      end
  end.

Fixpoint parseFields (pv : list ascii -> option (json * list ascii))
    (fuel : nat) (s : list ascii) : option (list (string * json) * list ascii) :=
  match fuel with
  | O => None
  | S fuel' =>
      match skipWs s with
      | q :: r0 =>
          if nat_of_ascii q =? 34 then
            match parseChars r0 with
            | Some (key, r1) =>
                match skipWs r1 with
                | colon :: r2 =>
                    if nat_of_ascii colon =? 58 then
                      match pv r2 with
                      | Some (v, r3) =>
                          match skipWs r3 with
                          | c :: r4 =>
                              if nat_of_ascii c =? 44 then
                                match parseFields pv fuel' r4 with
                                | Some (fs, r5) =>
                                    Some ((string_of_list_ascii key, v) :: fs, r5)
                                | None => None
                                end
                              else if nat_of_ascii c =? 125
                              then Some ([(string_of_list_ascii key, v)], r4)
                              else None
                          | [] => None
                          end
                      | None => None
                      end
                    else None
                | [] => None
                end
            | None => None
            end
          else None
      | [] => None
      end
  end.

Fixpoint parseValue (fuel : nat) (s : list ascii) : option (json * list ascii) :=
  match fuel with
  | O => None
  | S fuel' =>
      match skipWs s with
      | [] => None
      | c :: rest =>
          let n := nat_of_ascii c in
          if n =? 110 then
            match stripPrefix (chars "null") (c :: rest) with
            | Some r => Some (JNull, r)
            | None => None
            end
          else if n =? 116 then
            match stripPrefix (chars "true") (c :: rest) with
            | Some r => Some (JBool true, r)
            | None => None
            end
          else if n =? 102 then
            match stripPrefix (chars "false") (c :: rest) with
            | Some r => Some (JBool false, r)
            | None => None
            end
          else if n =? 34 then
            match parseChars rest with
            | Some (cs, r) => Some (JString (string_of_list_ascii cs), r)
            | None => None
            end
          else if n =? 91 then
            match skipWs rest with
            | d :: r =>
                if nat_of_ascii d =? 93 then Some (JArray [], r)
                else
                  match parseItems (parseValue fuel') fuel' rest with
                  | Some (vs, r') => Some (JArray vs, r')
                  | None => None
                  end
            | [] => None
            end
          else if n =? 123 then
            match skipWs rest with
            | d :: r =>
                if nat_of_ascii d =? 125 then Some (JObject [], r)
                else
                  match parseFields (parseValue fuel') fuel' rest with
                  | Some (fs, r') => Some (JObject fs, r')
                  | None => None
                  end
            | [] => None
            end
          else parseNumber (c :: rest)
      end
  end.

Definition parseText (text : string) : option json :=
  match parseValue (S (String.length text)) (chars text) with
  | Some (v, rest) =>
      match skipWs rest with
      | [] => Some v
      | _ :: _ => None
      end
  | None => None
  end.

End JsonText.

End Store.

(** ** Regular expressions with lookahead: [services/validation.ts] *)

Module Pattern.

Inductive regex : Type :=
| Eps
| Chr (c : char)
| Cls (p : char -> bool)
| Cat (r1 r2 : regex)
| Star (r : regex)
| Plus (r : regex)
| Opt (r : regex)
| NotAhead (r : regex)
| WordBoundary.

(** A regular expression that matches the characters of [s] one after the
    other, then [r]. *)
Fixpoint lits (s : jsstring) (r : regex) : regex :=
  match s with
  | [] => r
  | c :: s' => Cat (Chr c) (lits s' r)
  end.

(** The loop of a greedy [r*]: [body] matches [r] once; the loop first
    tries one more iteration, and falls back on the continuation [k]. An
    iteration that consumes nothing is refused, and [fuel] bounds the
    iterations by the length of the input. [prev] is the character before
    the current position, if there is one. *)
Fixpoint starLoop {A : Type}
    (body : option char -> jsstring -> (option char -> jsstring -> option A) -> option A)
    (k : option char -> jsstring -> option A)
    (fuel : nat) (prev0 : option char) (s0 : jsstring) : option A :=
  match fuel with
  | O => None
  | S fuel' =>
      match body prev0 s0 (fun prev1 s1 =>
              if length s1 <? length s0 then starLoop body k fuel' prev1 s1 else None) with
      | Some a => Some a
      | None => k prev0 s0
      end
  end.

Definition isWordAt (c : option char) : bool :=
  match c with
  | Some x => isWord x
  | None => false
  end.

(** [rmatch icase r prev s k] matches [r] at the start of [s], which
    follows the character [prev], in continuation-passing style: a [None]
    from [k] makes the matcher backtrack. *)
Fixpoint rmatch {A : Type} (icase : bool) (r : regex) (prev : option char) (s : jsstring)
    (k : option char -> jsstring -> option A) {struct r} : option A :=
  match r with
  | Eps => k prev s
  | Chr c =>
      match s with
      | x :: s' => if Regex.sameChar icase c x then k (Some x) s' else None
      | [] => None
      end
  | Cls p =>
      match s with
      | x :: s' => if p x then k (Some x) s' else None
      | [] => None
      end
  | Cat r1 r2 =>
      rmatch icase r1 prev s (fun prev1 s1 => rmatch icase r2 prev1 s1 k)
  | Star r1 => starLoop (rmatch icase r1) k (S (length s)) prev s
  | Plus r1 =>
      rmatch icase r1 prev s (fun prev1 s1 =>
        starLoop (rmatch icase r1) k (S (length s1)) prev1 s1)
  | Opt r1 =>
      match rmatch icase r1 prev s (fun prev1 s1 =>
              if length s1 <? length s then k prev1 s1 else None) with
      | Some a => Some a
      | None => k prev s
      end
  | NotAhead r1 =>
      match rmatch icase r1 prev s (fun _ _ => Some tt) with
      | Some _ => None
      | None => k prev s
      end
  | WordBoundary =>
      if xorb (isWordAt prev) (isWordAt (head s)) then k prev s else None
  end.

(** [s.replace(r, repl)] with the [g] flag and a replacement without [$]
    patterns. [skip] counts the characters of the previous match that are
    still to be passed over; after an empty match the search resumes one
    character further. *)
Fixpoint replaceFrom (icase : bool) (r : regex) (repl : jsstring)
    (skip : nat) (prev : option char) (s : jsstring) {struct s} : jsstring :=
  match skip with
  | S n =>
      match s with
      | [] => []
      | x :: s' => replaceFrom icase r repl n (Some x) s'
      end
  | O =>
      match rmatch icase r prev s (fun _ s' => Some (length s - length s')) with
      | Some m =>
          repl ++
          match s with
          | [] => []
          | x :: s' =>
              match m with
              | O => x :: replaceFrom icase r repl 0 (Some x) s'
              | S m' => replaceFrom icase r repl m' (Some x) s'
              end
          end
      | None =>
          match s with
          | [] => []
          | x :: s' => x :: replaceFrom icase r repl 0 (Some x) s'
          end
      end
  end.

Definition replaceAll (icase : bool) (r : regex) (repl : jsstring) (s : jsstring) : jsstring :=
  replaceFrom icase r repl 0 None s.

End Pattern.

(** ** The validation service: [services/validation.ts] *)

Module Validation.
Import Pattern.

Local Open Scope string_scope.

(** *** Values *)

(** The values of a request body, and [undefined] for what it lacks. *)
#[local] Set Warnings "-register-all".
Inductive value : Type :=
| VUndefined
| VNull
| VBool (b : bool)
| VNumber (x : float)
| VString (s : jsstring)
| VArray (items : list value)
| VObject (fields : list (jsstring * value)).
#[local] Set Warnings "register-all".

(** [ToBoolean] *)
Definition truthy (v : value) : bool :=
  match v with
  | VUndefined | VNull => false
  | VBool b => b
  | VNumber x => negb (PrimFloat.eqb x 0 || PrimFloat.is_nan x)
  | VString s => negb (length s =? 0)%nat
  | VArray _ | VObject _ => true
  end.

(** [typeof v === 'string'] *)
Definition isString (v : value) : bool :=
  match v with
  | VString _ => true
  | _ => false
  end.

(** [Partial<BlipSubmission>] of [types.ts], on the fields that the
    service reads; [rest] holds the other properties of the object. *)
Record BlipSubmission : Type := {
  name : value;
  quadrant : value;
  ring : value;
  description : value;
  clientExamples : value;
  cautionReasoning : value;
  rest : list (jsstring * value)
}.

Record ValidationError : Type := {
  field : string;
  message : string
}.

Definition QUADRANTS : list string :=
  ["techniques"; "tools"; "platforms"; "languages-and-frameworks"].
Definition RINGS : list string := ["adopt"; "trial"; "assess"; "caution"].

(** [list.includes(v)] for a list of strings. *)
Definition includes (l : list string) (v : value) : bool :=
  match v with
  | VString s => bool_decide (s ∈ str <$> l)
  | _ => false
  end.

(** [list.join(', ')] *)
Definition join (l : list string) : string := String.concat ", " l.

(** *** Sanitisation *)

Definition isHex (c : char) : bool :=
  inRange 48 57 c || inRange 97 102 c || inRange 65 70 c.

(** [/&lt;/g], [/&gt;/g], [/&amp;/g] *)
Definition reEntity (entity : string) : regex := lits (str entity) Eps.

(** [/&#x?[0-9a-fA-F]+;/g] *)
Definition reNumericEntity : regex :=
  lits (str "&#") (Cat (Opt (Chr 120%N)) (Cat (Plus (Cls isHex)) (Chr 59%N))).

(** [[^<]] and [[^>]] *)
Definition notLt (c : char) : bool := negb (c =? 60)%N.
Definition notGt (c : char) : bool := negb (c =? 62)%N.

(** An element with its content, with the flags [gi]: [<tag\b], then
    [[^<]*], then [(?!<\/tag>)<[^<]*] any number of times, then
    [<\/tag>]. *)
Definition reElement (tag : string) : regex :=
  let closing := lits (str ("</" +:+ tag +:+ ">")) Eps in
  lits (str ("<" +:+ tag))
    (Cat WordBoundary
       (Cat (Star (Cls notLt))
          (Cat (Star (Cat (NotAhead closing) (Cat (Chr 60%N) (Star (Cls notLt)))))
             closing))).

(** [/<[^>]*>/g] *)
Definition reTag : regex := Cat (Chr 60%N) (Cat (Star (Cls notGt)) (Chr 62%N)).

(** The class of [<], [>], the apostrophe and the quotation mark, with
    the [g] flag. *)
Definition isDangerous (c : char) : bool :=
  (c =? 60)%N || (c =? 62)%N || (c =? 39)%N || (c =? 34)%N.
Definition reDangerous : regex := Cls isDangerous.

(** [/\s+/g] *)
Definition reSpaces : regex := Plus (Cls isSpace).

Definition sanitizeText (text : value) : jsstring :=
  match text with
  | VString text =>
      let text :=
        replaceAll false (reEntity "&amp;") (str "&")
          (replaceAll false (reEntity "&gt;") (str ">")
             (replaceAll false (reEntity "&lt;") (str "<") text)) in
      let text := replaceAll false reNumericEntity [] text in
      let text := replaceAll true (reElement "script") [] text in
      let text := replaceAll true (reElement "style") [] text in
      let text := replaceAll false reTag [] text in
      let text := replaceAll false reDangerous [] text in
      let text := trim (replaceAll false reSpaces [space] text) in
      text
  | _ => []
  end.

(** *** Validation *)

(** [!v || typeof v !== 'string' || v.trim().length === 0] *)
Definition isBlank (v : value) : bool :=
  negb (truthy v) || negb (isString v) ||
  match v with
  | VString s => (length (trim s) =? 0)%nat
  | _ => false
  end.

Definition validateRingSpecificRequirements (ring clientExamples cautionReasoning : value)
    : list ValidationError :=
  match ring with
  | VString r =>
      if bool_decide (r = str "adopt") then
        match clientExamples with
        | VArray examples =>
            if (length examples <? 2)%nat then
              [{| field := "clientExamples";
                  message := "Adopt ring requires at least 2 client examples" |}]
            else
              concat (imap (fun index example =>
                        if isBlank example then
                          [{| field := "clientExamples[" +:+ pretty index +:+ "]";
                              message := "Client example " +:+ pretty (index + 1)%nat
                                         +:+ " cannot be empty" |}]
                        else [])
                      examples)
        | _ =>
            [{| field := "clientExamples";
                message := "Adopt ring requires at least 2 client examples" |}]
        end
      else if bool_decide (r = str "trial") then
        match clientExamples with
        | VArray examples =>
            if (length examples <? 1)%nat then
              [{| field := "clientExamples";
                  message := "Trial ring requires at least 1 client example" |}]
            else if isBlank (default VUndefined (examples !! 0%nat)) then
              [{| field := "clientExamples[0]";
                  message := "Client example cannot be empty" |}]
            else []
        | _ =>
            [{| field := "clientExamples";
                message := "Trial ring requires at least 1 client example" |}]
        end
      else if bool_decide (r = str "caution") then
        if isBlank cautionReasoning then
          [{| field := "cautionReasoning";
              message := "Caution ring requires reasoning including examples of issues encountered" |}]
        else []
      else []
  | _ => []
  end.

(** [v.length] for a string [v]. *)
Definition stringLength (v : value) : nat :=
  match v with
  | VString s => length s
  | _ => 0
  end.

Definition validateSubmission (data : BlipSubmission) : list ValidationError :=
  let errors : list ValidationError := [] in
  let errors :=
    if negb (truthy (name data)) || negb (isString (name data)) then
      (errors ++ [{| field := "name"; message := "Name is required" |}])%list
    else if (stringLength (name data) <? 1)%nat || (100 <? stringLength (name data))%nat then
      (errors ++ [{| field := "name";
                    message := "Name must be between 1 and 100 characters" |}])%list
    else errors in
  let errors :=
    if negb (truthy (quadrant data)) then
      (errors ++ [{| field := "quadrant"; message := "Quadrant is required" |}])%list
    else if negb (includes QUADRANTS (quadrant data)) then
      (errors ++ [{| field := "quadrant";
                    message := "Quadrant must be one of: " +:+ join QUADRANTS |}])%list
    else errors in
  let errors :=
    if negb (truthy (ring data)) then
      (errors ++ [{| field := "ring"; message := "Ring is required" |}])%list
    else if negb (includes RINGS (ring data)) then
      (errors ++ [{| field := "ring"; message := "Ring must be one of: " +:+ join RINGS |}])%list
    else errors in
  let errors :=
    if negb (truthy (description data)) || negb (isString (description data)) then
      (errors ++ [{| field := "description"; message := "Description is required" |}])%list
    else if (stringLength (description data) <? 1)%nat
            || (2000 <? stringLength (description data))%nat then
      (errors ++ [{| field := "description";
                    message := "Description must be between 1 and 2000 characters" |}])%list
    else errors in
  let errors :=
    if truthy (ring data) then
      let ringErrors :=
        validateRingSpecificRequirements (ring data) (clientExamples data)
          (cautionReasoning data) in
      (errors ++ ringErrors)%list
    else errors in
  errors.

(** [v ? sanitizeText(v) : undefined] *)
Definition sanitizeIfPresent (v : value) : value :=
  if truthy v then VString (sanitizeText v) else VUndefined.

(** [v?.map(sanitizeText)]; [None] is the [TypeError] raised when [v] is
    neither an array nor [undefined] nor [null]. *)
Definition sanitizeEach (v : value) : option value :=
  match v with
  | VUndefined | VNull => Some VUndefined
  | VArray items => Some (VArray ((fun item => VString (sanitizeText item)) <$> items))
  | _ => None
  end.

Definition validateAndSanitize (data : BlipSubmission)
    : option (BlipSubmission * list ValidationError) :=
  match sanitizeEach (clientExamples data) with
  | Some examples =>
      let sanitized :=
        {| name := sanitizeIfPresent (name data);
           quadrant := quadrant data;
           ring := ring data;
           description := sanitizeIfPresent (description data);
           clientExamples := examples;
           cautionReasoning := sanitizeIfPresent (cautionReasoning data);
           rest := rest data |} in
      let errors := validateSubmission sanitized in
      Some (sanitized, errors)
  | None => None
  end.

Definition isValidQuadrant (v : value) : bool := isString v && includes QUADRANTS v.
Definition isValidRing (v : value) : bool := isString v && includes RINGS v.

End Validation.

(** ** Specification of the store *)

Module StoreSpec.
Import Store.

Section WithRuntime.

Variable JSON_stringify : json -> option string.
Variable JSON_parse : string -> option json.

(** The sequence that a primary file holds for a reader. *)
Definition persisted (content : option string) : list json :=
  match content with
  | None => []
  | Some text =>
      match JSON_parse text with
      | Some (JArray items) => items
      | _ => []
      end
  end.

(** Every non-empty prefix of the submissions is printed to a text that
    parses back to it. *)
Definition roundTrips (submissions : list json) : Prop :=
  forall k, 1 <= k <= length submissions ->
    exists text,
      JSON_stringify (JArray (take k submissions)) = Some text /\
      JSON_parse text = Some (JArray (take k submissions)).

End WithRuntime.

(** A computation that returns or throws within its fuel. *)
Definition total {A : Type} (m : M A) : Prop := forall st, is_Some (m st).

(** A computation that leaves the timers as they are and adds no entry to
    those that the file system refuses to remove. *)
Definition steady {A : Type} (m : M A) : Prop :=
  forall st r st', m st = Some (r, st') ->
    pinned st' ⊆ pinned st /\ lateness st' = lateness st.

End StoreSpec.

(** ** Specification of the catalogue *)

Module CatalogueSpec.
Import Matcher.

(** The editions of the index whose file is there, in the order of the
    index. *)
Definition listed (dir : RadarDir) (index : list IndexEntry) : list RadarVolume :=
  omap (fun entry =>
          match radar_file dir (filename entry) with
          | Some d => Some {| volume := volumeLabel (filename entry); data := d |}
          | None => None
          end)
    index.

(** The editions of a given number, in the order in which they stand. *)
Definition numbered (n : number) (volumes : list RadarVolume) : list RadarVolume :=
  List.filter (fun v => bool_decide (volumeNumber v = n)) volumes.

(** The natural number that decimal digits write, the last digit first. *)
Fixpoint numeral (reversed : jsstring) : N :=
  match reversed with
  | [] => 0
  | digit :: more => (digit - 48) + 10 * numeral more
  end%N.

(** The digits with which a text begins. *)
Fixpoint leadingDigits (s : jsstring) : jsstring :=
  match s with
  | c :: rest => if isDigit c then c :: leadingDigits rest else []
  | [] => []
  end.

(** The ordinal of an edition in the words of the specification: the first
    integer found in its label. *)
Fixpoint ordinal (label : jsstring) : option N :=
  match label with
  | [] => None
  | c :: rest =>
      if isDigit c then Some (numeral (rev (leadingDigits label)))
      else ordinal rest
  end.

(** The natural numbers that binary64 holds: a significand below 2^53
    times a power of two, up to 2^971. *)
Definition binary64 (v : N) : Prop :=
  exists m e, v = (m * 2 ^ e)%N /\ (m < 2 ^ 53)%N /\ (e <= 971)%N.

(** How far two natural numbers are from each other. *)
Definition gap (a b : N) : N := ((a - b) + (b - a))%N.

(** Whether [toNumber] gives at [n] what the model of binary64 of the
    standard library gives when it rounds [n], with a significand of 53
    bits and exponents up to 1024. *)
Definition roundsAsBinary64 (n : N) : bool :=
  match SpecFloat.binary_normalize 53 1024 (Z.of_N n) 0 false with
  | SpecFloat.S754_zero _ => bool_decide (toNumber n = Finite 0)
  | SpecFloat.S754_finite false m e =>
      bool_decide (toNumber n = Finite (Z.to_N (Z.shiftl (Zpos m) e))) &&
      bool_decide (Z.shiftl (Z.shiftl (Zpos m) e) (- e) = Zpos m)
  | SpecFloat.S754_infinity false => bool_decide (toNumber n = Infinity)
  | _ => false
  end.

(** Whether [minus] gives on the numbers nearest to [x] and [y] the sign
    that their difference has in that model. *)
Definition subtractsAsBinary64 (x y : N) : bool :=
  let round n := SpecFloat.binary_normalize 53 1024 (Z.of_N n) 0 false in
  let difference := SpecFloat.SFsub 53 1024 (round x) (round y) in
  bool_decide
    (minus (toNumber x) (toNumber y) =
     match SpecFloat.SFcompare difference (SpecFloat.S754_zero false) with
     | Some Lt => Negative
     | Some Eq => Zero
     | Some Gt => Positive
     | None => NaN
     end).

(** Natural numbers around the powers of two and of ten at which the
    rounding changes, up to the range of binary64 and beyond. *)
Definition roundingSamples : list N :=
  ([0; 1; 7; 33; 34; 4294967296] ++
   flat_map (fun d => [2 ^ 53 + d; 2 ^ 54 + d; 2 ^ 60 + 64 * d; 2 ^ 1023 + 2 ^ 970 * d])
     (map N.of_nat (seq 0 24)) ++
   [2 ^ 53 - 1; 10 ^ 15; 10 ^ 16; 10 ^ 17 + 1; 10 ^ 22; 10 ^ 23; 10 ^ 25 + 3;
    2 ^ 1024 - 2 ^ 971; 2 ^ 1024 - 2 ^ 970 - 1; 2 ^ 1024 - 2 ^ 970;
    2 ^ 1024 - 1; 2 ^ 1024; 10 ^ 308; 2 * 10 ^ 308; 10 ^ 309; 10 ^ 400])%N.

(** A shorter list for the differences, which are taken for every pair. *)
Definition differenceSamples : list N :=
  [0; 1; 33; 34; 2 ^ 53 - 1; 2 ^ 53; 2 ^ 53 + 1; 2 ^ 53 + 2; 2 ^ 53 + 3;
   2 ^ 54 + 5; 10 ^ 22; 10 ^ 23; 2 ^ 1023; 2 ^ 1024 - 2 ^ 971;
   2 ^ 1024 - 2 ^ 970 - 1; 2 ^ 1024 - 2 ^ 970; 2 ^ 1024; 10 ^ 309]%N.

(** A label of the form that the files of the catalogue give: the word
    Volume, a space, the number of the edition, a space and a date in
    parentheses; the number is below 2^53. *)
Definition editionLabel (label : jsstring) : Prop :=
  exists digits date,
    label = str "Volume " ++ digits ++ str " (" ++ date ++ str ")" /\
    digits <> [] /\ forallb isDigit digits = true /\
    date <> [] /\ forallb (fun c => negb (c =? 41)%N) date = true /\
    (numeral (rev digits) < 2 ^ 53)%N.

(** A character of a normalised name: a lower-case letter, a digit, an
    underscore or a space. *)
Definition keyChar (c : char) : bool :=
  isLowerAZ c || isDigit c || (c =? 95)%N || (c =? 32)%N.

End CatalogueSpec.

(** ** Specification of an append *)

Module SaveSpec.
Import Store.

Local Open Scope string_scope.

Section WithRuntime.

Variable JSON_parse : string -> option json.
Variable storagePath : string.

(** The files once the primary file, if there is one, has been copied to
    the backup file. *)
Definition backedUp (m : gmap string string) : gmap string string :=
  match m !! storagePath with
  | Some old => <[storagePath +:+ ".backup" := old]> m
  | None => m
  end.

(** The files once the temporary file has taken the place of the primary
    file. *)
Definition replaced (text : string) (m : gmap string string) : gmap string string :=
  <[storagePath := text]> (delete (storagePath +:+ ".tmp") (backedUp m)).

(** The outcome of the check that reads the primary file back. *)
Definition verified (text : string) (n : nat) : result unit :=
  match JSON_parse text with
  | Some (JArray items) =>
      if (length items =? n)%nat then Ok tt
      else Thrown (Error "Verification failed after write")
  | Some _ => Thrown (Error "Verification failed after write")
  | None => Thrown SyntaxError
  end.

(** The time of the attempt that follows [i] waits of [LOCK_RETRY_DELAY],
    the first of which begins at [start], and the directory as the other
    writers have left it by then. *)
Fixpoint attempt (late : Z -> Z)
    (others : Z -> option (gmap string string) -> option (gmap string string))
    (start : Z) (dir : option (gmap string string)) (i : nat)
    : Z * option (gmap string string) :=
  match i with
  | O => (start, dir)
  | S i' =>
      let '(t, d) := attempt late others start dir i' in
      ((t + LOCK_RETRY_DELAY + late t)%Z, others t d)
  end.

End WithRuntime.

End SaveSpec.

(** ** Specification of the validation *)

Module ValidationSpec.
Import Validation.

(** A text free of the characters that the sanitisation removes, with its
    white space reduced to single inner spaces. *)
Definition cleanText (s : jsstring) : Prop :=
  Forall (fun c => isDangerous c = false) s /\ NormalizeSpec.tight s /\ trim s = s.

(** A string of 1 to [limit] code units. *)
Definition textWithin (limit : nat) (v : value) : Prop :=
  exists s, v = VString s /\ 1 <= length s <= limit.

(** One of the strings of a list. *)
Definition oneOf (choices : list string) (v : value) : Prop :=
  exists c, c ∈ choices /\ v = VString (str c).

(** A string with a character that is not white space. *)
Definition filled (v : value) : Prop :=
  exists s, v = VString s /\ trim s <> [].

Definition ringRequirements (data : BlipSubmission) : Prop :=
  (ring data = VString (str "adopt") ->
   exists examples, clientExamples data = VArray examples /\
                    2 <= length examples /\ Forall filled examples) /\
  (ring data = VString (str "trial") ->
   exists first others, clientExamples data = VArray (first :: others) /\ filled first) /\
  (ring data = VString (str "caution") -> filled (cautionReasoning data)).

Definition acceptable (data : BlipSubmission) : Prop :=
  textWithin 100 (name data) /\
  oneOf QUADRANTS (quadrant data) /\
  oneOf RINGS (ring data) /\
  textWithin 2000 (description data) /\
  ringRequirements data.

End ValidationSpec.

(** ** Sample data *)

Module Examples.
Import Matcher Store.

Local Open Scope string_scope.

Definition blip (n r q d : string) : RadarData :=
  {| name := str n; ring := str r; quadrant := str q; description := str d |}.

(** Two editions that both list React, the older one first in the index,
    and an index entry whose file is missing. *)
Definition volume30 : list RadarData :=
  [ blip "Go language" "Adopt" "languages-and-frameworks" "A compiled language";
    blip "React" "Trial" "languages-and-frameworks" "A library for user interfaces";
    blip "Kubernetis" "Assess" "platforms" "A misspelt orchestrator" ].

Definition volume33 : list RadarData :=
  [ blip "React.js" "Adopt" "languages-and-frameworks" "The default for web front ends";
    blip "Kubernetes" "Adopt" "platforms" "Container orchestration" ].

Definition twoEditions : RadarDir :=
  {| index_json :=
       Some [ {| filename := str "Volume 30 (2024-04).json" |};
              {| filename := str "Volume 33 (2025-11).json" |};
              {| filename := str "Volume 34 (2026-04).json" |} ];
     radar_file := fun f =>
       if bool_decide (f = str "Volume 30 (2024-04).json") then Some volume30
       else if bool_decide (f = str "Volume 33 (2025-11).json") then Some volume33
       else None |}.

(** One edition with an entry whose name is a bare suffix. *)
Definition volume5 : list RadarData :=
  [ blip "Google Wave" "Hold" "tools" "A collaboration tool";
    blip ".NET" "Adopt" "platforms" "A runtime" ].

Definition bareSuffix : RadarDir :=
  {| index_json := Some [ {| filename := str "Volume 5 (2011-07).json" |} ];
     radar_file := fun f =>
       if bool_decide (f = str "Volume 5 (2011-07).json") then Some volume5 else None |}.

(** Two editions whose files have names without the word Volume, and two
    editions whose numbers are 2^53 and 2^53 + 1; in both catalogues the
    edition of the lower number comes first in the index. *)
Definition plainNames : RadarDir :=
  {| index_json :=
       Some [ {| filename := str "radar-7.json" |};
              {| filename := str "radar-12.json" |} ];
     radar_file := fun f =>
       if bool_decide (f = str "radar-7.json") then Some volume30
       else if bool_decide (f = str "radar-12.json") then Some volume33
       else None |}.

Definition hugeNumbers : RadarDir :=
  {| index_json :=
       Some [ {| filename := str "Volume 9007199254740992 (2030-04).json" |};
              {| filename := str "Volume 9007199254740993 (2030-11).json" |} ];
     radar_file := fun f =>
       if bool_decide (f = str "Volume 9007199254740992 (2030-04).json") then Some volume30
       else if bool_decide (f = str "Volume 9007199254740993 (2030-11).json")
            then Some volume33
       else None |}.

(** Two submissions, a store that does not exist yet, and writers that
    leave the directory alone. *)
Definition submission1 : json :=
  JObject [ ("id", JString "test-1"); ("name", JString "React");
            ("quadrant", JString "languages-and-frameworks"); ("ring", JString "adopt");
            ("description", JString "A library for user interfaces");
            ("clientExamples", JArray [JString "Client A"; JString "Client B"]);
            ("submissionType", JString "new");
            ("createdAt", JString "2026-02-13T10:00:00.000Z") ].

Definition submission2 : json :=
  JObject [ ("id", JString "test-2"); ("name", JString "Kubernetes");
            ("quadrant", JString "platforms"); ("ring", JString "adopt");
            ("description", JString "Container orchestration");
            ("submissionType", JString "new");
            ("createdAt", JString "2026-02-13T10:00:01.000Z") ].

Definition noStore : fsState :=
  {| directory := None; clock := 0; pinned := ∅; lateness := fun _ => 0%Z |}.

Definition quiet (now : Z) (dir : option (gmap string string)) : option (gmap string string) :=
  dir.

Definition samplePath : string := "data/submissions.json".

(** A store whose lock file was left behind, with timers that fire 1 ms
    late. *)
Definition staleLock : fsState :=
  {| directory := Some {[ "data/submissions.json.lock" := "77" ]}; clock := 1000;
     pinned := ∅; lateness := fun _ => 1%Z |}.

End Examples.

Module CatalogueExamples.
Import Matcher.

(** A directory without its index. *)
Definition noIndex : RadarDir :=
  {| index_json := None; radar_file := fun _ => None |}.

End CatalogueExamples.

Module StoreExamples.
Import Store Examples.

Local Open Scope string_scope.

(** The texts printed for the sample submissions. *)
Definition oneText : string :=
  default "" (JsonText.stringifyText (JArray [submission1])).
Definition twoText : string :=
  default "" (JsonText.stringifyText (JArray [submission1; submission2])).

(** A store with one submission, the backup of an empty sequence and a
    file of another kind. *)
Definition oneSubmission : fsState :=
  {| directory :=
       Some {[ samplePath := oneText;
               samplePath +:+ ".backup" := "[]";
               "data/notes.txt" := "keep" ]};
     clock := 0; pinned := ∅; lateness := fun _ => 0%Z |}.

(** A store whose primary file is damaged. *)
Definition damaged : fsState :=
  {| directory := Some {[ samplePath := "{invalid json}" ]}; clock := 0;
     pinned := ∅; lateness := fun _ => 0%Z |}.

(** A store locked at the time 1000 by a writer that removes its lock file
    at the time 1150, with timers that fire 3 ms late, and that writer: a
    wait that begins at [now] ends at [now + LOCK_RETRY_DELAY + 3], and the
    lock file is gone by then when that is 1150 or later. *)
Definition locked : fsState :=
  {| directory := Some {[ samplePath := oneText; getLockPath samplePath := "77" ]};
     clock := 1000; pinned := ∅; lateness := fun _ => 3%Z |}.

Definition releasing (now : Z) (dir : option (gmap string string)) : option (gmap string string) :=
  if (now + LOCK_RETRY_DELAY + 3 <? 1150)%Z then dir
  else delete (getLockPath samplePath) <$> dir.

(** A store whose lock file the file system does not let this process
    remove, with timers that fire 20 ms late. *)
Definition stuckLock : fsState :=
  {| directory := Some {[ getLockPath samplePath := "77" ]}; clock := 1000;
     pinned := {[ getLockPath samplePath ]}; lateness := fun _ => 20%Z |}.

End StoreExamples.

Module ValidationExamples.
Import Validation.

(** A request for the adopt ring, with markup in its texts. *)
Definition adoptRequest : BlipSubmission :=
  {| name := VString (str " <b>React</b>  Query ");
     quadrant := VString (str "languages-and-frameworks");
     ring := VString (str "adopt");
     description := VString (str "Server state &amp; caching<script>alert(1)</script>");
     clientExamples := VArray [VString (str "Client 'A'"); VString (str "Client  B")];
     cautionReasoning := VUndefined;
     rest := [(str "submissionType", VString (str "new"))] |}.

Definition adoptSanitized : BlipSubmission :=
  {| name := VString (str "React Query");
     quadrant := VString (str "languages-and-frameworks");
     ring := VString (str "adopt");
     description := VString (str "Server state & caching");
     clientExamples := VArray [VString (str "Client A"); VString (str "Client B")];
     cautionReasoning := VUndefined;
     rest := [(str "submissionType", VString (str "new"))] |}.

(** What stands between the tag name and the closing tag of a script
    element: an attribute, the end of the opening tag and the script. *)
Definition scriptInner : jsstring :=
  str " type=module>alert(" ++ [34%N] ++ str "xss" ++ [34%N] ++ str ")".

(** The submission on which the tests of the service vary the ring, the
    client examples and the caution reasoning. *)
Definition validBase (ring clientExamples cautionReasoning : value) : BlipSubmission :=
  {| name := VString (str "React");
     quadrant := VString (str "languages-and-frameworks");
     ring := ring;
     description := VString (str "A JavaScript library for building user interfaces");
     clientExamples := clientExamples;
     cautionReasoning := cautionReasoning;
     rest := [] |}.

End ValidationExamples.

(** * Properties *)

Import Regex Matcher EditDistance NormalizeSpec LookupSpec Binary64 Store StoreSpec.
Import CatalogueSpec Examples.

(** ** The regular expressions of the matcher *)

Section RegexFacts.

Lemma rmatch_lits_eos {A} suffix s caps (k : jsstring → list jsstring → option A) :
  rmatch true (lits suffix Eos) s caps k =
  if bool_decide (canonicalize <$> s = canonicalize <$> suffix) then k [] caps else None.
Proof.
  revert s. induction suffix as [|c suffix IH]; intros [|x s]; simpl; try done.
  rewrite IH. unfold sameChar.
  destruct (N.eqb_spec (canonicalize c) (canonicalize x)) as [E|E].
  - rewrite E. case_bool_decide as H1; case_bool_decide as H2; try done.
    + exfalso. apply H2. by f_equal.
    + exfalso. apply H1. by injection H2.
  - rewrite bool_decide_eq_false_2; [done|]. intros H. injection H. congruence.
Qed.

Lemma endsWithCI_whole suffix s :
  canonicalize <$> s = canonicalize <$> suffix → endsWithCI suffix s = true ∧ length s - length suffix = 0.
Proof.
  intros H. assert (L : length s = length suffix).
  { apply (f_equal length) in H. by rewrite !length_fmap in H. }
  unfold endsWithCI. rewrite L, Nat.sub_diag. simpl. by rewrite bool_decide_eq_true_2.
Qed.

Lemma endsWithCI_cons suffix x s :
  canonicalize <$> (x :: s) ≠ canonicalize <$> suffix →
  endsWithCI suffix (x :: s) = endsWithCI suffix s ∧
  (endsWithCI suffix s = true →
   take (length (x :: s) - length suffix) (x :: s) = x :: take (length s - length suffix) s).
Proof.
  intros Hne. unfold endsWithCI.
  destruct (decide (length suffix ≤ length s)) as [Hle|Hgt].
  - replace (length (x :: s) - length suffix) with (S (length s - length suffix))
      by (clear Hne; cbn [length]; lia).
    done.
  - replace (length (x :: s) - length suffix) with 0 by (clear Hne; cbn [length]; lia).
    replace (length s - length suffix) with 0 by (clear Hne; lia). simpl drop.
    rewrite (bool_decide_eq_false_2 _ Hne).
    rewrite bool_decide_eq_false_2; [done|].
    intros H. apply (f_equal length) in H. rewrite !length_fmap, length_drop in H. lia.
Qed.

Lemma rsearch_suffix suffix pre s :
  rsearch true (lits suffix Eos) pre s =
  if endsWithCI suffix s
  then Some (Found (rev pre ++ take (length s - length suffix) s)
               (drop (length s - length suffix) s) [] [])
  else None.
Proof.
  revert pre. induction s as [|x s IH]; intros pre; simpl rsearch; rewrite rmatch_lits_eos.
  - unfold endsWithCI. simpl. destruct (bool_decide _); by rewrite ?app_nil_r.
  - case_bool_decide as H.
    + destruct (endsWithCI_whole _ _ H) as [-> ->].
      cbn [length]. rewrite Nat.sub_0_r. change (S (length s)) with (length (x :: s)).
      rewrite firstn_all. simpl. by rewrite app_nil_r.
    + destruct (endsWithCI_cons _ _ _ H) as [-> Htake]. rewrite IH.
      destruct (endsWithCI suffix s) eqn:E; [|done].
      rewrite (Htake eq_refl). simpl rev. rewrite <- app_assoc. simpl.
      do 2 f_equal.
      destruct (decide (length suffix ≤ length s)).
      * replace (S (length s) - length suffix) with (S (length s - length suffix)) by lia. done.
      * exfalso. unfold endsWithCI in E. apply bool_decide_eq_true_1 in E.
        apply (f_equal length) in E. rewrite !length_fmap, length_drop in E. lia.
Qed.

(** [s.replace(/suffix$/i, '')] removes the suffix when [s] ends with it. *)
Lemma replace_suffix suffix s :
  replace true (reSuffix suffix) [] s = stripSuffix suffix s.
Proof.
  unfold replace, exec, reSuffix, stripSuffix. rewrite rsearch_suffix.
  destruct (endsWithCI (str suffix) s); [|done]. simpl. by rewrite app_nil_r.
Qed.

Lemma replaceAll_punctuation s :
  replaceAll false rePunctuation [] s = List.filter kept s.
Proof.
  unfold replaceAll, rePunctuation.
  induction s as [|x s IH]; [done|].
  cbn [replaceFrom rmatch List.filter]. fold (kept x).
  destruct (kept x); cbn [negb]; [by rewrite IH|].
  replace (length (x :: s) - length s) with 1 by (cbn [length]; lia).
  by rewrite IH.
Qed.

End RegexFacts.

Section SpacesFacts.

Lemma rmatch_plus {A} icase r1 s caps (k : jsstring → list jsstring → option A) :
  rmatch icase (Plus r1) s caps k = plusLoop (rmatch icase r1) k (S (length s)) s caps.
Proof. reflexivity. Qed.

(** A greedy run of one class, followed by a continuation that accepts
    whatever is left, takes the longest run. *)
Lemma plusLoop_class {A} p (k : jsstring → list jsstring → option A) caps :
  (∀ s, is_Some (k s caps)) →
  ∀ fuel s, length s < fuel →
  plusLoop (rmatch false (Cls p)) k fuel s caps =
  match s with
  | x :: s' => if p x then k (dropWhile p s') caps else None
  | [] => None
  end.
Proof.
  intros Hk. induction fuel as [|fuel IH]; intros s Hlen; [lia|].
  destruct s as [|x s]; [done|]. cbn [plusLoop rmatch].
  destruct (p x) eqn:Hx; [|done].
  rewrite (proj2 (Nat.ltb_lt (length s) (length (x :: s)))) by (cbn [length]; lia).
  rewrite IH by (cbn [length] in Hlen; lia).
  destruct s as [|y s]; [done|]. cbn [dropWhile].
  destruct (p y); [|done].
  by destruct (Hk (dropWhile p s)) as [a ->].
Qed.

Lemma length_dropWhile p s : length (dropWhile p s) ≤ length s.
Proof. induction s as [|x s IH]; simpl; [lia|]. destruct (p x); simpl; lia. Qed.

Lemma replaceFrom_skip icase r repl n s :
  n ≤ length s → replaceFrom icase r repl n s = replaceFrom icase r repl 0 (drop n s).
Proof.
  revert s. induction n as [|n IH]; intros s H; [done|].
  destruct s as [|x s]; [simpl in H; lia|].
  cbn [replaceFrom drop]. apply IH. simpl in H. lia.
Qed.

Lemma drop_dropWhile p s : drop (length s - length (dropWhile p s)) s = dropWhile p s.
Proof.
  induction s as [|x s IH]; [done|]. cbn [dropWhile]. destruct (p x).
  - pose proof (length_dropWhile p s).
    replace (length (x :: s) - length (dropWhile p s))
      with (S (length s - length (dropWhile p s))) by (cbn [length]; lia).
    done.
  - by rewrite Nat.sub_diag.
Qed.

Lemma replaceAll_spaces_cons x s :
  replaceAll false reSpaces [space] (x :: s) =
  if isSpace x then space :: replaceAll false reSpaces [space] (dropWhile isSpace s)
  else x :: replaceAll false reSpaces [space] s.
Proof.
  unfold replaceAll, reSpaces. cbn [replaceFrom]. rewrite rmatch_plus.
  rewrite plusLoop_class by (eauto || lia).
  destruct (isSpace x); [|done].
  pose proof (length_dropWhile isSpace s).
  replace (length (x :: s) - length (dropWhile isSpace s))
    with (S (length s - length (dropWhile isSpace s))) by (cbn [length]; lia).
  cbn [app]. f_equal. rewrite replaceFrom_skip by lia. by rewrite drop_dropWhile.
Qed.

Lemma replaceAll_spaces_both s :
  replaceAll false reSpaces [space] s = collapse false s ∧
  replaceAll false reSpaces [space] (dropWhile isSpace s) = collapse true s.
Proof.
  induction s as [|x s [IH1 IH2]]; [done|].
  assert (E : replaceAll false reSpaces [space] (x :: s) = collapse false (x :: s)).
  { rewrite replaceAll_spaces_cons. cbn [collapse]. destruct (isSpace x); congruence. }
  split; [exact E|].
  cbn [dropWhile collapse]. destruct (isSpace x) eqn:Hx; [done|].
  rewrite E. cbn [collapse]. by rewrite Hx.
Qed.

Lemma replaceAll_spaces s :
  replaceAll false reSpaces [space] s = collapseSpaces s.
Proof. apply replaceAll_spaces_both. Qed.

End SpacesFacts.

(** ** Trimming and white space *)

Section TrimFacts.

Lemma dropWhile_app_single p l x :
  dropWhile p (l ++ [x]) =
  if forallb p l then (if p x then [] else [x]) else dropWhile p l ++ [x].
Proof.
  induction l as [|y l IH]; simpl; [done|].
  destruct (p y); simpl; [exact IH|done].
Qed.

Lemma forallb_rev p (l : jsstring) : forallb p (rev l) = forallb p l.
Proof.
  induction l as [|x l IH]; [done|]. simpl.
  rewrite forallb_app, IH. simpl. destruct (p x), (forallb p l); done.
Qed.

Lemma trimEnd_cons x s :
  trimEnd (x :: s) = if forallb isSpace (x :: s) then [] else x :: trimEnd s.
Proof.
  unfold trimEnd. simpl rev. rewrite dropWhile_app_single, forallb_rev. simpl.
  destruct (forallb isSpace s) eqn:Hs.
  - assert (E : dropWhile isSpace (rev s) = []).
    { rewrite <- forallb_rev in Hs. clear -Hs. induction (rev s) as [|y l IH]; [done|].
      simpl in *. destruct (isSpace y); [by apply IH|done]. }
    rewrite E. destruct (isSpace x); done.
  - rewrite andb_false_r. by rewrite rev_unit.
Qed.

Lemma trimEnd_nil : trimEnd [] = [].
Proof. done. Qed.

Lemma trimEnd_head s y r : trimEnd s = y :: r → ∃ r', s = y :: r'.
Proof.
  destruct s as [|x s]; [done|]. rewrite trimEnd_cons.
  destruct (forallb isSpace (x :: s)); [done|]. intros [= -> _]. eauto.
Qed.

Lemma trimEnd_idempotent s : trimEnd (trimEnd s) = trimEnd s.
Proof.
  unfold trimEnd. rewrite rev_involutive. f_equal.
  induction (rev s) as [|x l IH]; [done|]. simpl.
  destruct (isSpace x) eqn:E; [done|]. simpl. by rewrite E.
Qed.

Lemma trimStart_fixed s :
  match s with x :: _ => isSpace x = false | [] => True end → trimStart s = s.
Proof. destruct s as [|x s]; [done|]. unfold trimStart. simpl. by intros ->. Qed.

Lemma trimStart_head s :
  match trimStart s with x :: _ => isSpace x = false | [] => True end.
Proof.
  unfold trimStart. induction s as [|x s IH]; [done|]. simpl.
  destruct (isSpace x) eqn:E; [done|]. done.
Qed.

Lemma trim_head s :
  match trim s with x :: _ => isSpace x = false | [] => True end.
Proof.
  unfold trim. pose proof (trimStart_head s) as H.
  destruct (trimEnd (trimStart s)) as [|y r] eqn:E; [done|].
  apply trimEnd_head in E as [r' E]. by rewrite E in H.
Qed.

Lemma trim_idempotent s : trim (trim s) = trim s.
Proof.
  unfold trim at 1. rewrite (trimStart_fixed (trim s)) by apply trim_head.
  unfold trim. apply trimEnd_idempotent.
Qed.

Lemma Forall_dropWhile (P : char → Prop) p s : Forall P s → Forall P (dropWhile p s).
Proof.
  induction 1 as [|x s Hx Hs IH]; [done|]. simpl. destruct (p x); [done|by constructor].
Qed.

Lemma Forall_rev' (P : char → Prop) s : Forall P s → Forall P (rev s).
Proof. rewrite !List.Forall_forall. intros H x Hx. apply H. by apply in_rev. Qed.

Lemma Forall_trim (P : char → Prop) s : Forall P s → Forall P (trim s).
Proof.
  intros H. unfold trim, trimEnd, trimStart.
  by apply Forall_rev', Forall_dropWhile, Forall_rev', Forall_dropWhile.
Qed.

Lemma Forall_stripSuffix (P : char → Prop) suffix s :
  Forall P s → Forall P (stripSuffix suffix s).
Proof.
  intros H. unfold stripSuffix. destruct (endsWithCI _ _); [|done]. by apply Forall_take.
Qed.

Lemma Forall_filter_kept (P : char → Prop) s :
  Forall P s → Forall (λ c, P c ∧ kept c = true) (List.filter kept s).
Proof.
  induction 1 as [|x s Hx Hs IH]; [constructor|]. simpl.
  destruct (kept x) eqn:E; [by constructor|done].
Qed.

Lemma Forall_collapse (P : char → Prop) b s :
  P space → Forall P s → Forall P (collapse b s).
Proof.
  intros Hsp H. revert b. induction H as [|x s Hx Hs IH]; intros b; [constructor|]. simpl.
  destruct (isSpace x); [destruct b|]; try constructor; auto.
Qed.

Lemma tight_collapse b s :
  tight (collapse b s) ∧
  (b = true → match collapse b s with y :: _ => isSpace y = false | [] => True end).
Proof.
  revert b. induction s as [|x s IH]; intros b; [done|]. simpl.
  destruct (isSpace x) eqn:Hx.
  - destruct b.
    + apply IH.
    + split; [|done]. simpl. destruct (IH true) as [Ht Hh]. split; [|done].
      intros _. split; [done|]. by apply Hh.
  - split; [|done]. simpl. split; [|apply IH]. intros H. congruence.
Qed.

Lemma collapse_tight s : tight s → collapse false s = s.
Proof.
  induction s as [|x s IH]; [done|]. intros [Hx Hs]. specialize (IH Hs). simpl.
  destruct (isSpace x) eqn:E.
  - destruct (Hx eq_refl) as [-> Hy]. f_equal.
    destruct s as [|y s]; [done|]. simpl in *. rewrite Hy in *. done.
  - by rewrite IH.
Qed.

Lemma tight_dropWhile p s : tight s → tight (dropWhile p s).
Proof.
  induction s as [|x s IH]; [done|]. intros H. simpl. destruct (p x); [|done].
  apply IH, H.
Qed.

Lemma tight_trimEnd s : tight s → tight (trimEnd s).
Proof.
  induction s as [|x s IH]; [done|]. intros [Hx Hs]. rewrite trimEnd_cons.
  destruct (forallb isSpace (x :: s)); [done|]. simpl. split; [|by apply IH].
  intros E. destruct (Hx E) as [-> Hy]. split; [done|].
  destruct (trimEnd s) as [|y r] eqn:Er; [done|].
  apply trimEnd_head in Er as [r' ->]. done.
Qed.

Lemma tight_trim s : tight s → tight (trim s).
Proof. intros H. by apply tight_trimEnd, tight_dropWhile. Qed.

Lemma canonicalize_dot x : canonicalize x = 46%N → x = 46%N.
Proof.
  unfold canonicalize, isLowerAZ, inRange.
  destruct (97 <=? x)%N eqn:E1; destruct (x <=? 122)%N eqn:E2; simpl; try done.
  apply N.leb_le in E1. lia.
Qed.

Lemma endsWithCI_no_dot rest s :
  Forall (λ c, c ≠ 46%N) s → endsWithCI (46%N :: rest) s = false.
Proof.
  intros H. unfold endsWithCI. apply bool_decide_eq_false_2. intros E.
  match type of E with
  | canonicalize <$> ?d = _ =>
      assert (Hd : Forall (λ c, c ≠ 46%N) d) by (by apply Forall_drop);
      destruct d as [|x l]; [discriminate E|]
  end.
  injection E as E _. apply canonicalize_dot in E. by inversion Hd.
Qed.

Lemma stripSuffix_no_dot suffix rest s :
  str suffix = 46%N :: rest → Forall (λ c, c ≠ 46%N) s → stripSuffix suffix s = s.
Proof.
  intros E H. unfold stripSuffix. by rewrite E, endsWithCI_no_dot.
Qed.

Lemma filter_kept_fixed s : Forall (λ c, kept c = true) s → List.filter kept s = s.
Proof. induction 1 as [|x s Hx Hs IH]; [done|]. simpl. by rewrite Hx, IH. Qed.

End TrimFacts.

(** ** Normalisation *)

Section NormalizeFacts.

Variable toLowerCase : jsstring → jsstring.

(** The normalisation as a chain of list functions. *)
Lemma normalizeBlipName_steps name :
  normalizeBlipName toLowerCase name =
  trim (collapseSpaces (List.filter kept
    (stripSuffix ".org" (stripSuffix ".net" (stripSuffix ".io" (stripSuffix ".js"
      (trim (toLowerCase name)))))))).
Proof.
  unfold normalizeBlipName.
  by rewrite !replace_suffix, replaceAll_punctuation, replaceAll_spaces.
Qed.

End NormalizeFacts.

Section Idempotence.

Variable toLowerCase : jsstring → jsstring.

(** No upper-case letter of the Basic Latin block is left by
    [toLowerCase]. *)
Hypothesis toLowerCase_lower : ∀ s, Forall (λ c, isUpperAZ c = false) (toLowerCase s).

(** A string of lower-case letters, digits, underscores and white space has
    no character with a lower-case mapping. *)
Hypothesis toLowerCase_fixed :
  ∀ s, Forall (λ c, isUpperAZ c = false ∧ kept c = true) s → toLowerCase s = s.

Lemma normalizeBlipName_chars name :
  Forall (λ c, isUpperAZ c = false ∧ kept c = true) (normalizeBlipName toLowerCase name).
Proof.
  rewrite normalizeBlipName_steps.
  apply Forall_trim, Forall_collapse; [done|].
  apply Forall_filter_kept.
  by repeat apply Forall_stripSuffix; apply Forall_trim.
Qed.

Lemma normalizeBlipName_tight name : tight (normalizeBlipName toLowerCase name).
Proof. rewrite normalizeBlipName_steps. apply tight_trim, tight_collapse. Qed.

(** C10. Normalising a name that is already normalised changes nothing,
    for every case mapping that leaves no upper-case Basic Latin letter
    and that leaves strings of lower-case letters, digits, underscores and
    white space alone. *)
Theorem normalizeBlipName_idempotent name :
  normalizeBlipName toLowerCase (normalizeBlipName toLowerCase name)
  = normalizeBlipName toLowerCase name.
Proof.
  pose proof (normalizeBlipName_chars name) as Hc.
  pose proof (normalizeBlipName_tight name) as Ht.
  assert (Htrim : trim (normalizeBlipName toLowerCase name) = normalizeBlipName toLowerCase name).
  { rewrite normalizeBlipName_steps. apply trim_idempotent. }
  set (r := normalizeBlipName toLowerCase name) in *.
  rewrite (normalizeBlipName_steps toLowerCase r).
  rewrite (toLowerCase_fixed r Hc), Htrim.
  assert (Hdot : Forall (λ c, c ≠ 46%N) r).
  { eapply Forall_impl; [exact Hc|]. intros c [_ Hk] ->. done. }
  rewrite (stripSuffix_no_dot ".js" (str "js")), (stripSuffix_no_dot ".io" (str "io")),
    (stripSuffix_no_dot ".net" (str "net")), (stripSuffix_no_dot ".org" (str "org")) by done.
  rewrite filter_kept_fixed by (eapply Forall_impl; [exact Hc|]; by intros c [_ ?]).
  unfold collapseSpaces. by rewrite collapse_tight, Htrim.
Qed.

End Idempotence.

(** ** Edit distance *)

Section LevFacts.

Lemma lev_nil_r s : lev s [] = length s.
Proof. by destruct s. Qed.

Lemma lev_cons a b s t :
  lev (a :: s) (b :: t) =
  if bool_decide (a = b) then lev s t
  else S (Nat.min (lev s t) (Nat.min (lev (a :: s) t) (lev s (b :: t)))).
Proof. reflexivity. Qed.

Lemma lev_sym s t : lev s t = lev t s.
Proof.
  revert t. induction s as [|a s IHs]; intros t.
  - by rewrite lev_nil_r.
  - induction t as [|b t IHt]; [done|].
    rewrite !lev_cons, IHt, <- !IHs.
    destruct (decide (a = b)) as [->|Hne].
    + by rewrite !bool_decide_eq_true_2.
    + rewrite !bool_decide_eq_false_2 by congruence. lia.
Qed.

(** Adding a character to one side changes the distance by at most one. *)
Lemma lev_adjacent s :
  (∀ b t, lev s (b :: t) ≤ S (lev s t)) ∧ (∀ a t, lev s t ≤ S (lev (a :: s) t)).
Proof.
  induction s as [|a0 s [IH1 IH2]].
  - assert (H1 : ∀ b t, lev [] (b :: t) ≤ S (lev [] t)) by (intros; simpl; lia).
    split; [exact H1|].
    intros a t. induction t as [|b t IHt]; [simpl; lia|].
    rewrite lev_cons. case_bool_decide.
    + simpl. lia.
    + specialize (H1 b t). simpl in *. lia.
  - assert (H1 : ∀ b t, lev (a0 :: s) (b :: t) ≤ S (lev (a0 :: s) t)).
    { intros b t. rewrite lev_cons. case_bool_decide; [apply IH2 | lia]. }
    split; [exact H1|].
    intros a t. induction t as [|b t IHt].
    + rewrite !lev_nil_r. simpl. lia.
    + rewrite (lev_cons a b). case_bool_decide.
      * apply H1.
      * specialize (H1 b t). lia.
Qed.

Lemma lev_cons_r_le s b t : lev s (b :: t) ≤ S (lev s t).
Proof. apply lev_adjacent. Qed.

Lemma lev_cons_l_ge s a t : lev s t ≤ S (lev (a :: s) t).
Proof. apply lev_adjacent. Qed.

Lemma lev_cons_l_le s a t : lev (a :: s) t ≤ S (lev s t).
Proof. rewrite (lev_sym (a :: s)), (lev_sym s). apply lev_cons_r_le. Qed.

Lemma lev_cons_r_ge s b t : lev s t ≤ S (lev s (b :: t)).
Proof. rewrite (lev_sym s t), (lev_sym s (b :: t)). apply lev_cons_l_ge. Qed.

Lemma lev_cons_cons_le s t a b : lev (a :: s) (b :: t) ≤ S (lev s t).
Proof. rewrite lev_cons. case_bool_decide; lia. Qed.

Lemma lev_cons_cons_ge s t a b : lev s t ≤ S (lev (a :: s) (b :: t)).
Proof.
  rewrite lev_cons. case_bool_decide; [lia|].
  pose proof (lev_cons_l_ge s a t). pose proof (lev_cons_r_ge s b t). lia.
Qed.

Lemma lev_substitute s c d t : lev s (d :: t) ≤ S (lev s (c :: t)).
Proof.
  induction s as [|a s IH]; [simpl; lia|].
  rewrite !lev_cons.
  pose proof (lev_cons_l_ge s a t). pose proof (lev_cons_r_ge s c t).
  pose proof (lev_cons_r_le s d t). pose proof (lev_cons_l_le s a t).
  repeat case_bool_decide; lia.
Qed.

Lemma edit1_length s t : edit1 s t → length t ≤ S (length s) ∧ length s ≤ S (length t).
Proof. induction 1; simpl; lia. Qed.

(** One edit of the target moves the distance by at most one. *)
Lemma lev_edit1 t t' : edit1 t t' → ∀ s, lev s t' ≤ S (lev s t).
Proof.
  induction 1 as [c t|c t|c d t|c t t' Hstep IH]; intros s.
  - apply lev_cons_r_le.
  - apply lev_cons_r_ge.
  - apply lev_substitute.
  - induction s as [|a s IHs].
    + apply edit1_length in Hstep. simpl. lia.
    + rewrite !lev_cons. pose proof (IH s). pose proof (IH (a :: s)).
      case_bool_decide; lia.
Qed.

Lemma lev_refl s : lev s s = 0.
Proof. induction s as [|a s IH]; [done|]. by rewrite lev_cons, bool_decide_eq_true_2. Qed.

Lemma lev_le_edits n s t : edits n s t → lev s t ≤ n.
Proof.
  unfold edits. revert t. induction n as [|n IH]; intros t H.
  - inversion H; subst. by rewrite lev_refl.
  - apply nsteps_inv_r in H as (y & Hy & Hstep).
    pose proof (lev_edit1 _ _ Hstep s). specialize (IH _ Hy). lia.
Qed.

Lemma edits_inside c n s t : edits n s t → edits n (c :: s) (c :: t).
Proof.
  unfold edits. induction 1 as [|n x y z Hxy _ IH]; [constructor|].
  eapply nsteps_l; [by apply edit_inside|done].
Qed.

Lemma edits_insertions t : edits (length t) [] t.
Proof.
  induction t as [|b t IH]; [constructor|].
  simpl. eapply nsteps_r; [exact IH|constructor].
Qed.

Lemma edits_deletions s : edits (length s) s [].
Proof.
  induction s as [|a s IH]; [constructor|].
  simpl. eapply nsteps_l; [constructor|exact IH].
Qed.

Lemma edits_lev s t : edits (lev s t) s t.
Proof.
  revert t. induction s as [|a s IHs]; intros t.
  - apply edits_insertions.
  - induction t as [|b t IHt].
    + rewrite lev_nil_r. apply edits_deletions.
    + rewrite lev_cons. case_bool_decide as Hab.
      * subst b. apply edits_inside, IHs.
      * destruct (Nat.min_spec (lev (a :: s) t) (lev s (b :: t))) as [[_ ->]|[_ ->]];
          destruct (Nat.min_spec (lev s t) (lev (a :: s) t)) as [[? E1]|[? E1]];
          destruct (Nat.min_spec (lev s t) (lev s (b :: t))) as [[? E2]|[? E2]];
          rewrite ?E1, ?E2.
        all: try (eapply nsteps_l; [apply (edit_substitute a b)|apply edits_inside, IHs]).
        all: try (eapply nsteps_r; [exact IHt|constructor]).
        all: try (eapply nsteps_l; [apply edit_delete|apply IHs]).
Qed.

Lemma edit1_app_r s t u : edit1 s t → edit1 (s ++ u) (t ++ u).
Proof. induction 1; simpl; by constructor. Qed.

Lemma edit1_app_l u s t : edit1 s t → edit1 (u ++ s) (u ++ t).
Proof. intros H. induction u as [|c u IH]; [done|]. simpl. by constructor. Qed.

Lemma edit1_rev s t : edit1 s t → edit1 (rev s) (rev t).
Proof.
  induction 1 as [c s|c s|c d s|c s t _ IH]; simpl.
  - rewrite <- (app_nil_r (rev s)) at 1. apply edit1_app_l. constructor.
  - rewrite <- (app_nil_r (rev s)) at 2. apply edit1_app_l. constructor.
  - apply edit1_app_l. constructor.
  - by apply edit1_app_r.
Qed.

Lemma edits_rev n s t : edits n s t → edits n (rev s) (rev t).
Proof.
  unfold edits. induction 1 as [|n x y z Hxy _ IH]; [constructor|].
  eapply nsteps_l; [by apply edit1_rev|done].
Qed.

Lemma lev_le_max s t : lev s t ≤ Nat.max (length s) (length t).
Proof.
  revert t. induction s as [|a s IH]; intros [|b t]; simpl length; try (simpl; lia).
  pose proof (lev_cons_cons_le s t a b). specialize (IH t). lia.
Qed.

End LevFacts.

Section Matrix.

Variables str1 str2 : jsstring.

Local Abbreviation len1 := (length str1).
Local Abbreviation len2 := (length str2).

Lemma prefixDistance_0_l c : c ≤ len2 → prefixDistance str1 str2 0 c = c.
Proof.
  intros H. unfold prefixDistance. simpl.
  rewrite length_rev, length_take. lia.
Qed.

Lemma prefixDistance_0_r r : r ≤ len1 → prefixDistance str1 str2 r 0 = r.
Proof.
  intros H. unfold prefixDistance. simpl.
  rewrite lev_nil_r, length_rev, length_take. lia.
Qed.

Lemma prefixDistance_S r c a b :
  str1 !! r = Some a → str2 !! c = Some b →
  prefixDistance str1 str2 (S r) (S c) =
  if bool_decide (a = b) then prefixDistance str1 str2 r c
  else S (Nat.min (prefixDistance str1 str2 r c)
            (Nat.min (prefixDistance str1 str2 (S r) c) (prefixDistance str1 str2 r (S c)))).
Proof.
  intros Ha Hb. unfold prefixDistance.
  rewrite (take_S_r _ _ _ Ha), (take_S_r _ _ _ Hb), !rev_unit.
  apply lev_cons.
Qed.

Lemma expected_lookup i j r :
  r ≤ len1 → expected str1 str2 i j !! r = Some (expectedRow str1 str2 i j r).
Proof.
  intros H. unfold expected.
  rewrite list_lookup_fmap, lookup_seq_lt by lia. done.
Qed.

Lemma mget_expected i j r c :
  r ≤ len1 → c < rowWidth str2 i j r → mget (expected str1 str2 i j) r c = prefixDistance str1 str2 r c.
Proof.
  intros Hr Hc. unfold mget. rewrite expected_lookup by done.
  unfold expectedRow. by rewrite list_lookup_fmap, lookup_seq_lt.
Qed.

Lemma expectedRow_other i j j' r : r ≠ i → expectedRow str1 str2 i j r = expectedRow str1 str2 i j' r.
Proof.
  intros H. unfold expectedRow, rowWidth.
  destruct (r <? i); [done|]. by rewrite (proj2 (Nat.eqb_neq r i)).
Qed.

Lemma length_expectedRow i j : length (expectedRow str1 str2 i j i) = S j.
Proof.
  unfold expectedRow, rowWidth.
  rewrite length_fmap, length_seq, Nat.ltb_irrefl, Nat.eqb_refl. done.
Qed.

Lemma expectedRow_S i j :
  expectedRow str1 str2 i (S j) i = expectedRow str1 str2 i j i ++ [prefixDistance str1 str2 i (S j)].
Proof.
  unfold expectedRow, rowWidth. rewrite Nat.ltb_irrefl, Nat.eqb_refl.
  by rewrite (seq_S (S j)), fmap_app.
Qed.

(** Writing the next cell of row [i]. *)
Lemma mset_expected i j :
  i ≤ len1 →
  mset (expected str1 str2 i j) i (S j) (prefixDistance str1 str2 i (S j)) = expected str1 str2 i (S j).
Proof.
  intros Hi. apply list_eq. intros r. unfold mset.
  destruct (decide (r = i)) as [->|Hne].
  - rewrite list_lookup_alter_eq, !expected_lookup by done. simpl. f_equal.
    unfold writeAt. rewrite length_expectedRow, Nat.ltb_irrefl, Nat.sub_diag.
    by rewrite expectedRow_S.
  - rewrite list_lookup_alter_ne by done.
    destruct (decide (r ≤ len1)).
    + rewrite !expected_lookup by done. f_equal. by apply expectedRow_other.
    + unfold expected. rewrite !list_lookup_fmap, !lookup_seq_ge by lia. done.
Qed.

(** Rewriting the first cell of row 0 by its value. *)
Lemma mset_expected_0 : mset (expected str1 str2 0 0) 0 0 0 = expected str1 str2 0 0.
Proof.
  apply list_eq. intros r. unfold mset.
  destruct r as [|r]; [|by rewrite list_lookup_alter_ne].
  rewrite list_lookup_alter_eq. unfold expected. simpl. done.
Qed.

Lemma expected_next_row i : expected str1 str2 i len2 = expected str1 str2 (S i) 0.
Proof.
  unfold expected. apply list_fmap_ext. intros _ r _. unfold expectedRow, rowWidth.
  repeat match goal with
         | |- context [?a <? ?b] => destruct (Nat.ltb_spec a b)
         | |- context [?a =? ?b] => destruct (Nat.eqb_spec a b)
         end; try done; lia.
Qed.

Lemma initRows_expected : initRows len1 = expected str1 str2 0 0.
Proof.
  unfold initRows.
  assert (G : ∀ l acc, fold_left (fun (m : matrix) i => m ++ [[i]]) l acc
                     = acc ++ ((fun i => [i]) <$> l)).
  { induction l as [|x l IH]; intros acc; simpl; [by rewrite app_nil_r|].
    by rewrite IH, <- app_assoc. }
  rewrite G, app_nil_l. unfold expected.
  apply list_eq. intros r. rewrite !list_lookup_fmap.
  destruct (decide (r ≤ len1)).
  - rewrite !lookup_seq_lt by lia. simpl. f_equal.
    assert (W : rowWidth str2 0 0 r = 1) by (unfold rowWidth; by destruct r).
    unfold expectedRow. rewrite W. simpl. by rewrite prefixDistance_0_r.
  - rewrite !lookup_seq_ge by lia. done.
Qed.

Lemma initCols_expected : initCols len2 (expected str1 str2 0 0) = expected str1 str2 0 len2.
Proof.
  unfold initCols. change (seq 0 (S len2)) with (0 :: seq 1 len2).
  cbn [fold_left]. rewrite mset_expected_0.
  assert (G : ∀ n j0, j0 + n ≤ len2 →
            fold_left (fun m j => mset m 0 j j) (seq (S j0) n) (expected str1 str2 0 j0)
            = expected str1 str2 0 (j0 + n)).
  { induction n as [|n IH]; intros j0 H; cbn [seq fold_left]; [by rewrite Nat.add_0_r|].
    replace (mset (expected str1 str2 0 j0) 0 (S j0) (S j0)) with (expected str1 str2 0 (S j0)).
    - rewrite IH by lia. f_equal. lia.
    - rewrite <- mset_expected by lia. by rewrite prefixDistance_0_l by lia. }
  by rewrite G.
Qed.

Lemma cell_expected i j :
  i < len1 → j < len2 →
  cell str1 str2 (expected str1 str2 (S i) j) (S i) (S j) = prefixDistance str1 str2 (S i) (S j).
Proof.
  intros Hi Hj. unfold cell. simpl. rewrite !Nat.sub_0_r.
  destruct (lookup_lt_is_Some_2 str1 i Hi) as [a Ha].
  destruct (lookup_lt_is_Some_2 str2 j Hj) as [b Hb].
  rewrite (prefixDistance_S _ _ _ _ Ha Hb), Ha, Hb.
  assert (W1 : ∀ c, c ≤ len2 → c < rowWidth str2 (S i) j i).
  { intros c Hc. unfold rowWidth. rewrite (proj2 (Nat.ltb_lt i (S i))) by lia.
    lia. }
  assert (W2 : j < rowWidth str2 (S i) j (S i)).
  { unfold rowWidth. rewrite Nat.ltb_irrefl, Nat.eqb_refl. lia. }
  rewrite !mget_expected by (try apply W1; try exact W2; lia).
  destruct (decide (a = b)) as [->|Hne].
  - by rewrite !bool_decide_eq_true_2.
  - rewrite !bool_decide_eq_false_2 by congruence. lia.
Qed.

Lemma fillRow_expected i :
  i < len1 → fillRow str1 str2 (expected str1 str2 (S i) 0) (S i) = expected str1 str2 (S i) len2.
Proof.
  intros Hi. unfold fillRow.
  assert (G : ∀ n j0, j0 + n ≤ len2 →
            fold_left (fun m j => mset m (S i) j (cell str1 str2 m (S i) j))
              (seq (S j0) n) (expected str1 str2 (S i) j0)
            = expected str1 str2 (S i) (j0 + n)).
  { induction n as [|n IH]; intros j0 H; cbn [seq fold_left]; [by rewrite Nat.add_0_r|].
    rewrite cell_expected, mset_expected by lia. rewrite IH by lia. f_equal. lia. }
  by rewrite G.
Qed.

Lemma fill_expected : fill str1 str2 (expected str1 str2 0 len2) = expected str1 str2 len1 len2.
Proof.
  unfold fill.
  assert (G : ∀ n i0, i0 + n ≤ len1 →
            fold_left (fillRow str1 str2) (seq (S i0) n) (expected str1 str2 i0 len2)
            = expected str1 str2 (i0 + n) len2).
  { induction n as [|n IH]; intros i0 H; cbn [seq fold_left]; [by rewrite Nat.add_0_r|].
    rewrite expected_next_row, fillRow_expected by lia. rewrite IH by lia. f_equal. lia. }
  by rewrite G.
Qed.

Lemma levenshteinMatrix_expected : levenshteinMatrix str1 str2 = expected str1 str2 len1 len2.
Proof.
  unfold levenshteinMatrix.
  by rewrite initRows_expected, initCols_expected, fill_expected.
Qed.

Lemma levenshteinDistance_lev : levenshteinDistance str1 str2 = lev (rev str1) (rev str2).
Proof.
  unfold levenshteinDistance. rewrite levenshteinMatrix_expected.
  rewrite mget_expected.
  - unfold prefixDistance. by rewrite !firstn_all.
  - done.
  - unfold rowWidth. rewrite Nat.ltb_irrefl, Nat.eqb_refl. lia.
Qed.

End Matrix.

(** ** Catalogue order and lookup *)

Section LabelFacts.

Lemma rmatch_lits {A} l r s caps (k : jsstring → list jsstring → option A) :
  rmatch false (lits l r) (l ++ s) caps k = rmatch false r s caps k.
Proof.
  induction l as [|c l IH]; [done|]. cbn [lits app rmatch sameChar].
  by rewrite N.eqb_refl.
Qed.

Lemma rmatch_cat {A} icase r1 r2 s caps (k : jsstring → list jsstring → option A) :
  rmatch icase (Cat r1 r2) s caps k =
  rmatch icase r1 s caps (λ s1 caps1, rmatch icase r2 s1 caps1 k).
Proof. done. Qed.

Lemma rmatch_chr {A} c s caps (k : jsstring → list jsstring → option A) :
  rmatch false (Chr c) (c :: s) caps k = k s caps.
Proof. cbn [rmatch sameChar]. by rewrite N.eqb_refl. Qed.

(** A greedy run of a class stops where the class stops, when the
    continuation accepts what follows. *)
Lemma plusLoop_run {A} p (k : jsstring → list jsstring → option A) caps a run rest :
  run ≠ [] → forallb p run = true →
  match rest with x :: _ => p x = false | [] => True end →
  k rest caps = Some a →
  ∀ fuel, length (run ++ rest) < fuel →
  plusLoop (rmatch false (Cls p)) k fuel (run ++ rest) caps = Some a.
Proof.
  intros Hne Hrun Hrest Hk.
  induction run as [|x run IH]; [done|]. intros fuel Hfuel.
  destruct fuel as [|fuel]; [lia|]. cbn [app plusLoop rmatch].
  cbn [forallb] in Hrun. apply andb_true_iff in Hrun as [-> Hrun].
  rewrite (proj2 (Nat.ltb_lt _ _)) by (cbn [length]; lia).
  destruct run as [|y run].
  - cbn [app]. destruct fuel as [|fuel]; [by rewrite Hk|].
    destruct rest as [|z rest]; cbn [plusLoop rmatch]; [by rewrite Hk|].
    by rewrite Hrest, Hk.
  - rewrite IH; [done|done|done|]. cbn [length app] in *. lia.
Qed.

Lemma rmatch_group_run {A} p (k : jsstring → list jsstring → option A) caps a run rest :
  run ≠ [] → forallb p run = true →
  match rest with x :: _ => p x = false | [] => True end →
  k rest (caps ++ [run]) = Some a →
  rmatch false (Grp (Plus (Cls p))) (run ++ rest) caps k = Some a.
Proof.
  intros Hne Hrun Hrest Hk.
  change (rmatch false (Grp (Plus (Cls p))) (run ++ rest) caps k)
    with (plusLoop (rmatch false (Cls p))
            (λ s1 caps1, k s1 (caps1 ++ [firstn (length (run ++ rest) - length s1) (run ++ rest)]))
            (S (length (run ++ rest))) (run ++ rest) caps).
  apply plusLoop_run; [done..| |lia].
  rewrite length_app, Nat.add_sub, firstn_app, firstn_all, Nat.sub_diag. simpl.
  by rewrite app_nil_r.
Qed.

Lemma rsearch_here icase r pre s s' caps :
  rmatch icase r s [] (λ s' caps, Some (s', caps)) = Some (s', caps) →
  rsearch icase r pre s = Some (Found (rev pre) (firstn (length s - length s') s) caps s').
Proof. intros H. destruct s; simpl; by rewrite H. Qed.

Lemma toNumber_exact n : (n < 2 ^ 53)%N → toNumber n = Finite n.
Proof.
  intros Hn. unfold toNumber.
  assert (Hsize : (N.size n ≤ 53)%N).
  { destruct (N.eq_dec n 0%N) as [->|Hne]; [done|].
    rewrite N.size_log2 by done. apply N.le_succ_l, N.log2_lt_pow2; lia. }
  replace (N.size n - 53)%N with 0%N by lia. cbn zeta.
  change (N.ones 0) with 0%N. rewrite N.land_0_r, N.shiftr_0_r.
  change (0 - 1)%N with 0%N. rewrite !N.shiftl_0_r.
  change ((1 <? 0)%N || (0 =? 1)%N && N.odd n) with false. cbn match.
  by rewrite (proj2 (N.leb_le _ _)) by lia.
Qed.

Lemma decimal_snoc s c : decimal (s ++ [c]) = (10 * decimal s + (c - 48))%N.
Proof. unfold decimal. by rewrite fold_left_app. Qed.

Lemma decimal_numeral s : decimal s = numeral (rev s).
Proof.
  induction s as [|c s IH] using rev_ind; [done|].
  rewrite decimal_snoc, rev_app_distr. cbn [rev app numeral].
  rewrite IH. lia.
Qed.

Lemma leadingDigits_run digits rest :
  forallb isDigit digits = true →
  match rest with x :: _ => isDigit x = false | [] => True end →
  leadingDigits (digits ++ rest) = digits.
Proof.
  intros Hd Hrest. induction digits as [|d digits IH].
  - destruct rest as [|x rest]; [done|]. cbn [app leadingDigits]. by rewrite Hrest.
  - cbn [forallb] in Hd. apply andb_true_iff in Hd as [Hd1 Hd2].
    cbn [app leadingDigits]. rewrite Hd1. by rewrite IH.
Qed.

(** The label of a file whose name begins in the form of an edition
    label. *)
Lemma volumeLabel_begins digits date rest :
  digits ≠ [] → forallb isDigit digits = true →
  date ≠ [] → forallb (λ c, negb (c =? 41)%N) date = true →
  let label := str "Volume " ++ digits ++ str " (" ++ date ++ str ")" in
  volumeLabel (label ++ rest) = label.
Proof.
  intros Hd1 Hd2 Hy1 Hy2 label. unfold volumeLabel, exec.
  assert (Hm : rmatch false reVolumeDate (label ++ rest) []
                (λ s' caps, Some (s', caps)) = Some (rest, [digits; date])).
  { unfold reVolumeDate, label; rewrite <- !app_assoc, rmatch_lits, rmatch_cat;
       apply rmatch_group_run; [done|done|done|];
       rewrite rmatch_lits, rmatch_cat;
       apply rmatch_group_run; [done|done|done|];
       change (str ")" ++ rest) with (41%N :: rest); by rewrite rmatch_chr. }
  by rewrite (rsearch_here _ _ _ _ _ _ Hm).
Qed.

(** The number by which an edition is sorted, when its label begins with
    the word Volume, a space and digits. *)
Lemma volumeNumber_begins v digits rest :
  digits ≠ [] → forallb isDigit digits = true →
  match rest with x :: _ => isDigit x = false | [] => True end →
  volume v = str "Volume " ++ digits ++ rest →
  volumeNumber v = parseInt digits.
Proof.
  intros Hd1 Hd2 Hrest Hv. unfold volumeNumber. rewrite Hv. unfold exec.
  assert (Hm : rmatch false reVolume (str "Volume " ++ digits ++ rest) []
                 (λ s' caps, Some (s', caps))
               = Some (rest, [digits])).
  { unfold reVolume. rewrite rmatch_lits. by apply rmatch_group_run. }
  rewrite (rsearch_here _ _ _ _ _ _ Hm). simpl. by destruct digits.
Qed.

(** The first integer found in a label of that form is the number that
    follows the word Volume. *)
Lemma ordinal_begins digits rest :
  digits ≠ [] → forallb isDigit digits = true →
  match rest with x :: _ => isDigit x = false | [] => True end →
  ordinal (str "Volume " ++ digits ++ rest) = Some (numeral (rev digits)).
Proof.
  intros Hd1 Hd2 Hrest.
  change (str "Volume ") with [86; 111; 108; 117; 109; 101; 32]%N.
  cbn [app ordinal]. change (isDigit 86) with false. change (isDigit 111) with false.
  change (isDigit 108) with false. change (isDigit 117) with false.
  change (isDigit 109) with false. change (isDigit 101) with false.
  change (isDigit 32) with false. cbn match.
  destruct digits as [|d digits]; [done|].
  cbn [app ordinal]. pose proof Hd2 as Hd. cbn [forallb] in Hd.
  apply andb_true_iff in Hd as [-> _].
  change (d :: digits ++ rest) with ((d :: digits) ++ rest).
  by rewrite leadingDigits_run.
Qed.

(** For an edition label of the form that the files of the catalogue give,
    with a number below 2^53, the number by which the code sorts is the
    ordinal of the specification. *)
Lemma editionLabel_number v :
  editionLabel (volume v) →
  ∃ n, ordinal (volume v) = Some n ∧ volumeNumber v = Finite n.
Proof.
  intros (digits & date & Hv & Hd1 & Hd2 & _ & _ & Hn).
  exists (numeral (rev digits)). split.
  - rewrite Hv. by apply ordinal_begins.
  - rewrite (volumeNumber_begins v digits (str " (" ++ date ++ str ")")); [|done..].
    unfold parseInt. rewrite decimal_numeral. by apply toNumber_exact.
Qed.

End LabelFacts.

Section RoundingFacts.

Local Open Scope N_scope.

(** No number that binary64 holds lies between two successive multiples of
    2^x of 53 bits. *)
Lemma between_multiples q x w :
  2 ^ 52 <= q → 1 <= x → binary64 w → w <= q * 2 ^ x ∨ (q + 1) * 2 ^ x <= w.
Proof.
  intros Hq Hx (m & e & -> & Hm & He).
  destruct (N.le_gt_cases x e) as [Hxe|Hex].
  - replace e with ((e - x) + x) by lia. rewrite N.pow_add_r, N.mul_assoc.
    set (k := m * 2 ^ (e - x)).
    destruct (N.le_gt_cases k q) as [Hk|Hk].
    + left. by apply N.mul_le_mono_r.
    + right. apply N.mul_le_mono_r. lia.
  - left. replace x with ((x - 1 - e) + 1 + e) by lia.
    rewrite !N.pow_add_r, !N.mul_assoc. apply N.mul_le_mono_r.
    assert (2 ^ (x - 1 - e) ≠ 0) by (apply N.pow_nonzero; lia).
    change (2 ^ 1) with 2. change (2 ^ 53) with (2 * 2 ^ 52) in Hm. nia.
Qed.

Lemma size_le_pow a k : N.size a <= k ↔ a < 2 ^ k.
Proof.
  destruct (N.eq_dec a 0) as [->|Ha].
  - split; intros _; [|simpl; lia]. apply N.neq_0_lt_0, N.pow_nonzero. lia.
  - rewrite N.size_log2 by done. rewrite N.le_succ_l. symmetry.
    apply N.log2_lt_pow2. lia.
Qed.

(** The parts of a number of more than 53 bits that [toNumber] looks at. *)
Lemma toNumber_parts n :
  53 < N.size n →
  ∃ x q r half,
    N.size n = x + 53 ∧ 2 ^ x = 2 * half ∧ half = 2 ^ (x - 1) ∧
    n = q * (2 * half) + r ∧ r < 2 * half ∧ 2 ^ 52 <= q ∧ q < 2 ^ 53 ∧
    toNumber n =
      (let c := if (half <? r) || ((r =? half) && N.odd q) then q + 1 else q in
       if N.size (c * (2 * half)) <=? 1024 then Finite (c * (2 * half)) else Infinity).
Proof.
  intros Hs. set (x := N.size n - 53).
  assert (Hx : 1 <= x) by lia.
  assert (Hpow : 2 ^ x = 2 * 2 ^ (x - 1)).
  { replace x with (1 + (x - 1)) at 1 by lia. by rewrite N.pow_add_r. }
  assert (Hne : 2 ^ x ≠ 0) by (apply N.pow_nonzero; lia).
  assert (Hn0 : n ≠ 0) by (intros ->; simpl in Hs; lia).
  pose proof (N.log2_spec n ltac:(lia)) as [Hlo Hhi].
  rewrite N.size_log2 in Hs |- * by done.
  assert (Hl : N.log2 n = x + 52) by (unfold x; rewrite N.size_log2 by done; lia).
  rewrite Hl in Hlo, Hhi.
  replace (N.succ (x + 52)) with (53 + x) in Hhi by lia.
  replace (x + 52) with (52 + x) in Hlo by lia.
  rewrite N.pow_add_r in Hlo, Hhi.
  exists x, (n / 2 ^ x), (n mod 2 ^ x), (2 ^ (x - 1)).
  split; [unfold x; rewrite N.size_log2 by done; lia|].
  split; [done|]. split; [done|]. rewrite <- Hpow.
  split; [rewrite N.mul_comm; by apply N.div_mod|].
  split; [by apply N.mod_lt|].
  split; [apply N.div_le_lower_bound; [done|lia]|].
  split; [apply N.Div0.div_lt_upper_bound; lia|].
  unfold toNumber. fold x. cbv zeta.
  rewrite N.shiftr_div_pow2, N.land_ones, !N.shiftl_mul_pow2, N.mul_1_l.
  reflexivity.
Qed.

Lemma gap_same a b : gap a b = 0 → a = b.
Proof. unfold gap. lia. Qed.

(** [toNumber] rounds to the nearest number that binary64 holds, and to
    the one with the even significand when two are as near; it gives
    [Infinity] from 2^1024 - 2^970 on, which is half-way between the
    greatest number that binary64 holds and 2^1024. *)
Lemma toNumber_nearest n :
  match toNumber n with
  | Finite v =>
      binary64 v ∧ n < 2 ^ 1024 - 2 ^ 970 ∧
      (∀ w, binary64 w → gap n v <= gap n w) ∧
      (∀ w, binary64 w → w ≠ v → gap n w = gap n v →
            N.even (v / 2 ^ (N.size n - 53)) = true)
  | Infinity => 2 ^ 1024 - 2 ^ 970 <= n
  end.
Proof.
  destruct (N.le_gt_cases (N.size n) 53) as [Hs|Hs].
  - assert (Hn : n < 2 ^ 53) by (by apply size_le_pow).
    rewrite toNumber_exact by done.
    split; [exists n, 0; split; [lia|split; [done|lia]]|].
    split; [lia|]. split.
    + intros w _. unfold gap. lia.
    + intros w _ Hw Hd. replace (gap n n) with 0 in Hd by (unfold gap; lia).
      apply gap_same in Hd. congruence.
  - destruct (toNumber_parts n Hs)
      as (x & q & r & half & Hsize & Hpow & Hhalf & Hn & Hr & Hq1 & Hq2 & ->).
    cbv zeta.
    assert (Hx : 1 <= x) by lia.
    set (c := if (half <? r) || ((r =? half) && N.odd q) then q + 1 else q).
    assert (Hc : (c = q ∧ r <= half ∧ (r = half → N.odd q = false)) ∨
                 (c = q + 1 ∧ half <= r ∧ (r = half → N.odd q = true))).
    { unfold c. destruct (N.ltb_spec half r) as [H1|H1]; simpl; [right; lia|].
      destruct (N.eqb_spec r half) as [H2|H2]; simpl.
      - destruct (N.odd q); [right; split; [done|split; [lia|done]]|left; done].
      - left. split; [done|]. split; [lia|]. done. }
    clearbody c.
    destruct (N.leb_spec (N.size (c * (2 * half))) 1024) as [Hv|Hv].
    + apply size_le_pow in Hv.
      assert (Hx971 : x <= 971).
      { destruct (N.le_gt_cases x 971) as [|Hbig]; [done|exfalso].
        assert (2 ^ 972 <= 2 ^ x) by (apply N.pow_le_mono_r; lia).
        assert (2 ^ 52 * 2 ^ 972 <= c * (2 * half)).
        { rewrite <- Hpow. apply N.mul_le_mono; lia. }
        change (2 ^ 52 * 2 ^ 972) with (2 ^ 1024) in *. lia. }
      split; [|split; [|split]].
      * destruct (N.lt_ge_cases c (2 ^ 53)) as [Hc53|Hc53].
        -- exists c, x. rewrite Hpow. done.
        -- assert (c = 2 ^ 53) as -> by lia.
           exists (2 ^ 52), (x + 1). split; [rewrite N.pow_add_r, Hpow; lia|].
           split; [done|].
           destruct (N.eq_dec x 971) as [->|]; [|lia].
           exfalso. rewrite <- Hpow in Hv. by vm_compute in Hv.
      * destruct (N.lt_ge_cases n (2 ^ 1024 - 2 ^ 970)) as [|Hbig]; [done|exfalso].
        destruct (N.eq_dec x 971) as [->|Hne].
        -- assert (Hh : half = 2 ^ 970) by (subst half; reflexivity).
           rewrite Hh in *. clear Hpow Hhalf.
           assert (q = 2 ^ 53 - 1) by lia.
           destruct Hc as [(-> & Hrh & Hodd)|(-> & Hrh & _)]; [|lia].
           assert (r = 2 ^ 970) by lia. subst q. by specialize (Hodd ltac:(done)).
        -- assert (2 ^ x <= 2 ^ 970) by (apply N.pow_le_mono_r; lia).
           assert (q * 2 ^ x <= (2 ^ 53 - 1) * 2 ^ 970) by (apply N.mul_le_mono; lia).
           rewrite <- Hpow in Hn, Hr. lia.
      * intros w Hw. destruct (between_multiples q x w Hq1 Hx Hw) as [Hlo|Hhi].
        -- rewrite Hpow in Hlo. unfold gap.
           destruct Hc as [(-> & ? & _)|(-> & ? & _)]; lia.
        -- rewrite Hpow in Hhi. unfold gap.
           destruct Hc as [(-> & ? & _)|(-> & ? & _)]; lia.
      * intros w Hw Hne Hd.
        replace (N.size n - 53) with x by lia. rewrite Hpow, N.div_mul by lia.
        assert (Hr' : r = half).
        { destruct (between_multiples q x w Hq1 Hx Hw) as [Hlo|Hhi].
          - rewrite Hpow in Hlo. unfold gap in Hd.
            destruct Hc as [(-> & ? & _)|(-> & ? & _)]; lia.
          - rewrite Hpow in Hhi. unfold gap in Hd.
            destruct Hc as [(-> & ? & _)|(-> & ? & _)]; lia. }
        destruct Hc as [(-> & _ & Hodd)|(-> & _ & Hodd)].
        -- by rewrite <- N.negb_odd, Hodd.
        -- by rewrite N.add_1_r, N.even_succ, Hodd.
    + assert (Hbig : 2 ^ 1024 <= c * (2 * half)).
      { destruct (N.le_gt_cases (2 ^ 1024) (c * (2 * half))) as [|Hlt]; [done|].
        apply size_le_pow in Hlt. lia. }
      assert (Hcq : c <= 2 ^ 53) by (destruct Hc as [(-> & _)|(-> & _)]; lia).
      destruct (N.le_gt_cases 972 x) as [Hx972|Hx972].
      * assert (2 ^ 972 <= 2 ^ x) by (apply N.pow_le_mono_r; lia).
        assert (2 ^ 52 * 2 ^ 972 <= q * (2 * half)).
        { rewrite <- Hpow. apply N.mul_le_mono; lia. }
        change (2 ^ 52 * 2 ^ 972) with (2 ^ 1024) in *. lia.
      * destruct (N.eq_dec x 971) as [->|Hne].
        -- assert (Hh : half = 2 ^ 970) by (subst half; reflexivity).
           rewrite Hh in *. clear Hpow Hhalf.
           destruct Hc as [(-> & _)|(-> & Hrh & _)]; lia.
        -- exfalso. assert (2 ^ x <= 2 ^ 970) by (apply N.pow_le_mono_r; lia).
           assert (c * 2 ^ x <= 2 ^ 53 * 2 ^ 970) by (apply N.mul_le_mono; lia).
           rewrite <- Hpow in Hbig. lia.
Qed.

End RoundingFacts.

Section SortFacts.

Lemma atMost_refl x : atMost x x.
Proof. destruct x; simpl; [lia|done]. Qed.

Lemma atMost_trans x y z : atMost x y → atMost y z → atMost x z.
Proof. destruct x, y, z; simpl; try done. lia. Qed.

Lemma minus_positive x y : minus y x = Positive → atMost x y.
Proof.
  destruct x as [a|], y as [b|]; simpl; try done.
  destruct (N.compare_spec b a); try done. lia.
Qed.

Lemma minus_not_positive x y : minus y x ≠ Positive → atMost y x.
Proof.
  destruct x as [a|], y as [b|]; simpl; try done.
  destruct (N.compare_spec b a); try done; lia.
Qed.

Lemma minus_same x : minus x x ≠ Positive.
Proof. destruct x as [a|]; simpl; [|done]. by rewrite N.compare_refl. Qed.

Lemma insertVolume_perm x l : Permutation (insertVolume x l) (x :: l).
Proof.
  induction l as [|y l IH]; [done|]. cbn [insertVolume].
  destruct (compareVolumes x y); try done.
  rewrite IH. apply perm_swap.
Qed.

Lemma sortVolumes_perm l : Permutation (sortVolumes l) l.
Proof.
  induction l as [|x l IH]; [done|]. simpl.
  rewrite insertVolume_perm. by constructor.
Qed.

Lemma insertVolume_sorted x l :
  StronglySorted newerFirst l → StronglySorted newerFirst (insertVolume x l).
Proof.
  induction l as [|y l IH]; intros Hs; [repeat constructor|].
  apply StronglySorted_cons in Hs as [Hy Hl]. cbn [insertVolume].
  destruct (decide (compareVolumes x y = Positive)) as [E|E].
  - rewrite E. constructor; [by apply IH|].
    rewrite insertVolume_perm. constructor; [|done].
    unfold newerFirst. by apply minus_positive.
  - assert (Hxy : newerFirst x y) by (by apply minus_not_positive).
    assert (Hs : StronglySorted newerFirst (x :: y :: l)).
    { constructor; [by constructor|]. constructor; [done|].
      eapply Forall_impl; [exact Hy|]. unfold newerFirst in *. intros z Hz.
      by eapply atMost_trans. }
    by destruct (compareVolumes x y).
Qed.

Lemma sortVolumes_sorted l : StronglySorted newerFirst (sortVolumes l).
Proof.
  induction l as [|x l IH]; [constructor|]. simpl. by apply insertVolume_sorted.
Qed.

End SortFacts.

Section ScanFacts.

Variable toLowerCase : jsstring → jsstring.
Variable input : jsstring.

Local Abbreviation normalize := (normalizeBlipName toLowerCase).
Local Abbreviation scanC := (scanCandidates toLowerCase input).

Lemma scanBlips_candidates v blips best :
  scanBlips toLowerCase input v blips best = scanC (map (fun blip => (blip, v)) blips) best.
Proof.
  revert best. induction blips as [|blip blips IH]; intros best; [done|]. simpl.
  destruct (visit _ _ _ _ _); [done|apply IH].
Qed.

Lemma scanCandidates_app l1 l2 best :
  scanC (l1 ++ l2) best =
  match scanC l1 best with
  | Returned b => Returned b
  | Going best' => scanC l2 best'
  end.
Proof.
  revert best. induction l1 as [|[blip v] l1 IH]; intros best; [done|]. simpl.
  destruct (visit _ _ _ _ _); [done|apply IH].
Qed.

Lemma scanVolumes_candidates volumes best :
  scanVolumes toLowerCase input volumes best = scanC (candidates volumes) best.
Proof.
  revert best. induction volumes as [|v volumes IH]; intros best; [done|].
  cbn [scanVolumes candidates flat_map]. rewrite scanCandidates_app, scanBlips_candidates.
  destruct (scanC _ best); [done|apply IH].
Qed.

Lemma visit_exact v blip best :
  normalize (name blip) = input →
  visit toLowerCase input v blip best = Returned (priorBlip blip v).
Proof. intros H. unfold visit. by rewrite bool_decide_eq_true_2. Qed.

Lemma visit_not_exact v blip best :
  normalize (name blip) ≠ input →
  visit toLowerCase input v blip best =
  Going
    (let similarity := similarityRatio input (normalize (name blip)) in
     if Qle_bool SIMILARITY_THRESHOLD similarity then
       match best with
       | None => Some (priorBlip blip v, similarity)
       | Some (_, s) =>
           if negb (Qle_bool similarity s) then Some (priorBlip blip v, similarity) else best
       end
     else best).
Proof.
  intros H. unfold visit. rewrite bool_decide_eq_false_2 by congruence. cbn zeta.
  destruct (Qle_bool _ _); [|done]. destruct best as [[? s]|]; [|done].
  by destruct (negb _).
Qed.

(** The scan returns from the first candidate that is an exact match. *)
Lemma scanCandidates_first_exact pre c post best :
  Forall (fun c' => ¬ exact toLowerCase input c') pre →
  exact toLowerCase input c →
  scanC (pre ++ c :: post) best = Returned (priorBlip (fst c) (snd c)).
Proof.
  intros Hpre Hc. revert best. induction Hpre as [|[blip v] pre Hx _ IH]; intros best.
  - destruct c as [blip v]. simpl. by rewrite visit_exact.
  - simpl. rewrite visit_not_exact by exact Hx. apply IH.
Qed.

Lemma first_such {A} (P : A → Prop) `{∀ x, Decision (P x)} (l : list A) :
  Exists P l → ∃ l1 x l2, l = l1 ++ x :: l2 ∧ Forall (fun y => ¬ P y) l1 ∧ P x.
Proof.
  induction l as [|y l IH]; intros HE; [by inversion HE|].
  destruct (decide (P y)) as [Hy|Hy].
  - exists [], y, l. by repeat split.
  - inversion HE as [|? ? HE']; subst; [done|].
    destruct (IH HE') as (l1 & x & l2 & -> & Hl1 & Hx).
    exists (y :: l1), x, l2. repeat split; [|done]. by constructor.
Qed.

Lemma candidates_app vs1 vs2 : candidates (vs1 ++ vs2) = candidates vs1 ++ candidates vs2.
Proof. unfold candidates. by rewrite flat_map_app. Qed.

Lemma candidates_no_exact volumes :
  Forall (fun v => ¬ hasExact toLowerCase input v) volumes →
  Forall (fun c => ¬ exact toLowerCase input c) (candidates volumes).
Proof.
  induction 1 as [|v volumes Hv _ IH]; [constructor|].
  cbn [candidates flat_map]. apply Forall_app. split; [|exact IH].
  apply Forall_forall. intros [blip l] Hin Hex.
  apply list_elem_of_In, in_map_iff in Hin as (blip' & [= <- <-] & Hin).
  apply Hv. apply Exists_exists. exists blip'. split; [by apply list_elem_of_In|done].
Qed.

End ScanFacts.

Section LookupFacts.

Variable toLowerCase : jsstring → jsstring.

Local Abbreviation normalize := (normalizeBlipName toLowerCase).

Lemma findPriorRadarMatch_candidates dir query :
  findPriorRadarMatch toLowerCase dir query =
  match scanCandidates toLowerCase (normalize query) (candidates (loadRadarData dir)) None with
  | Returned b => Some b
  | Going best => fst <$> best
  end.
Proof. unfold findPriorRadarMatch. cbn zeta. by rewrite scanVolumes_candidates. Qed.

(** The first exact match, in the order in which [loadRadarData] gives
    the editions: by decreasing number, as [parseInt] reads it. *)
Lemma exact_match_first dir index query v blip :
  index_json dir = Some index →
  v ∈ readVolumes dir index →
  blip ∈ data v →
  normalize (name blip) = normalize query →
  ∃ vs1 v0 vs2 pre blip0 post,
    loadRadarData dir = vs1 ++ v0 :: vs2 ∧
    data v0 = pre ++ blip0 :: post ∧
    v0 ∈ readVolumes dir index ∧
    normalize (name blip0) = normalize query ∧
    Forall (fun v' => ¬ hasExact toLowerCase (normalize query) v') vs1 ∧
    Forall (fun b => normalize (name b) ≠ normalize query) pre ∧
    findPriorRadarMatch toLowerCase dir query = Some (priorBlip blip0 (volume v0)) ∧
    (∀ v', v' ∈ readVolumes dir index → hasExact toLowerCase (normalize query) v' →
           atMost (volumeNumber v') (volumeNumber v0)).
Proof.
  intros Hidx Hv Hblip Hname.
  assert (Hload : loadRadarData dir = sortVolumes (readVolumes dir index)).
  { unfold loadRadarData. by rewrite Hidx. }
  pose proof (sortVolumes_perm (readVolumes dir index)) as Hperm.
  pose proof (sortVolumes_sorted (readVolumes dir index)) as Hsorted.
  assert (HE : Exists (hasExact toLowerCase (normalize query)) (sortVolumes (readVolumes dir index))).
  { apply Exists_exists. exists v. split; [by rewrite Hperm|].
    apply Exists_exists. by exists blip. }
  destruct (first_such _ _ HE) as (vs1 & v0 & vs2 & Hvols & Hvs1 & Hv0).
  destruct (first_such _ _ Hv0) as (pre & blip0 & post & Hdata & Hpre & Hblip0).
  exists vs1, v0, vs2, pre, blip0, post.
  assert (Hv0in : v0 ∈ readVolumes dir index).
  { rewrite <- Hperm, Hvols. set_solver. }
  repeat split; try done.
  - by rewrite Hload.
  - rewrite findPriorRadarMatch_candidates, Hload, Hvols.
    rewrite candidates_app. cbn [candidates flat_map]. rewrite Hdata, map_app. cbn [map].
    rewrite <- !app_assoc, app_assoc. cbn [app].
    rewrite (scanCandidates_first_exact toLowerCase (normalize query) _ (blip0, volume v0)); [done| |done].
    apply Forall_app. split; [by apply candidates_no_exact|].
    apply Forall_forall. intros [b l] Hin.
    apply list_elem_of_In, in_map_iff in Hin as (b' & [= <- <-] & Hin).
    rewrite Forall_forall in Hpre. apply Hpre. by apply list_elem_of_In.
  - intros v' Hv' Hex. rewrite <- Hperm, Hvols in Hv'.
    apply elem_of_app in Hv' as [Hin|Hin].
    + rewrite Forall_forall in Hvs1. by destruct (Hvs1 v' Hin).
    + apply elem_of_cons in Hin as [->|Hin]; [apply atMost_refl|].
      rewrite Hvols in Hsorted. apply StronglySorted_app_1_r in Hsorted.
      apply StronglySorted_cons in Hsorted as [Hall _].
      rewrite Forall_forall in Hall. by apply Hall.
Qed.

(** C4, as amended. In a catalogue whose edition labels have the form of
    the word Volume, the number of the edition and a date in parentheses,
    with numbers below 2^53: when the normalised query is the normalised
    name of an entry of some loaded edition, the lookup returns an entry
    with that normalised name, from the edition of the highest ordinal (the
    first integer in the label) among the editions that have such an
    entry. It is the first such entry of the first such edition in the
    order of [loadRadarData], and the scan stops there: the editions before
    it have no such entry, nor have the entries before it in its
    edition. *)
Theorem exact_match_most_recent dir index query v blip :
  index_json dir = Some index →
  (∀ v', v' ∈ readVolumes dir index → editionLabel (volume v')) →
  v ∈ readVolumes dir index →
  blip ∈ data v →
  normalize (name blip) = normalize query →
  ∃ vs1 v0 vs2 pre blip0 post n0,
    loadRadarData dir = vs1 ++ v0 :: vs2 ∧
    data v0 = pre ++ blip0 :: post ∧
    v0 ∈ readVolumes dir index ∧
    normalize (name blip0) = normalize query ∧
    Forall (fun v' => ¬ hasExact toLowerCase (normalize query) v') vs1 ∧
    Forall (fun b => normalize (name b) ≠ normalize query) pre ∧
    findPriorRadarMatch toLowerCase dir query = Some (priorBlip blip0 (volume v0)) ∧
    ordinal (volume v0) = Some n0 ∧
    (∀ v', v' ∈ readVolumes dir index → hasExact toLowerCase (normalize query) v' →
           ∃ n', ordinal (volume v') = Some n' ∧ (n' <= n0)%N).
Proof.
  intros Hidx Hlabels Hv Hblip Hname.
  destruct (exact_match_first dir index query v blip Hidx Hv Hblip Hname)
    as (vs1 & v0 & vs2 & pre & blip0 & post & H1 & H2 & H3 & H4 & H5 & H6 & H7 & H8).
  destruct (editionLabel_number v0 (Hlabels v0 H3)) as (n0 & Ho0 & Hn0).
  exists vs1, v0, vs2, pre, blip0, post, n0. repeat split; try done.
  intros v' Hv' Hex.
  destruct (editionLabel_number v' (Hlabels v' Hv')) as (n' & Ho' & Hn').
  exists n'. split; [done|]. specialize (H8 v' Hv' Hex). by rewrite Hn', Hn0 in H8.
Qed.

Lemma Qle_bool_false x y : Qle_bool x y = false → (y < x)%Q.
Proof.
  intros H. apply Qnot_le_lt. intros Hle. apply Qle_bool_iff in Hle. congruence.
Qed.

Lemma bestOf_visit input seen blip v best :
  normalize (name blip) ≠ input →
  bestOf toLowerCase input seen best →
  ∃ best', visit toLowerCase input v blip best = Going best' ∧
           bestOf toLowerCase input (seen ++ [(blip, v)]) best'.
Proof.
  intros Hne Hbest. rewrite visit_not_exact by done. eexists. split; [done|].
  unfold bestOf in *. cbn zeta.
  change (similarityRatio input (normalize (name blip)))
    with (score toLowerCase input (blip, v)).
  set (sim := score toLowerCase input (blip, v)).
  destruct (Qle_bool SIMILARITY_THRESHOLD sim) eqn:Hth.
  - apply Qle_bool_iff in Hth. destruct best as [[b s]|].
    + destruct Hbest as (pre & c & post & -> & -> & -> & Hc & Hpre & Hpost).
      destruct (Qle_bool sim (score toLowerCase input c)) eqn:Hcmp; cbn [negb].
      * apply Qle_bool_iff in Hcmp.
        exists pre, c, (post ++ [(blip, v)]). rewrite <- app_assoc. repeat split; try done.
        apply Forall_app. split; [done|]. by constructor.
      * apply Qle_bool_false in Hcmp.
        exists (pre ++ c :: post), (blip, v), []. repeat split; try done.
        apply Forall_app. split.
        -- eapply Forall_impl; [exact Hpre|]. intros c' Hc'. cbn beta in *.
           eapply Qlt_trans; [exact Hc'|exact Hcmp].
        -- constructor; [exact Hcmp|].
           eapply Forall_impl; [exact Hpost|]. intros c' Hc'. cbn beta in *.
           eapply Qle_lt_trans; [exact Hc'|exact Hcmp].
    + exists seen, (blip, v), []. repeat split; try done.
      eapply Forall_impl; [exact Hbest|]. intros c' Hc'. cbn beta in *.
      eapply Qlt_le_trans; [exact Hc'|exact Hth].
  - apply Qle_bool_false in Hth. destruct best as [[b s]|].
    + destruct Hbest as (pre & c & post & -> & -> & -> & Hc & Hpre & Hpost).
      exists pre, c, (post ++ [(blip, v)]). rewrite <- app_assoc. repeat split; try done.
      apply Forall_app. split; [done|]. constructor; [|done].
      apply Qlt_le_weak. eapply Qlt_le_trans; [exact Hth|exact Hc].
    + apply Forall_app. split; [done|]. by constructor.
Qed.

Lemma bestOf_scan input rest :
  Forall (fun c => ¬ exact toLowerCase input c) rest →
  ∀ seen best, bestOf toLowerCase input seen best →
  ∃ best', scanCandidates toLowerCase input rest best = Going best' ∧
           bestOf toLowerCase input (seen ++ rest) best'.
Proof.
  induction 1 as [|[blip v] rest Hx _ IH]; intros seen best Hbest.
  - exists best. by rewrite app_nil_r.
  - destruct (bestOf_visit input seen blip v best Hx Hbest) as (best1 & Hv & Hb1).
    destruct (IH _ _ Hb1) as (best' & Hs & Hb').
    exists best'. cbn [scanCandidates]. rewrite Hv. split; [done|].
    by rewrite <- app_assoc in Hb'.
Qed.


End LookupFacts.

(** ** The store *)

Section PathFacts.

Local Open Scope string_scope.

Lemma length_string_app s t : String.length (s +:+ t) = String.length s + String.length t.
Proof. induction s as [|c s IH]; simpl; [done|]. by rewrite IH. Qed.

Lemma path_ne_suffix (s t : string) : t ≠ "" → s +:+ t ≠ s.
Proof.
  intros Ht E. apply (f_equal String.length) in E. rewrite length_string_app in E.
  destruct t; [done|]. simpl in E. lia.
Qed.

Lemma path_ne_suffixes (s t u : string) : t ≠ u → s +:+ t ≠ s +:+ u.
Proof. intros Htu E. by apply (inj (String.app s)) in E. Qed.

End PathFacts.

Section StoreFacts.

Local Open Scope string_scope.

Variable JSON_stringify : json → option string.
Variable JSON_parse : string → option json.
Variable storagePath : string.
Variable pid : string.
Variable others : Z → option (gmap string string) → option (gmap string string).

Local Abbreviation lockPath := (getLockPath storagePath).
Local Abbreviation tempPath := (storagePath +:+ ".tmp").
Local Abbreviation backupPath := (storagePath +:+ ".backup").
Local Abbreviation load := (loadSubmissions JSON_parse storagePath).
Local Abbreviation save := (saveSubmission JSON_stringify JSON_parse storagePath pid others).

Lemma lock_ne_storage : lockPath ≠ storagePath.
Proof. by apply path_ne_suffix. Qed.
Lemma temp_ne_storage : tempPath ≠ storagePath.
Proof. by apply path_ne_suffix. Qed.
Lemma backup_ne_storage : backupPath ≠ storagePath.
Proof. by apply path_ne_suffix. Qed.
Lemma temp_ne_lock : tempPath ≠ lockPath.
Proof. by apply path_ne_suffixes. Qed.
Lemma backup_ne_lock : backupPath ≠ lockPath.
Proof. by apply path_ne_suffixes. Qed.
Lemma backup_ne_temp : backupPath ≠ tempPath.
Proof. by apply path_ne_suffixes. Qed.

(** [loadSubmissions] always returns, leaves the file system as it is, and
    gives the sequence held by the primary file. *)
Lemma loadSubmissions_persisted st :
  load st = Some (Ok (persisted JSON_parse (files st !! storagePath)), st).
Proof.
  unfold loadSubmissions, bind, existsSync, tryCatch, readFileSync, parse, getStoragePath, ret.
  simpl. destruct (files st !! storagePath) as [text|] eqn:E; simpl; [|done].
  rewrite E. by destruct (JSON_parse text) as [[]|].
Qed.

(** [releaseLock] always returns; the lock file is gone afterwards, unless
    the file system refuses to remove it. *)
Lemma releaseLock_spec st :
  ∃ st', releaseLock storagePath st = Some (Ok tt, st') ∧
         files st' = (if bool_decide (lockPath ∈ pinned st) then files st
                      else delete lockPath (files st)) ∧
         clock st' = clock st.
Proof.
  unfold releaseLock, tryCatch, unlinkSync, ret.
  destruct (files st !! lockPath) eqn:E.
  - destruct (bool_decide (lockPath ∈ pinned st)); eexists; (split; [done|]); done.
  - exists st. split; [done|]. split; [|done]. rewrite delete_id by done.
    by destruct (bool_decide _).
Qed.

Lemma LOCK_ATTEMPTS_S : LOCK_ATTEMPTS = S (Z.to_nat LOCK_TIMEOUT + 1).
Proof. unfold LOCK_ATTEMPTS. lia. Qed.

Lemma acquireLockFrom_S n lock startTime :
  acquireLockFrom pid others (S n) lock startTime =
  tryCatch (writeFileSync lock pid true)
    (λ _, now <- dateNow ;;
          if (now - startTime >? LOCK_TIMEOUT)%Z then
            tryCatch (unlinkSync lock) (λ _, ret tt) ;;;
            throw (Error "Failed to acquire lock: timeout")
          else
            sleep others LOCK_RETRY_DELAY ;;;
            acquireLockFrom pid others n lock startTime).
Proof. done. Qed.

Lemma total_forceRemove lock e st :
  is_Some ((tryCatch (unlinkSync lock) (λ _, ret tt) ;;; @throw unit e) st).
Proof.
  unfold bind, tryCatch, unlinkSync, throw, ret.
  destruct (files st !! lock); [destruct (bool_decide _)|]; done.
Qed.

(** The loop of [acquireLock] comes to an end within its attempts when
    every wait takes time. *)
Lemma acquireLockFrom_returns n lock startTime st :
  (∀ t, 0 < LOCK_RETRY_DELAY + lateness st t)%Z →
  (LOCK_TIMEOUT - (clock st - startTime) < Z.of_nat n)%Z →
  is_Some (acquireLockFrom pid others (S n) lock startTime st).
Proof.
  intros Hlate. revert st Hlate. induction n as [|n IH]; intros st Hlate H.
  all: rewrite acquireLockFrom_S; unfold tryCatch at 1, writeFileSync.
  all: destruct (directory st) as [m|] eqn:Hd;
         [cbn match; destruct (bool_decide (is_Some (m !! lock))); [|done]|].
  all: unfold bind at 1, dateNow.
  1,2: rewrite (proj2 (Z.gtb_lt _ _)) by lia; apply total_forceRemove.
  all: destruct (Z.gtb_spec (clock st - startTime) LOCK_TIMEOUT); [apply total_forceRemove|].
  all: unfold bind at 1, sleep; apply IH; [done|]; cbn [clock]; specialize (Hlate (clock st)); lia.
Qed.

Lemma acquireLock_returns st :
  (∀ t, 0 < LOCK_RETRY_DELAY + lateness st t)%Z →
  is_Some (acquireLock storagePath pid others st).
Proof.
  intros Hlate. unfold acquireLock, bind, dateNow. rewrite LOCK_ATTEMPTS_S.
  apply acquireLockFrom_returns; [done|]. unfold LOCK_TIMEOUT. lia.
Qed.

Lemma total_bind {A B} (m : M A) (f : A → M B) :
  total m → (∀ a, total (f a)) → total (bind m f).
Proof.
  intros Hm Hf st. unfold bind. destruct (Hm st) as [[[a|e] st'] ->]; [apply Hf|done].
Qed.

Lemma returns_bind {A B} (m : M A) (f : A → M B) st :
  is_Some (m st) → (∀ a, total (f a)) → is_Some (bind m f st).
Proof.
  intros [[[a|e] st'] Hm] Hf; unfold bind; rewrite Hm; [apply Hf|done].
Qed.

Lemma total_ret {A} (a : A) : total (ret a).
Proof. by intros st. Qed.

Lemma total_throw {A} e : total (@throw A e).
Proof. by intros st. Qed.

Lemma total_stringify v : total (stringify JSON_stringify v).
Proof. intros st. unfold stringify. by destruct (JSON_stringify v). Qed.

Lemma total_parse text : total (parse JSON_parse text).
Proof. intros st. unfold parse. by destruct (JSON_parse text). Qed.

Lemma total_writeFileSync path content exclusive : total (writeFileSync path content exclusive).
Proof.
  intros st. unfold writeFileSync. destruct (directory st); [|done].
  destruct exclusive; [|done]. by destruct (bool_decide _).
Qed.

Lemma total_existsSync path : total (existsSync path).
Proof. by intros st. Qed.

Lemma total_readFileSync path : total (readFileSync path).
Proof. intros st. unfold readFileSync. by destruct (_ !! path). Qed.

Lemma total_copyFileSync src dest : total (copyFileSync src dest).
Proof. intros st. unfold copyFileSync. by destruct (_ !! src). Qed.

Lemma total_renameSync oldPath newPath : total (renameSync oldPath newPath).
Proof. intros st. unfold renameSync. by destruct (_ !! oldPath). Qed.

Lemma total_loadSubmissions : total load.
Proof. intros st. by rewrite loadSubmissions_persisted. Qed.

(** What follows the acquisition of the lock in [saveSubmission] always
    comes to an end. *)
Lemma total_critical submission items :
  total
    (let submissions := (items ++ [submission])%list in
     let tempPath := storagePath +:+ ".tmp" in
     text <- stringify JSON_stringify (JArray submissions) ;;
     writeFileSync tempPath text false ;;;
     present <- existsSync storagePath ;;
     (if present then copyFileSync storagePath (storagePath +:+ ".backup") else ret tt) ;;;
     renameSync tempPath storagePath ;;;
     written <- readFileSync storagePath ;;
     verification <- parse JSON_parse written ;;
     match verification with
     | JArray l =>
         if negb (length l =? length submissions)%nat
         then throw (Error "Verification failed after write")
         else ret tt
     | _ => throw (Error "Verification failed after write")
     end).
Proof.
  cbn zeta.
  apply total_bind; [apply total_stringify|intros text].
  apply total_bind; [apply total_writeFileSync|intros _].
  apply total_bind; [apply total_existsSync|intros present].
  apply total_bind; [destruct present; [apply total_copyFileSync|apply total_ret]|intros _].
  apply total_bind; [apply total_renameSync|intros _].
  apply total_bind; [apply total_readFileSync|intros written].
  apply total_bind; [apply total_parse|intros verification].
  destruct verification; try apply total_throw.
  destruct (negb _); [apply total_throw|apply total_ret].
Qed.

(** No step of an append adds an entry to those that the file system
    refuses to remove, or changes the timers. *)
Lemma steady_ret {A} (a : A) : steady (ret a).
Proof. intros st r st' [= <- <-]. done. Qed.

Lemma steady_throw {A} e : steady (@throw A e).
Proof. intros st r st' [= <- <-]. done. Qed.

Lemma steady_bind {A B} (m : M A) (f : A → M B) :
  steady m → (∀ a, steady (f a)) → steady (bind m f).
Proof.
  intros Hm Hf st r st'. unfold bind.
  destruct (m st) as [[[a|e] st1]|] eqn:E; [|intros [= <- <-]; by eapply Hm|done].
  intros H. destruct (Hm _ _ _ E) as [H1 H2], (Hf a _ _ _ H) as [H3 H4].
  split; [by etrans|congruence].
Qed.

Lemma steady_tryCatch {A} (body : M A) (handler : error → M A) :
  steady body → (∀ e, steady (handler e)) → steady (tryCatch body handler).
Proof.
  intros Hm Hf st r st'. unfold tryCatch.
  destruct (body st) as [[[a|e] st1]|] eqn:E; [intros [= <- <-]; by eapply Hm| |done].
  intros H. destruct (Hm _ _ _ E) as [H1 H2], (Hf e _ _ _ H) as [H3 H4].
  split; [by etrans|congruence].
Qed.

Lemma steady_stringify v : steady (stringify JSON_stringify v).
Proof. intros st r st'. unfold stringify. destruct (JSON_stringify v); by intros [= <- <-]. Qed.

Lemma steady_parse text : steady (parse JSON_parse text).
Proof. intros st r st'. unfold parse. destruct (JSON_parse text); by intros [= <- <-]. Qed.

Lemma steady_writeFileSync path content exclusive :
  steady (writeFileSync path content exclusive).
Proof.
  intros st r st'. unfold writeFileSync. destruct (directory st); [|by intros [= <- <-]].
  destruct exclusive; [destruct (bool_decide _)|]; intros [= <- <-]; try done.
  cbn [pinned withFiles unpinned lateness]. split; [by apply subseteq_difference_l|done].
Qed.

Lemma steady_unlinkSync path : steady (unlinkSync path).
Proof.
  intros st r st'. unfold unlinkSync.
  destruct (files st !! path); [destruct (bool_decide _)|]; by intros [= <- <-].
Qed.

Lemma steady_existsSync path : steady (existsSync path).
Proof. by intros st r st' [= <- <-]. Qed.

Lemma steady_dateNow : steady dateNow.
Proof. by intros st r st' [= <- <-]. Qed.

Lemma steady_readFileSync path : steady (readFileSync path).
Proof. intros st r st'. unfold readFileSync. destruct (_ !! path); by intros [= <- <-]. Qed.

Lemma steady_copyFileSync src dest : steady (copyFileSync src dest).
Proof. intros st r st'. unfold copyFileSync. destruct (_ !! src); by intros [= <- <-]. Qed.

Lemma steady_renameSync oldPath newPath : steady (renameSync oldPath newPath).
Proof. intros st r st'. unfold renameSync. destruct (_ !! oldPath); by intros [= <- <-]. Qed.

Lemma steady_sleep ms : steady (sleep others ms).
Proof. by intros st r st' [= <- <-]. Qed.

Lemma steady_loadSubmissions : steady load.
Proof. intros st r st'. rewrite loadSubmissions_persisted. by intros [= <- <-]. Qed.

Lemma steady_acquireLockFrom n lock startTime :
  steady (acquireLockFrom pid others n lock startTime).
Proof.
  induction n as [|n IH]; [done|]. rewrite acquireLockFrom_S.
  apply steady_tryCatch; [apply steady_writeFileSync|intros _].
  apply steady_bind; [apply steady_dateNow|intros now].
  destruct (_ >? _)%Z.
  - apply steady_bind; [|intros _; apply steady_throw].
    apply steady_tryCatch; [apply steady_unlinkSync|intros _; apply steady_ret].
  - apply steady_bind; [apply steady_sleep|intros _; apply IH].
Qed.

Lemma steady_acquireLock : steady (acquireLock storagePath pid others).
Proof.
  unfold acquireLock. apply steady_bind; [apply steady_dateNow|intros startTime].
  apply steady_acquireLockFrom.
Qed.

Lemma steady_critical submission items :
  steady
    (let submissions := (items ++ [submission])%list in
     let tempPath := storagePath +:+ ".tmp" in
     text <- stringify JSON_stringify (JArray submissions) ;;
     writeFileSync tempPath text false ;;;
     present <- existsSync storagePath ;;
     (if present then copyFileSync storagePath (storagePath +:+ ".backup") else ret tt) ;;;
     renameSync tempPath storagePath ;;;
     written <- readFileSync storagePath ;;
     verification <- parse JSON_parse written ;;
     match verification with
     | JArray l =>
         if negb (length l =? length submissions)%nat
         then throw (Error "Verification failed after write")
         else ret tt
     | _ => throw (Error "Verification failed after write")
     end).
Proof.
  cbn zeta.
  apply steady_bind; [apply steady_stringify|intros text].
  apply steady_bind; [apply steady_writeFileSync|intros _].
  apply steady_bind; [apply steady_existsSync|intros present].
  apply steady_bind; [destruct present; [apply steady_copyFileSync|apply steady_ret]|intros _].
  apply steady_bind; [apply steady_renameSync|intros _].
  apply steady_bind; [apply steady_readFileSync|intros written].
  apply steady_bind; [apply steady_parse|intros verification].
  destruct verification; try apply steady_throw.
  destruct (negb _); [apply steady_throw|apply steady_ret].
Qed.

Lemma ensureStorageDirectory_spec st :
  ensureStorageDirectory st = Some (Ok tt, withFiles st (files st)).
Proof.
  unfold ensureStorageDirectory, bind, dirExistsSync, mkdirSync, ret, withFiles, files.
  destruct st as [[m|] t q l]; done.
Qed.

(** Whatever the body does, the lock file is gone when
    [try { body } finally { releaseLock() }] is left, unless the file
    system refuses to remove it. *)
Lemma tryFinally_releaseLock {A} (body : M A) st r st' :
  steady body → lockPath ∉ pinned st →
  tryFinally body (releaseLock storagePath) st = Some (r, st') →
  files st' !! lockPath = None.
Proof.
  intros Hbody Hfree. unfold tryFinally.
  destruct (body st) as [[r1 st1]|] eqn:Hb; [|done].
  destruct (Hbody _ _ _ Hb) as [Hsub _].
  destruct (releaseLock_spec st1) as (st2 & -> & Hf & _).
  intros [= <- <-]. rewrite Hf, bool_decide_eq_false_2 by (intros Hin; by apply Hfree, Hsub).
  apply lookup_delete_eq.
Qed.

Lemma tryFinally_returns {A} (body : M A) st :
  is_Some (body st) → is_Some (tryFinally body (releaseLock storagePath) st).
Proof.
  intros [[r st1] Hb]. unfold tryFinally. rewrite Hb.
  by destruct (releaseLock_spec st1) as (st2 & -> & _).
Qed.

End StoreFacts.

Section SaveFacts.

Local Open Scope string_scope.

Variable JSON_stringify : json → option string.
Variable JSON_parse : string → option json.
Variable storagePath : string.
Variable pid : string.
Variable others : Z → option (gmap string string) → option (gmap string string).

Local Abbreviation lockPath := (getLockPath storagePath).
Local Abbreviation load := (loadSubmissions JSON_parse storagePath).
Local Abbreviation save := (saveSubmission JSON_stringify JSON_parse storagePath pid others).

Lemma bind_ok {A B} (m : M A) (f : A → M B) st a st' :
  m st = Some (Ok a, st') → bind m f st = f a st'.
Proof. intros H. unfold bind. by rewrite H. Qed.

Lemma saveSubmission_unlocks submission st r st' :
  lockPath ∉ pinned st →
  save submission st = Some (r, st') → files st' !! lockPath = None.
Proof.
  intros Hfree. unfold saveSubmission.
  rewrite (bind_ok _ _ _ _ _ (ensureStorageDirectory_spec st)).
  apply tryFinally_releaseLock; [|done].
  apply steady_bind; [apply steady_acquireLock|intros _].
  apply steady_bind; [apply steady_loadSubmissions|intros items].
  apply steady_critical.
Qed.

Lemma saveSubmission_returns submission st :
  (∀ t, 0 < LOCK_RETRY_DELAY + lateness st t)%Z → is_Some (save submission st).
Proof.
  intros Hlate. unfold saveSubmission.
  rewrite (bind_ok _ _ _ _ _ (ensureStorageDirectory_spec st)).
  apply tryFinally_returns.
  apply returns_bind; [by apply acquireLock_returns|intros _].
  apply total_bind; [apply total_loadSubmissions|intros items].
  apply total_critical.
Qed.

(** C9, as amended. Where the file system does not refuse to remove the
    lock file, the lock file does not exist in the state in which a call of
    [saveSubmission] ends, by a return or by an error, which is the state
    in which its caller sees the result or the error, whatever the other
    writers do while it waits for the lock; and every call does come to an
    end when a wait takes time. *)
Theorem saveSubmission_releases_lock submission st :
  lockPath ∉ pinned st →
  (∀ r st', save submission st = Some (r, st') → files st' !! lockPath = None) ∧
  ((∀ t, 0 < LOCK_RETRY_DELAY + lateness st t)%Z →
   ∃ r st', save submission st = Some (r, st')).
Proof.
  intros Hfree. split.
  - intros r st'. by apply saveSubmission_unlocks.
  - intros Hlate. destruct (saveSubmission_returns submission st Hlate) as [[r st'] E].
    by exists r, st'.
Qed.

Lemma acquireLock_free st m :
  directory st = Some m → m !! lockPath = None →
  acquireLock storagePath pid others st
  = Some (Ok tt, withFiles (unpinned lockPath st) (<[lockPath := pid]> m)).
Proof.
  intros Hd Hl. unfold acquireLock, bind, dateNow.
  rewrite LOCK_ATTEMPTS_S, acquireLockFrom_S.
  unfold tryCatch, writeFileSync. rewrite Hd, Hl. done.
Qed.

Lemma not_pinned_unpinned path st : path ∉ pinned (unpinned path st).
Proof. cbn [pinned unpinned]. rewrite not_elem_of_difference. right. by apply elem_of_singleton. Qed.

Lemma files_withFiles st m : files (withFiles st m) = m.
Proof. done. Qed.

Lemma withFiles_withFiles st m m' : withFiles (withFiles st m) m' = withFiles st m'.
Proof. done. Qed.

Lemma writeFileSync_ok path content st m :
  writeFileSync path content false (withFiles st m)
  = Some (Ok tt, withFiles st (<[path := content]> m)).
Proof. done. Qed.

Lemma copyFileSync_ok src dest st content :
  files st !! src = Some content →
  copyFileSync src dest st = Some (Ok tt, withFiles st (<[dest := content]> (files st))).
Proof. intros H. unfold copyFileSync. by rewrite H. Qed.

Lemma renameSync_ok oldPath newPath st content :
  files st !! oldPath = Some content →
  renameSync oldPath newPath st =
  Some (Ok tt, withFiles st (<[newPath := content]> (delete oldPath (files st)))).
Proof. intros H. unfold renameSync. by rewrite H. Qed.

Lemma readFileSync_ok path st content :
  files st !! path = Some content → readFileSync path st = Some (Ok content, st).
Proof. intros H. unfold readFileSync. by rewrite H. Qed.

(** One append on a store whose lock is free. *)
Lemma saveSubmission_appends submission st text :
  let items := persisted JSON_parse (files st !! storagePath) in
  files st !! lockPath = None →
  JSON_stringify (JArray (items ++ [submission])) = Some text →
  JSON_parse text = Some (JArray (items ++ [submission])) →
  ∃ st', save submission st = Some (Ok tt, st') ∧
         files st' !! storagePath = Some text ∧
         files st' !! lockPath = None.
Proof.
  intros items Hlock Hs Hp.
  pose proof (lock_ne_storage storagePath) as N1.
  pose proof (temp_ne_storage storagePath) as N2.
  pose proof (backup_ne_storage storagePath) as N3.
  pose proof (temp_ne_lock storagePath) as N4.
  pose proof (backup_ne_lock storagePath) as N5.
  pose proof (backup_ne_temp storagePath) as N6.
  unfold saveSubmission, getStoragePath.
  rewrite (bind_ok _ _ _ _ _ (ensureStorageDirectory_spec st)).
  set (m := files st) in *.
  unfold tryFinally.
  rewrite (bind_ok _ _ _ _ _ (acquireLock_free (withFiles st m) m eq_refl Hlock)).
  change (unpinned lockPath (withFiles st m)) with (withFiles (unpinned lockPath st) m).
  rewrite withFiles_withFiles.
  assert (Hfree : lockPath ∉ pinned (unpinned lockPath st)) by apply not_pinned_unpinned.
  clearbody m. generalize dependent (unpinned lockPath st). clear st. intros st Hfree.
  rewrite (bind_ok _ _ _ _ _ (loadSubmissions_persisted _ _ _)).
  rewrite files_withFiles, lookup_insert_ne by done. fold items. cbn zeta.
  unfold bind at 1, stringify. rewrite Hs.
  rewrite (bind_ok _ _ _ _ _ (writeFileSync_ok _ _ _ _)).
  unfold bind at 1, existsSync. rewrite files_withFiles, !lookup_insert_ne by done.
  set (m2 := <[storagePath +:+ ".tmp" := text]> (<[lockPath := pid]> m)).
  assert (Hstep : ∃ m3, m3 !! (storagePath +:+ ".tmp") = Some text ∧
    (if bool_decide (is_Some (m !! storagePath))
     then copyFileSync storagePath (storagePath +:+ ".backup")
     else ret ()) (withFiles st m2)
    = Some (Ok tt, withFiles st m3)).
  { destruct (bool_decide _) eqn:Hb.
    - apply bool_decide_eq_true_1 in Hb as [old Hold].
      erewrite copyFileSync_ok; last first.
      { rewrite files_withFiles. subst m2. rewrite !lookup_insert_ne by done. exact Hold. }
      eexists. split; [|done]. rewrite files_withFiles, lookup_insert_ne by done.
      apply lookup_insert_eq.
    - exists m2. split; [apply lookup_insert_eq|done]. }
  destruct Hstep as (m3 & Htmp & Hcopy).
  rewrite (bind_ok _ _ _ _ _ Hcopy).
  rewrite (bind_ok _ _ _ _ _ (renameSync_ok _ _ (withFiles st m3) _ Htmp)).
  rewrite withFiles_withFiles, files_withFiles.
  erewrite bind_ok; last first.
  { apply readFileSync_ok. rewrite files_withFiles. apply lookup_insert_eq. }
  unfold bind, parse. rewrite Hp. rewrite Nat.eqb_refl. cbn [negb ret].
  destruct (releaseLock_spec storagePath
              (withFiles st (<[storagePath := text]> (delete (storagePath +:+ ".tmp") m3))))
    as (st' & -> & Hf & _).
  exists st'. split; [done|]. rewrite Hf, bool_decide_eq_false_2, files_withFiles by done.
  split; [|apply lookup_delete_eq].
  rewrite lookup_delete_ne by done. apply lookup_insert_eq.
Qed.

End SaveFacts.

Section SimilarityFacts.

Lemma levenshteinDistance_edits a b : edits (levenshteinDistance a b) a b.
Proof.
  rewrite levenshteinDistance_lev.
  rewrite <- (rev_involutive a) at 2. rewrite <- (rev_involutive b) at 2.
  apply edits_rev, edits_lev.
Qed.

Lemma levenshteinDistance_least a b n : edits n a b → levenshteinDistance a b ≤ n.
Proof.
  intros H. rewrite levenshteinDistance_lev. by apply lev_le_edits, edits_rev.
Qed.

Lemma levenshteinDistance_le_max a b :
  levenshteinDistance a b ≤ Nat.max (length a) (length b).
Proof.
  rewrite levenshteinDistance_lev. pose proof (lev_le_max (rev a) (rev b)) as H.
  by rewrite !length_rev in H.
Qed.

Lemma ratio_bounds (d m : nat) :
  d ≤ m → 0 < m →
  (0 <= 1 - inject_Z (Z.of_nat d) / inject_Z (Z.of_nat m) <= 1)%Q.
Proof.
  intros Hd Hm. destruct m as [|m]; [lia|].
  change (Z.of_nat (S m)) with (Z.pos (Pos.of_succ_nat m)).
  rewrite <- Qmake_Qdiv.
  assert (H : (Z.of_nat d <= Z.pos (Pos.of_succ_nat m))%Z) by lia.
  unfold Qle, Qminus, Qplus, Qopp. simpl. lia.
Qed.

Lemma similarityRatio_formula a b :
  (similarityRatio a b ==
   1 - inject_Z (Z.of_nat (levenshteinDistance a b))
       / inject_Z (Z.of_nat (Nat.max (length a) (length b))))%Q.
Proof.
  unfold similarityRatio. cbn zeta.
  destruct (Nat.eqb_spec (Nat.max (length a) (length b)) 0) as [E|E]; [|reflexivity].
  rewrite E. simpl. unfold Qdiv, Qinv. simpl. rewrite Qmult_0_r. reflexivity.
Qed.

Lemma similarityRatio_bounds a b : (0 <= similarityRatio a b <= 1)%Q.
Proof.
  unfold similarityRatio. cbn zeta.
  destruct (Nat.eqb_spec (Nat.max (length a) (length b)) 0) as [E|E].
  - split; discriminate.
  - apply ratio_bounds; [apply levenshteinDistance_le_max|lia].
Qed.

End SimilarityFacts.

(** ** Binary64 and exact similarities *)

Section Binary64Facts.

Variable toLowerCase : jsstring → jsstring.

(** A bound on the lengths for which the two tables hold. *)
Variable bound : nat.
Hypothesis thresholdTable_bound : thresholdTable bound = true.
Hypothesis orderTable_bound : orderTable bound = true.

Local Abbreviation normalize := (normalizeBlipName toLowerCase).

Lemma in_pairs d m n : In (d, m) (pairs n) ↔ 1 ≤ m ≤ n ∧ d ≤ m.
Proof.
  unfold pairs. rewrite in_flat_map. split.
  - intros (m' & Hm & Hd). apply in_map_iff in Hd as (d' & [= -> ->] & Hd).
    apply in_seq in Hm, Hd. lia.
  - intros [Hm Hd]. exists m. split; [apply in_seq; lia|].
    apply in_map_iff. exists d. split; [done|]. apply in_seq. lia.
Qed.

Lemma threshold_agrees d m :
  In (d, m) (pairs bound) →
  (SIMILARITY_THRESHOLD64 <=? ratio64 d m)%float = passes (d, m).
Proof.
  intros Hin. pose proof thresholdTable_bound as H. unfold thresholdTable in H.
  rewrite forallb_forall in H. specialize (H _ Hin). by apply Bool.eqb_prop in H.
Qed.

Lemma order_agrees d m d' m' :
  In (d, m) (pairs bound) → passes (d, m) = true →
  In (d', m') (pairs bound) → passes (d', m') = true →
  (ratio64 d m <? ratio64 d' m')%float = negb (Qle_bool (ratioQ d' m') (ratioQ d m)).
Proof.
  intros Hin Hp Hin' Hp'. pose proof orderTable_bound as H. unfold orderTable in H.
  cbn zeta in H. rewrite forallb_forall in H.
  assert (G : In (d, m) (List.filter passes (pairs bound))) by by apply filter_In.
  assert (G' : In (d', m') (List.filter passes (pairs bound))) by by apply filter_In.
  specialize (H _ G). rewrite forallb_forall in H. specialize (H _ G').
  by apply Bool.eqb_prop in H.
Qed.

(** Two strings that are not both empty, of lengths within the bound. *)
Lemma similarity_counts a b :
  a ≠ b → length a ≤ bound → length b ≤ bound →
  ∃ d m, In (d, m) (pairs bound) ∧
         similarityRatio64 a b = ratio64 d m ∧ similarityRatio a b = ratioQ d m.
Proof.
  intros Hne Ha Hb.
  exists (levenshteinDistance a b), (Nat.max (length a) (length b)).
  assert (Hm : Nat.max (length a) (length b) ≠ 0).
  { destruct a, b; simpl; try done. }
  split; [|split].
  - apply in_pairs. pose proof (levenshteinDistance_le_max a b). lia.
  - unfold similarityRatio64. cbn zeta. by rewrite (proj2 (Nat.eqb_neq _ _) Hm).
  - unfold similarityRatio. cbn zeta. by rewrite (proj2 (Nat.eqb_neq _ _) Hm).
Qed.

Lemma visit64_agrees input v blip best64 best :
  length input ≤ bound →
  length (normalize (name blip)) ≤ bound →
  sameBest bound best64 best →
  match visit64 toLowerCase input v blip best64, visit toLowerCase input v blip best with
  | Returned64 b64, Returned b => b64 = b
  | Going64 best64', Going best' => sameBest bound best64' best'
  | _, _ => False
  end.
Proof.
  intros Hi Hn Hbest. unfold visit64, visit. cbn zeta.
  case_bool_decide as Hex; [done|].
  destruct (similarity_counts _ _ Hex Hi Hn) as (d & m & Hin & -> & ->).
  rewrite (threshold_agrees d m Hin).
  change (Qle_bool SIMILARITY_THRESHOLD (ratioQ d m)) with (passes (d, m)).
  destruct (passes (d, m)) eqn:Hp; [|exact Hbest].
  destruct best64 as [[b64 f]|], best as [[b q]|]; try done.
  - destruct Hbest as (-> & d' & m' & Hin' & Hp' & -> & ->).
    rewrite (order_agrees d' m' d m) by done.
    destruct (negb _); simpl; [|by eauto 10]. split; [done|]. by exists d, m.
  - simpl. split; [done|]. by exists d, m.
Qed.

Lemma scanCandidates64_agrees input cands :
  length input ≤ bound →
  Forall (λ c, length (normalize (name (fst c))) ≤ bound) cands →
  ∀ best64 best, sameBest bound best64 best →
  match scanCandidates64 toLowerCase input cands best64,
        scanCandidates toLowerCase input cands best with
  | Returned64 b64, Returned b => b64 = b
  | Going64 best64', Going best' => sameBest bound best64' best'
  | _, _ => False
  end.
Proof.
  intros Hi. induction 1 as [|[blip v] cands Hc _ IH]; intros best64 best Hbest; [done|].
  cbn [scanCandidates64 scanCandidates].
  pose proof (visit64_agrees input v blip best64 best Hi Hc Hbest) as Hv.
  destruct (visit64 _ _ _ _ _), (visit _ _ _ _ _); try done. by apply IH.
Qed.

Lemma findPriorRadarMatch64_agrees_upto dir query :
  length (normalize query) ≤ bound →
  Forall (λ c, length (normalize (name (fst c))) ≤ bound)
    (candidates (loadRadarData dir)) →
  findPriorRadarMatch64 toLowerCase dir query = findPriorRadarMatch toLowerCase dir query.
Proof.
  intros Hq Hc. rewrite findPriorRadarMatch_candidates. unfold findPriorRadarMatch64. cbn zeta.
  pose proof (scanCandidates64_agrees _ _ Hq Hc None None I) as H.
  destruct (scanCandidates64 _ _ _ _), (scanCandidates _ _ _ _); try done; [by subst|].
  destruct bestMatch as [[b64 f]|], bestMatch0 as [[b q]|]; try done.
  simpl in *. by destruct H as [-> _].
Qed.

End Binary64Facts.

Lemma thresholdTable_holds : thresholdTable LENGTH_BOUND = true.
Proof. vm_compute. reflexivity. Qed.

Lemma orderTable_holds : orderTable LENGTH_BOUND = true.
Proof. vm_compute. reflexivity. Qed.

(** X19. On a catalogue and a query whose normalised names have at
    most [LENGTH_BOUND] code units, the lookup with the similarities in
    binary64 and the lookup with exact similarities return the same. *)
Theorem findPriorRadarMatch64_agrees (toLowerCase : jsstring → jsstring)
    (dir : RadarDir) (query : jsstring) :
  length (normalizeBlipName toLowerCase query) ≤ LENGTH_BOUND →
  Forall (λ c, length (normalizeBlipName toLowerCase (name (fst c))) ≤ LENGTH_BOUND)
    (candidates (loadRadarData dir)) →
  findPriorRadarMatch64 toLowerCase dir query = findPriorRadarMatch toLowerCase dir query.
Proof.
  apply (findPriorRadarMatch64_agrees_upto toLowerCase LENGTH_BOUND).
  - exact thresholdTable_holds.
  - exact orderTable_holds.
Qed.

(** C3. The similarity of two strings is one minus the quotient of their
    Levenshtein distance by the greater of their lengths, where the
    distance computed by the matrix is the least number of insertions,
    deletions and substitutions of one character that turn the first string
    into the second; two empty strings have similarity 1; and the similarity
    lies between 0 and 1. *)
Theorem similarity_is_levenshtein_ratio (a b : jsstring) :
  edits (levenshteinDistance a b) a b ∧
  (∀ n, edits n a b → levenshteinDistance a b ≤ n) ∧
  (similarityRatio a b ==
   1 - inject_Z (Z.of_nat (levenshteinDistance a b))
       / inject_Z (Z.of_nat (Nat.max (length a) (length b))))%Q ∧
  similarityRatio [] [] = 1%Q ∧
  (0 <= similarityRatio a b <= 1)%Q.
Proof.
  split; [apply levenshteinDistance_edits|].
  split; [apply levenshteinDistance_least|].
  split; [apply similarityRatio_formula|].
  split; [reflexivity|apply similarityRatio_bounds].
Qed.

Section AsciiLower.

Lemma asciiLower_lower s : Forall (λ c, isUpperAZ c = false) (asciiLower s).
Proof.
  unfold asciiLower. apply Forall_forall. intros c Hc.
  apply list_elem_of_In, in_map_iff in Hc as (x & <- & _).
  destruct (isUpperAZ x) eqn:E; [|done].
  unfold isUpperAZ, inRange in *. apply andb_true_iff in E as [E1 E2].
  apply N.leb_le in E1, E2. apply andb_false_iff. right. apply N.leb_gt. lia.
Qed.

Lemma asciiLower_fixed s :
  Forall (λ c, isUpperAZ c = false ∧ kept c = true) s → asciiLower s = s.
Proof.
  unfold asciiLower. induction 1 as [|c s [Hc _] _ IH]; [done|].
  simpl. by rewrite Hc, IH.
Qed.

End AsciiLower.


Lemma normalizeBlipName_idempotent_witness :
  normalizeBlipName asciiLower (normalizeBlipName asciiLower (str "  Vue.JS  3.x "))
  = normalizeBlipName asciiLower (str "  Vue.JS  3.x ").
Proof.
  apply (normalizeBlipName_idempotent asciiLower asciiLower_lower asciiLower_fixed).
Defined.

Example normalize_samples :
  normalizeBlipName asciiLower (str "  React.JS ") = str "react" ∧
  normalizeBlipName asciiLower (str "Re-act!") = str "react" ∧
  normalizeBlipName asciiLower (str "Node.js") = str "node" ∧
  normalizeBlipName asciiLower (str "socket.io") = str "socket" ∧
  normalizeBlipName asciiLower (str "data_mesh   2.0") = str "data_mesh 20" ∧
  normalizeBlipName asciiLower (str "x.js.io") = str "xjs".
Proof. vm_compute. by repeat split. Qed.

(** C6, as stated, fails: on a name that ends in two stacked suffixes the
    chain of replacements removes both, where stripping one suffix would
    leave the first. *)
Lemma normalize_stacked_suffixes :
  normalizeBlipName asciiLower (str "x.org.js") = str "x" ∧
  Normalize asciiLower (str "x.org.js") = str "xorg" ∧
  normalizeBlipName asciiLower (str "x.org.js") ≠ Normalize asciiLower (str "x.org.js").
Proof. vm_compute. repeat split. discriminate. Qed.

(** C6, amended. The normalisation lower-cases and trims the name, removes
    a trailing ".js", then a trailing ".io", then a trailing ".net", then a
    trailing ".org", each compared without regard to case, removes every
    character that is neither a word character (letter, digit or
    underscore of the Basic Latin block) nor white space, turns every run
    of white space into one space, and trims again. *)
Theorem normalizeBlipName_chain (toLowerCase : jsstring → jsstring) (name : jsstring) :
  normalizeBlipName toLowerCase name =
  trim (collapseSpaces (List.filter kept
    (stripSuffix ".org" (stripSuffix ".net" (stripSuffix ".io" (stripSuffix ".js"
      (trim (toLowerCase name)))))))).
Proof.
  unfold normalizeBlipName.
  rewrite (replace_suffix ".js"), (replace_suffix ".io").
  rewrite (replace_suffix ".net"), (replace_suffix ".org").
  rewrite replaceAll_punctuation.
  by rewrite replaceAll_spaces.
Qed.

Section BlankQuery.

Variable toLowerCase : jsstring → jsstring.

Hypothesis toLowerCase_fixed :
  ∀ s, Forall (λ c, isUpperAZ c = false ∧ kept c = true) s → toLowerCase s = s.

Lemma isSpace_not_upper c : isSpace c = true → isUpperAZ c = false.
Proof.
  intros H. destruct (isUpperAZ c) eqn:E; [|done].
  unfold isUpperAZ, inRange in E. apply andb_true_iff in E as [E1 E2].
  apply N.leb_le in E1, E2.
  assert (Hf : isSpace c = false); [|congruence].
  unfold isSpace, inRange.
  repeat apply orb_false_intro;
    first [ apply N.eqb_neq; lia
          | apply andb_false_iff; right; apply N.leb_gt; lia
          | apply andb_false_iff; left; apply N.leb_gt; lia ].
Qed.

Lemma trim_blank s : Forall (λ c, isSpace c = true) s → trim s = [].
Proof.
  intros H. unfold trim, trimStart.
  assert (E : dropWhile isSpace s = []).
  { induction H as [|c s Hc _ IH]; [done|]. simpl. by rewrite Hc. }
  by rewrite E.
Qed.

Lemma normalizeBlipName_blank query :
  Forall (λ c, isSpace c = true) query → normalizeBlipName toLowerCase query = [].
Proof.
  intros H. rewrite normalizeBlipName_steps.
  rewrite toLowerCase_fixed.
  - by rewrite (trim_blank query H).
  - eapply Forall_impl; [exact H|]. intros c Hc. split; [by apply isSpace_not_upper|].
    unfold kept. rewrite Hc. apply orb_true_r.
Qed.

Lemma levenshteinDistance_nil_l s : levenshteinDistance [] s = length s.
Proof. rewrite levenshteinDistance_lev. simpl. apply length_rev. Qed.

Lemma similarityRatio_nil_l s : s ≠ [] → (similarityRatio [] s == 0)%Q.
Proof.
  intros Hs. rewrite similarityRatio_formula, levenshteinDistance_nil_l. simpl Nat.max.
  destruct s as [|c s]; [done|]. cbn [length].
  change (Z.of_nat (S (length s))) with (Z.pos (Pos.of_succ_nat (length s))).
  rewrite <- Qmake_Qdiv. unfold Qeq, Qminus, Qplus, Qopp. simpl. lia.
Qed.

End BlankQuery.

(** C7. The code fails the claim: [findPriorRadarMatch] has no early
    return, so the empty query and a query of white space are compared with
    every entry, and they are an exact match of an entry whose name
    normalises to the empty string; that entry is returned, where the
    specification, and the test of the repository on the empty string, ask
    for no match. *)
Lemma blank_query_matches_bare_suffix :
  trim (str "   ") = [] ∧
  findPriorRadarMatch asciiLower bareSuffix (str "   ")
  = Some (priorBlip (blip ".NET" "Adopt" "platforms" "A runtime") (str "Volume 5 (2011-07)")) ∧
  findPriorRadarMatch asciiLower bareSuffix []
  = Some (priorBlip (blip ".NET" "Adopt" "platforms" "A runtime") (str "Volume 5 (2011-07)")).
Proof. by vm_compute. Qed.

(** The extent of that failure: a query that is empty or made of white
    space only has no match in a catalogue none of whose entries has a name
    that normalises to the empty string; the scan visits every entry, and
    each one has similarity 0 to the empty key. *)
Theorem blank_query_no_match (toLowerCase : jsstring → jsstring)
    (toLowerCase_fixed :
       ∀ s, Forall (λ c, isUpperAZ c = false ∧ kept c = true) s → toLowerCase s = s)
    (dir : RadarDir) (query : jsstring) :
  Forall (λ c, isSpace c = true) query →
  Forall (λ c, normalizeBlipName toLowerCase (name (fst c)) ≠ [])
    (candidates (loadRadarData dir)) →
  findPriorRadarMatch toLowerCase dir query = None ∧
  Forall (λ c, (score toLowerCase (normalizeBlipName toLowerCase query) c == 0)%Q)
    (candidates (loadRadarData dir)).
Proof.
  intros Hq Hc.
  pose proof (normalizeBlipName_blank toLowerCase toLowerCase_fixed query Hq) as Hn.
  assert (Hs : Forall (λ c, (score toLowerCase (normalizeBlipName toLowerCase query) c == 0)%Q)
                 (candidates (loadRadarData dir))).
  { rewrite Hn. eapply Forall_impl; [exact Hc|]. intros c Hne. by apply similarityRatio_nil_l. }
  split; [|exact Hs].
  rewrite findPriorRadarMatch_candidates, Hn.
  destruct (bestOf_scan toLowerCase [] (candidates (loadRadarData dir)) Hc [] None)
    as (best & Hscan & Hbest); [constructor|].
  rewrite Hscan. destruct best as [[b s]|]; [exfalso|done].
  destruct Hbest as (pre & c & post & Hcands & _ & _ & Hth & _).
  rewrite Hn in Hs. simpl in Hcands. rewrite Hcands in Hs.
  apply Forall_app in Hs as [_ Hs]. apply Forall_cons in Hs as [Hs _].
  rewrite Hs in Hth. by vm_compute in Hth.
Qed.

Lemma blank_query_no_match_witness :
  findPriorRadarMatch asciiLower twoEditions (str "  ") = None ∧
  Forall (λ c, (score asciiLower (normalizeBlipName asciiLower (str "  ")) c == 0)%Q)
    (candidates (loadRadarData twoEditions)).
Proof.
  apply (blank_query_no_match asciiLower asciiLower_fixed twoEditions (str "  ")).
  - by repeat constructor.
  - apply (bool_decide_unpack _). by vm_compute.
Defined.


Lemma exact_match_most_recent_witness :
  ∃ vs1 v0 vs2 pre entry0 post n0,
    loadRadarData twoEditions = vs1 ++ v0 :: vs2 ∧
    data v0 = pre ++ entry0 :: post ∧
    v0 ∈ readVolumes twoEditions (default [] (index_json twoEditions)) ∧
    normalizeBlipName asciiLower (name entry0) = normalizeBlipName asciiLower (str "REACT") ∧
    Forall (λ v', ¬ hasExact asciiLower (normalizeBlipName asciiLower (str "REACT")) v') vs1 ∧
    Forall (λ b, normalizeBlipName asciiLower (name b) ≠ normalizeBlipName asciiLower (str "REACT")) pre ∧
    findPriorRadarMatch asciiLower twoEditions (str "REACT") = Some (priorBlip entry0 (volume v0)) ∧
    ordinal (volume v0) = Some n0 ∧
    (∀ v', v' ∈ readVolumes twoEditions (default [] (index_json twoEditions)) →
           hasExact asciiLower (normalizeBlipName asciiLower (str "REACT")) v' →
           ∃ n', ordinal (volume v') = Some n' ∧ (n' <= n0)%N).
Proof.
  apply (exact_match_most_recent asciiLower twoEditions _ (str "REACT")
           {| volume := str "Volume 30 (2024-04)"; data := volume30 |}
           (blip "React" "Trial" "languages-and-frameworks" "A library for user interfaces")).
  - reflexivity.
  - intros v' Hv'.
    assert (Hread : readVolumes twoEditions (default [] (index_json twoEditions))
                    = [ {| volume := str "Volume 30 (2024-04)"; data := volume30 |};
                        {| volume := str "Volume 33 (2025-11)"; data := volume33 |} ])
      by (vm_compute; reflexivity).
    rewrite Hread in Hv'.
    apply elem_of_cons in Hv' as [->|Hv']; [|apply elem_of_cons in Hv' as [->|Hv']].
    + exists (str "30"), (str "2024-04").
      split; [reflexivity|]. split; [discriminate|]. split; [reflexivity|].
      split; [discriminate|]. split; [reflexivity|]. vm_compute. reflexivity.
    + exists (str "33"), (str "2025-11").
      split; [reflexivity|]. split; [discriminate|]. split; [reflexivity|].
      split; [discriminate|]. split; [reflexivity|]. vm_compute. reflexivity.
    + by apply elem_of_nil in Hv'.
  - vm_compute. apply list_elem_of_here.
  - vm_compute. apply list_elem_of_further, list_elem_of_here.
  - vm_compute. reflexivity.
Defined.

(** C4, as the specification states it, fails in two kinds of catalogue.
    Where the labels do not have the word Volume before the number, every
    edition is sorted as number 0 and the order of the index stays: the
    entry returned comes from the edition of ordinal 7, though the edition
    of ordinal 12 has an entry of the same normalised name. Where two
    numbers are read by [parseInt] as the same binary64 number, the order
    of the index stays as well: the entry returned comes from the edition
    2^53, though the edition 2^53 + 1 has such an entry. *)
Lemma exact_match_lower_ordinal :
  (findPriorRadarMatch asciiLower plainNames (str "React")
   = Some (priorBlip (blip "React" "Trial" "languages-and-frameworks"
                        "A library for user interfaces")
             (str "radar-7.json")) ∧
   ordinal (str "radar-7.json") = Some 7%N ∧
   {| volume := str "radar-12.json"; data := volume33 |} ∈ loadRadarData plainNames ∧
   hasExact asciiLower (normalizeBlipName asciiLower (str "React"))
     {| volume := str "radar-12.json"; data := volume33 |} ∧
   ordinal (str "radar-12.json") = Some 12%N) ∧
  (findPriorRadarMatch asciiLower hugeNumbers (str "React")
   = Some (priorBlip (blip "React" "Trial" "languages-and-frameworks"
                        "A library for user interfaces")
             (str "Volume 9007199254740992 (2030-04)")) ∧
   ordinal (str "Volume 9007199254740992 (2030-04)") = Some 9007199254740992%N ∧
   {| volume := str "Volume 9007199254740993 (2030-11)"; data := volume33 |}
     ∈ loadRadarData hugeNumbers ∧
   hasExact asciiLower (normalizeBlipName asciiLower (str "React"))
     {| volume := str "Volume 9007199254740993 (2030-11)"; data := volume33 |} ∧
   ordinal (str "Volume 9007199254740993 (2030-11)") = Some 9007199254740993%N).
Proof.
  split.
  - split; [by vm_compute|]. split; [by vm_compute|].
    split; [vm_compute; apply list_elem_of_further, list_elem_of_here|].
    split; [|by vm_compute].
    apply Exists_exists.
    exists (blip "React.js" "Adopt" "languages-and-frameworks" "The default for web front ends").
    split; [apply list_elem_of_here|by vm_compute].
  - split; [by vm_compute|]. split; [by vm_compute|].
    split; [vm_compute; apply list_elem_of_further, list_elem_of_here|].
    split; [|by vm_compute].
    apply Exists_exists.
    exists (blip "React.js" "Adopt" "languages-and-frameworks" "The default for web front ends").
    split; [apply list_elem_of_here|by vm_compute].
Qed.

(** On the samples, the rounding of [toNumber] and the sign of the
    difference are those of binary64 in the model of the standard
    library. *)
Example toNumber_samples :
  forallb roundsAsBinary64 roundingSamples = true ∧
  forallb (λ x, forallb (subtractsAsBinary64 x) differenceSamples) differenceSamples = true ∧
  toNumber 9007199254740993 = Finite 9007199254740992 ∧
  toNumber 9007199254740995 = Finite 9007199254740996 ∧
  toNumber (10 ^ 309) = Infinity.
Proof. repeat split; by vm_compute. Qed.

Example most_recent_sample :
  findPriorRadarMatch asciiLower twoEditions (str "REACT")
  = Some (priorBlip (blip "React.js" "Adopt" "languages-and-frameworks"
                       "The default for web front ends")
            (str "Volume 33 (2025-11)")).
Proof. by vm_compute. Qed.



(** Two entries at the same similarity 9/10: the one of the more recent
    edition is kept; and a short name does not match a longer one. *)
Example tie_sample :
  score asciiLower (str "kubernetas") (blip "Kubernetes" "" "" "", []) = (9 # 10)%Q ∧
  score asciiLower (str "kubernetas") (blip "Kubernetis" "" "" "", []) = (9 # 10)%Q ∧
  findPriorRadarMatch asciiLower twoEditions (str "Kubernetas")
  = Some (priorBlip (blip "Kubernetes" "Adopt" "platforms" "Container orchestration")
            (str "Volume 33 (2025-11)")) ∧
  findPriorRadarMatch asciiLower bareSuffix (str "Go") = None.
Proof. by vm_compute. Qed.

Section Appends.

Local Open Scope string_scope.

Variable JSON_stringify : json → option string.
Variable JSON_parse : string → option json.
Variable storagePath : string.
Variable pid : string.
Variable others : Z → option (gmap string string) → option (gmap string string).

Local Abbreviation lockPath := (getLockPath storagePath).
Local Abbreviation load := (loadSubmissions JSON_parse storagePath).
Local Abbreviation save := (saveSubmission JSON_stringify JSON_parse storagePath pid others).
Local Abbreviation saveEach := (saveAll JSON_stringify JSON_parse storagePath pid others).

Lemma saveAll_snoc l x st st1 :
  saveEach l st = Some (Ok tt, st1) →
  saveEach (l ++ [x]) st = (save x ;;; ret tt) st1.
Proof.
  revert st. induction l as [|y l IH]; intros st H.
  - by injection H as ->.
  - cbn [saveAll app] in *. unfold bind at 1 in H. unfold bind at 1.
    destruct (save y st) as [[[[]|e] st2]|]; [|done..]. by apply IH.
Qed.

(** C1. Submissions appended one call after the other to a store that has
    no primary file and no lock file are read back as they were given and
    in the order of the calls, provided that the text printed for the
    sequence parses back to it: after the first [k] calls, every one of
    which returns, [loadSubmissions] gives the first [k] submissions, so
    that each call adds its submission at the end and leaves the ones
    before it as they were. *)
Theorem appended_submissions_load_back submissions st0 :
  roundTrips JSON_stringify JSON_parse submissions →
  files st0 !! storagePath = None →
  files st0 !! lockPath = None →
  ∀ k, (k ≤ length submissions)%nat →
    ∃ st, saveEach (take k submissions) st0 = Some (Ok tt, st) ∧
          load st = Some (Ok (take k submissions), st) ∧
          files st !! lockPath = None.
Proof.
  intros Hrt Hfile Hlock. induction k as [|k IH]; intros Hk.
  - exists st0. split; [done|]. split; [|done].
    rewrite loadSubmissions_persisted, Hfile. done.
  - destruct IH as (st & Hsave & Hload & Hl); [lia|].
    destruct (lookup_lt_is_Some_2 submissions k) as [x Hx]; [lia|].
    rewrite (take_S_r _ _ _ Hx).
    destruct (Hrt (S k)) as (text & Hs & Hp); [lia|].
    rewrite (take_S_r _ _ _ Hx) in Hs, Hp.
    rewrite loadSubmissions_persisted in Hload. injection Hload as Hitems.
    destruct (saveSubmission_appends JSON_stringify JSON_parse storagePath pid others x st text)
      as (st' & Hsv & Hf & Hl'); [done|by rewrite Hitems..|].
    exists st'. split; [|split; [|done]].
    + rewrite (saveAll_snoc _ _ _ _ Hsave). unfold bind. by rewrite Hsv.
    + rewrite loadSubmissions_persisted, Hf. simpl. by rewrite Hp.
Qed.

End Appends.


Lemma appended_submissions_load_back_witness :
  ∃ st, saveAll JsonText.stringifyText JsonText.parseText samplePath "4242" quiet
          (take 2 [submission1; submission2]) noStore
        = Some (Ok tt, st) ∧
        loadSubmissions JsonText.parseText samplePath st
        = Some (Ok (take 2 [submission1; submission2]), st) ∧
        files st !! getLockPath samplePath = None.
Proof.
  apply (appended_submissions_load_back JsonText.stringifyText JsonText.parseText
           samplePath "4242" quiet [submission1; submission2] noStore).
  - intros k Hk. eexists. split; [reflexivity|].
    destruct k as [|[|[|k]]]; [simpl in Hk; lia| | |simpl in Hk; lia]; by vm_compute.
  - reflexivity.
  - reflexivity.
  - simpl. lia.
Defined.

(** C8. [loadSubmissions] never throws and leaves the file system as it
    is. It returns the empty sequence when the primary file is absent,
    when its text does not parse, and when it parses to something that is
    not an array; otherwise it returns the items of the array. *)
Theorem loadSubmissions_tolerates_corruption
    (JSON_parse : string → option json) (storagePath : string) (st : fsState) :
  ∃ items,
    loadSubmissions JSON_parse storagePath st = Some (Ok items, st) ∧
    match files st !! storagePath with
    | None => items = []
    | Some text =>
        match JSON_parse text with
        | None => items = []
        | Some (JArray l) => items = l
        | Some _ => items = []
        end
    end.
Proof.
  eexists. split; [apply loadSubmissions_persisted|].
  destruct (files st !! storagePath) as [text|]; [|done]. simpl.
  by destruct (JSON_parse text) as [[]|].
Qed.

Example corrupted_samples :
  let damaged text := {| directory := Some {[ samplePath := text ]}; clock := 0;
                         pinned := ∅; lateness := λ _, 0%Z |} in
  loadSubmissions JsonText.parseText samplePath (damaged "{invalid json}")
  = Some (Ok [], damaged "{invalid json}") ∧
  loadSubmissions JsonText.parseText samplePath (damaged "[{")
  = Some (Ok [], damaged "[{") ∧
  loadSubmissions JsonText.parseText samplePath (damaged "{ }")
  = Some (Ok [], damaged "{ }") ∧
  loadSubmissions JsonText.parseText samplePath (damaged "[1, [], null]")
  = Some (Ok [JNumber 1; JArray []; JNull], damaged "[1, [], null]") ∧
  loadSubmissions JsonText.parseText samplePath noStore = Some (Ok [], noStore).
Proof. by vm_compute. Qed.


(** The three errors of an append, each with the lock file removed: the
    lock is not acquired in time (with the timers of the sample, which fire
    1 ms late, the call gives up at its 51st attempt, 5050 ms after it
    began), the submission cannot be printed, the file read back is not the
    sequence that was written. *)
Example failing_appends :
  (∃ st', saveSubmission JsonText.stringifyText JsonText.parseText samplePath "4242" quiet
            submission1 staleLock
          = Some (Thrown (Error "Failed to acquire lock: timeout"), st') ∧
          files st' !! getLockPath samplePath = None ∧ clock st' = 6050%Z) ∧
  (∃ st', saveSubmission (λ _, None) JsonText.parseText samplePath "4242" quiet
            submission1 noStore
          = Some (Thrown TypeError, st') ∧
          files st' !! getLockPath samplePath = None) ∧
  (∃ st', saveSubmission JsonText.stringifyText (λ _, Some (JArray [])) samplePath "4242" quiet
            submission1 noStore
          = Some (Thrown (Error "Verification failed after write"), st') ∧
          files st' !! getLockPath samplePath = None).
Proof.
  split; [|split]; eexists; (split; [by vm_compute|by vm_compute]).
Qed.

(** * Further properties *)

Import CatalogueSpec SaveSpec CatalogueExamples StoreExamples.

(** ** Appends: backup, failures and the lock *)

Section SaveOutcomes.

Local Open Scope string_scope.

Variable JSON_stringify : json → option string.
Variable JSON_parse : string → option json.
Variable storagePath : string.
Variable pid : string.
Variable others : Z → option (gmap string string) → option (gmap string string).

Local Abbreviation lockPath := (getLockPath storagePath).
Local Abbreviation tempPath := (storagePath +:+ ".tmp").
Local Abbreviation backupPath := (storagePath +:+ ".backup").
Local Abbreviation load := (loadSubmissions JSON_parse storagePath).
Local Abbreviation save := (saveSubmission JSON_stringify JSON_parse storagePath pid others).

(** What [saveSubmission] does once the lock is acquired, in the state
    [st1] in which it was. *)
Lemma saveSubmission_acquired submission st st1 m1 :
  acquireLock storagePath pid others (withFiles st (files st)) = Some (Ok tt, st1) →
  directory st1 = Some m1 → lockPath ∉ pinned st1 →
  let items := (persisted JSON_parse (m1 !! storagePath) ++ [submission])%list in
  save submission st =
  Some (match JSON_stringify (JArray items) with
        | None => (Thrown TypeError, withFiles st1 (delete lockPath m1))
        | Some text =>
            (verified JSON_parse text (length items),
             withFiles st1 (delete lockPath (replaced storagePath text m1)))
        end).
Proof.
  intros Hacq Hd Hfree items.
  pose proof (lock_ne_storage storagePath) as N1.
  pose proof (temp_ne_storage storagePath) as N2.
  pose proof (backup_ne_storage storagePath) as N3.
  pose proof (temp_ne_lock storagePath) as N4.
  pose proof (backup_ne_lock storagePath) as N5.
  pose proof (backup_ne_temp storagePath) as N6.
  assert (Hst1 : st1 = withFiles st1 m1).
  { destruct st1 as [d t q l]. simpl in Hd. by subst d. }
  unfold saveSubmission, getStoragePath.
  rewrite (bind_ok _ _ _ _ _ (ensureStorageDirectory_spec st)).
  unfold tryFinally.
  rewrite (bind_ok _ _ _ _ _ Hacq).
  rewrite (bind_ok _ _ _ _ _ (loadSubmissions_persisted _ _ _)).
  assert (Hf1 : files st1 = m1) by (unfold files; by rewrite Hd).
  rewrite Hf1. fold items. cbn zeta.
  unfold bind at 1, stringify.
  destruct (JSON_stringify (JArray items)) as [text|].
  2:{ unfold releaseLock, tryCatch, unlinkSync, ret. rewrite Hf1.
      rewrite bool_decide_eq_false_2 by done.
      destruct (m1 !! lockPath) eqn:E; [done|].
      rewrite delete_id by done. by rewrite <-Hst1. }
  rewrite Hst1 at 1.
  rewrite (bind_ok _ _ _ _ _ (writeFileSync_ok _ _ _ _)).
  unfold bind at 1, existsSync. rewrite files_withFiles, !lookup_insert_ne by done.
  set (m2 := <[tempPath := text]> m1).
  set (m3 := <[tempPath := text]> (backedUp storagePath m1)).
  assert (Hcopy :
    (if bool_decide (is_Some (m1 !! storagePath))
     then copyFileSync storagePath backupPath
     else ret ()) (withFiles st1 m2)
    = Some (Ok tt, withFiles st1 m3)).
  { subst m3. unfold backedUp. destruct (m1 !! storagePath) as [old|] eqn:Hold.
    - rewrite bool_decide_eq_true_2 by done.
      erewrite copyFileSync_ok; last first.
      { rewrite files_withFiles. subst m2. rewrite !lookup_insert_ne by done. exact Hold. }
      rewrite files_withFiles, withFiles_withFiles. subst m2.
      by rewrite insert_insert_ne by done.
    - rewrite bool_decide_eq_false_2 by (by intros [? ?]). done. }
  rewrite (bind_ok _ _ _ _ _ Hcopy).
  assert (Htmp : files (withFiles st1 m3) !! tempPath = Some text).
  { rewrite files_withFiles. apply lookup_insert_eq. }
  rewrite (bind_ok _ _ _ _ _ (renameSync_ok _ _ (withFiles st1 m3) _ Htmp)).
  rewrite withFiles_withFiles, files_withFiles.
  erewrite bind_ok; last first.
  { apply readFileSync_ok. rewrite files_withFiles. apply lookup_insert_eq. }
  assert (Hrep : <[storagePath := text]> (delete tempPath m3) = replaced storagePath text m1).
  { unfold replaced. subst m3. by rewrite delete_insert_eq. }
  rewrite Hrep.
  set (st2 := withFiles st1 (replaced storagePath text m1)).
  assert (Hrel : ∀ r : result unit,
    match releaseLock storagePath st2 with
    | Some (Ok _, st'') => Some (r, st'')
    | Some (Thrown e, st'') => Some (Thrown e, st'')
    | None => None
    end = Some (r, withFiles st1 (delete lockPath (replaced storagePath text m1)))).
  { intros r. unfold releaseLock, tryCatch, unlinkSync, ret. subst st2.
    rewrite files_withFiles. cbn [pinned withFiles].
    rewrite bool_decide_eq_false_2 by done.
    destruct (replaced storagePath text m1 !! lockPath) eqn:E; [done|].
    by rewrite delete_id by done. }
  unfold bind, parse, verified.
  destruct (JSON_parse text) as [v|]; [|apply Hrel].
  destruct v; try apply Hrel.
  destruct (length items0 =? length items)%nat; apply Hrel.
Qed.


Lemma replaced_unlocked text m :
  m !! lockPath = None →
  delete lockPath (replaced storagePath text (<[lockPath := pid]> m))
  = replaced storagePath text m.
Proof.
  intros Hl.
  pose proof (lock_ne_storage storagePath) as N1.
  pose proof (temp_ne_lock storagePath) as N4.
  pose proof (backup_ne_lock storagePath) as N5.
  unfold replaced, backedUp. rewrite lookup_insert_ne by done.
  rewrite delete_insert_ne by done. rewrite <-delete_delete.
  destruct (m !! storagePath) as [old|].
  - by rewrite delete_insert_ne, delete_insert_id by done.
  - by rewrite delete_insert_id by done.
Qed.

(** What [saveSubmission] does when the lock is free. *)
Lemma saveSubmission_free submission st :
  files st !! lockPath = None →
  let items := (persisted JSON_parse (files st !! storagePath) ++ [submission])%list in
  save submission st =
  Some (match JSON_stringify (JArray items) with
        | None => (Thrown TypeError, withFiles (unpinned lockPath st) (files st))
        | Some text =>
            (verified JSON_parse text (length items),
             withFiles (unpinned lockPath st) (replaced storagePath text (files st)))
        end).
Proof.
  intros Hl items.
  pose proof (lock_ne_storage storagePath) as N1.
  rewrite (saveSubmission_acquired submission st _ _
             (acquireLock_free storagePath pid others (withFiles st (files st)) _ eq_refl Hl) eq_refl
             (not_pinned_unpinned _ _)).
  rewrite lookup_insert_ne by done. fold items.
  rewrite withFiles_withFiles.
  change (unpinned lockPath (withFiles st (files st)))
    with (withFiles (unpinned lockPath st) (files st)).
  rewrite !withFiles_withFiles.
  destruct (JSON_stringify (JArray items)) as [text|].
  - by rewrite replaced_unlocked.
  - by rewrite delete_insert_id.
Qed.

Lemma replaced_storage text m : replaced storagePath text m !! storagePath = Some text.
Proof. apply lookup_insert_eq. Qed.

Lemma replaced_temp text m : replaced storagePath text m !! tempPath = None.
Proof.
  unfold replaced. rewrite lookup_insert_ne by apply not_eq_sym, temp_ne_storage.
  apply lookup_delete_eq.
Qed.

Lemma replaced_backup text m :
  replaced storagePath text m !! backupPath =
  match m !! storagePath with Some old => Some old | None => m !! backupPath end.
Proof.
  unfold replaced, backedUp.
  rewrite lookup_insert_ne by apply not_eq_sym, backup_ne_storage.
  rewrite lookup_delete_ne by apply not_eq_sym, backup_ne_temp.
  destruct (m !! storagePath); [apply lookup_insert_eq|done].
Qed.

Lemma replaced_other text m p :
  p ≠ storagePath → p ≠ backupPath → p ≠ tempPath →
  replaced storagePath text m !! p = m !! p.
Proof.
  intros H1 H2 H3. unfold replaced, backedUp.
  rewrite lookup_insert_ne, lookup_delete_ne by done.
  destruct (m !! storagePath); [by rewrite lookup_insert_ne|done].
Qed.

Lemma verified_round_trip text items :
  JSON_parse text = Some (JArray items) → verified JSON_parse text (length items) = Ok tt.
Proof. intros H. unfold verified. by rewrite H, Nat.eqb_refl. Qed.

(** X1. An append that finds the lock free, and whose printed text parses
    back to the sequence, returns; the primary file then holds the new
    text, the backup file holds what the primary file held before the call
    (it is left as it was when there was no primary file), the temporary
    file is gone, no other file is touched and no time has passed. *)
Theorem saveSubmission_backup submission st text :
  let items := (persisted JSON_parse (files st !! storagePath) ++ [submission])%list in
  files st !! lockPath = None →
  JSON_stringify (JArray items) = Some text →
  JSON_parse text = Some (JArray items) →
  ∃ st', save submission st = Some (Ok tt, st') ∧
         clock st' = clock st ∧
         files st' !! storagePath = Some text ∧
         files st' !! backupPath =
           match files st !! storagePath with
           | Some old => Some old
           | None => files st !! backupPath
           end ∧
         files st' !! tempPath = None ∧
         ∀ p, p ≠ storagePath → p ≠ backupPath → p ≠ tempPath →
              files st' !! p = files st !! p.
Proof.
  intros items Hl Hs Hp. eexists. split.
  { rewrite saveSubmission_free by done. fold items. rewrite Hs.
    by rewrite (verified_round_trip _ _ Hp). }
  rewrite files_withFiles. split; [done|].
  split; [apply replaced_storage|]. split; [apply replaced_backup|].
  split; [apply replaced_temp|]. apply replaced_other.
Qed.

Lemma persisted_not_array old :
  (∀ items, JSON_parse old ≠ Some (JArray items)) → persisted JSON_parse (Some old) = [].
Proof.
  intros H. unfold persisted. destruct (JSON_parse old) as [[]|] eqn:E; try done.
  by destruct (H items).
Qed.

(** X2. An append to a store whose primary file does not parse to an array
    starts the sequence afresh: the call returns, [loadSubmissions] then
    gives the new submission alone, and the damaged text is what the
    backup file holds. *)
Theorem saveSubmission_resets_corrupted submission st old text :
  files st !! lockPath = None →
  files st !! storagePath = Some old →
  (∀ items, JSON_parse old ≠ Some (JArray items)) →
  JSON_stringify (JArray [submission]) = Some text →
  JSON_parse text = Some (JArray [submission]) →
  ∃ st', save submission st = Some (Ok tt, st') ∧
         load st' = Some (Ok [submission], st') ∧
         files st' !! backupPath = Some old.
Proof.
  intros Hl Hold Hbad Hs Hp. eexists. split.
  { rewrite saveSubmission_free by done. rewrite Hold, (persisted_not_array _ Hbad).
    cbn [app]. rewrite Hs. by rewrite (verified_round_trip _ _ Hp). }
  split.
  - rewrite loadSubmissions_persisted, files_withFiles, replaced_storage.
    unfold persisted. by rewrite Hp.
  - by rewrite files_withFiles, replaced_backup, Hold.
Qed.

(** X3. When [JSON.stringify] throws on the sequence to be written, the
    call throws that error, with every file as it was and the lock
    released: nothing has been written yet. *)
Theorem saveSubmission_unprintable submission st :
  files st !! lockPath = None →
  JSON_stringify (JArray (persisted JSON_parse (files st !! storagePath) ++ [submission])) = None →
  ∃ st', save submission st = Some (Thrown TypeError, st') ∧
         files st' = files st ∧ clock st' = clock st.
Proof.
  intros Hl Hs. eexists. split.
  { rewrite saveSubmission_free by done. by rewrite Hs. }
  done.
Qed.

(** X4. The check that reads the primary file back comes after the
    replacement: when the text written does not parse to an array of the
    expected length, the call throws, and the primary file holds the new
    text already, with the previous content in the backup file and the
    lock released. *)
Theorem saveSubmission_unverified submission st text :
  let items := (persisted JSON_parse (files st !! storagePath) ++ [submission])%list in
  files st !! lockPath = None →
  JSON_stringify (JArray items) = Some text →
  (∀ l, JSON_parse text = Some (JArray l) → length l ≠ length items) →
  ∃ e st', save submission st = Some (Thrown e, st') ∧
           files st' !! storagePath = Some text ∧
           files st' !! backupPath =
             match files st !! storagePath with
             | Some old => Some old
             | None => files st !! backupPath
             end ∧
           files st' !! lockPath = None.
Proof.
  intros items Hl Hs Hbad.
  assert (∃ e, verified JSON_parse text (length items) = Thrown e) as [e He].
  { unfold verified. destruct (JSON_parse text) as [[]|] eqn:E; try by eexists.
    destruct (Nat.eqb_spec (length items0) (length items)) as [El|]; [|by eexists].
    by destruct (Hbad _ eq_refl). }
  exists e. eexists. split.
  { rewrite saveSubmission_free by done. fold items. rewrite Hs. by rewrite He. }
  rewrite files_withFiles. split; [apply replaced_storage|]. split; [apply replaced_backup|].
  rewrite replaced_other; [done|..].
  - apply lock_ne_storage.
  - apply not_eq_sym, backup_ne_lock.
  - apply not_eq_sym, temp_ne_lock.
Qed.

Lemma writeFileSync_exclusive path content st :
  (∃ st1, writeFileSync path content true st = Some (Ok tt, st1) ∧
          files st1 !! path = Some content ∧ clock st1 = clock st) ∨
  (∃ e, writeFileSync path content true st = Some (Thrown e, st)).
Proof.
  unfold writeFileSync. destruct (directory st) as [m|]; [|right; by eexists].
  destruct (bool_decide (is_Some (m !! path))); [right; by eexists|].
  left. eexists. split; [done|]. split; [apply lookup_insert_eq|done].
Qed.

Lemma forceRemove_spec lock e st :
  ∃ st', (tryCatch (unlinkSync lock) (λ _, ret tt) ;;; @throw unit e) st = Some (Thrown e, st') ∧
         files st' = (if bool_decide (lock ∈ pinned st) then files st
                      else delete lock (files st)) ∧
         clock st' = clock st ∧ pinned st' = pinned st.
Proof.
  unfold bind, tryCatch, unlinkSync, throw, ret.
  destruct (files st !! lock) eqn:E.
  - destruct (bool_decide (lock ∈ pinned st)); eexists; (split; [done|]); done.
  - exists st. split; [done|]. rewrite delete_id by done. by destruct (bool_decide _).
Qed.

(** The loop of [acquireLock], whatever the other writers do: it ends with
    the lock file written, or with the timeout error. *)
Lemma acquireLockFrom_outcome n st startTime :
  (∀ t, 0 < LOCK_RETRY_DELAY + lateness st t)%Z →
  (startTime ≤ clock st)%Z →
  (LOCK_TIMEOUT - (clock st - startTime) < Z.of_nat n)%Z →
  ∃ r st', acquireLockFrom pid others (S n) lockPath startTime st = Some (r, st') ∧
    (clock st ≤ clock st')%Z ∧
    (∀ late, (∀ t, lateness st t ≤ late)%Z →
       (clock st - startTime ≤ LOCK_TIMEOUT + LOCK_RETRY_DELAY + late)%Z →
       (clock st' - startTime ≤ LOCK_TIMEOUT + LOCK_RETRY_DELAY + late)%Z) ∧
    match r with
    | Ok _ => files st' !! lockPath = Some pid
    | Thrown e =>
        e = Error "Failed to acquire lock: timeout" ∧
        (LOCK_TIMEOUT < clock st' - startTime)%Z ∧
        (lockPath ∉ pinned st → files st' !! lockPath = None)
    end.
Proof.
  revert st. induction n as [|n IH]; intros st Hlate Hstart Hfuel.
  all: rewrite acquireLockFrom_S; unfold tryCatch at 1.
  all: destruct (writeFileSync_exclusive lockPath pid st) as [(st1 & -> & Hl & Hc1)|(e & ->)];
         [exists (Ok tt), st1; split; [done|]; rewrite Hc1; split; [lia|]; split; [done|done]|].
  all: unfold bind at 1, dateNow.
  all: destruct (Z.gtb_spec (clock st - startTime) LOCK_TIMEOUT) as [Hgt|Hle]; [|try lia].
  1,2: destruct (forceRemove_spec lockPath (Error "Failed to acquire lock: timeout") st)
         as (st' & -> & Hf & Hc' & _);
       exists (Thrown (Error "Failed to acquire lock: timeout")), st';
       split; [done|]; rewrite Hc'; split; [lia|]; split; [done|];
       split; [done|]; split; [lia|]; intros Hfree;
       rewrite Hf, bool_decide_eq_false_2 by done; apply lookup_delete_eq.
  unfold bind at 1, sleep.
  set (st2 := {| directory := others (clock st) (directory st);
                 clock := (clock st + LOCK_RETRY_DELAY + lateness st (clock st))%Z;
                 pinned := pinned st; lateness := lateness st |}).
  pose proof (Hlate (clock st)) as Hstep.
  destruct (IH st2) as (r & st' & -> & Hc & Hbound & Hpost);
    [done|cbn [clock st2]; lia|cbn [clock st2]; lia|].
  exists r, st'. split; [done|]. cbn [clock st2] in Hc, Hbound. split; [lia|]. split; [|done].
  intros late Hmax _. apply Hbound; [done|]. specialize (Hmax (clock st)). lia.
Qed.

(** X5. Whatever the other writers do while it waits, [acquireLock] comes
    to an end when every wait takes time: either it returns, and the lock
    file then holds the identifier of this process, or it throws the
    timeout error, more than [LOCK_TIMEOUT] milliseconds after it began,
    and the lock file is then gone unless the file system refuses to
    remove it. With timers that fire [late] milliseconds late at most,
    either end comes within the timeout, one delay and [late]. *)
Theorem acquireLock_outcome st :
  (∀ t, 0 < LOCK_RETRY_DELAY + lateness st t)%Z →
  ∃ r st', acquireLock storagePath pid others st = Some (r, st') ∧
    (∀ late, (∀ t, lateness st t ≤ late)%Z →
       (clock st' - clock st ≤ LOCK_TIMEOUT + LOCK_RETRY_DELAY + late)%Z) ∧
    match r with
    | Ok _ => files st' !! lockPath = Some pid ∧ (clock st ≤ clock st')%Z
    | Thrown e =>
        e = Error "Failed to acquire lock: timeout" ∧
        (LOCK_TIMEOUT < clock st' - clock st)%Z ∧
        (lockPath ∉ pinned st → files st' !! lockPath = None)
    end.
Proof.
  intros Hlate. unfold acquireLock, bind, dateNow. rewrite LOCK_ATTEMPTS_S.
  destruct (acquireLockFrom_outcome (Z.to_nat LOCK_TIMEOUT + 1) st (clock st))
    as (r & st' & Hr & Hc & Hbound & Hpost); [done|lia|unfold LOCK_TIMEOUT; lia|].
  exists r, st'. split; [done|]. split.
  - intros late Hmax. apply Hbound; [done|].
    specialize (Hlate 0%Z). specialize (Hmax 0%Z). unfold LOCK_TIMEOUT. lia.
  - destruct r; [done|]. done.
Qed.

(** The loop of [acquireLock] when the lock file stays where it is. *)
Lemma acquireLockFrom_held n st m owner startTime :
  (∀ t d, others t d = d) →
  (∀ t, 0 < LOCK_RETRY_DELAY + lateness st t)%Z →
  directory st = Some m → m !! lockPath = Some owner →
  (LOCK_TIMEOUT - (clock st - startTime) < Z.of_nat n)%Z →
  ∃ st', acquireLockFrom pid others (S n) lockPath startTime st
         = Some (Thrown (Error "Failed to acquire lock: timeout"), st') ∧
         directory st' = Some (if bool_decide (lockPath ∈ pinned st) then m
                               else delete lockPath m) ∧
         (LOCK_TIMEOUT < clock st' - startTime)%Z ∧
         pinned st' = pinned st.
Proof.
  intros Hq. revert st. induction n as [|n IH]; intros st Hlate Hd Ho Hfuel.
  all: rewrite acquireLockFrom_S; unfold tryCatch at 1, writeFileSync; rewrite Hd, Ho.
  all: rewrite bool_decide_eq_true_2 by done.
  all: unfold bind at 1, dateNow.
  all: destruct (Z.gtb_spec (clock st - startTime) LOCK_TIMEOUT) as [Hgt|Hle]; [|try lia].
  1,2: unfold bind, tryCatch, unlinkSync, throw, ret, files; rewrite Hd; simpl; rewrite Ho;
       destruct (bool_decide (lockPath ∈ pinned st)); eexists; (split; [done|]); [|done];
       split; [done|]; split; [lia|done].
  unfold bind at 1, sleep. rewrite Hq.
  pose proof (Hlate (clock st)) as Hstep.
  destruct (IH {| directory := directory st;
                  clock := (clock st + LOCK_RETRY_DELAY + lateness st (clock st))%Z;
                  pinned := pinned st; lateness := lateness st |})
    as (st' & -> & Hd' & Hc' & Hp'); [done|done|done|cbn [clock]; lia|].
  by exists st'.
Qed.

Lemma acquireLock_held st m owner :
  (∀ t d, others t d = d) →
  (∀ t, 0 < LOCK_RETRY_DELAY + lateness st t)%Z →
  directory st = Some m → m !! lockPath = Some owner →
  ∃ st', acquireLock storagePath pid others st
         = Some (Thrown (Error "Failed to acquire lock: timeout"), st') ∧
         directory st' = Some (if bool_decide (lockPath ∈ pinned st) then m
                               else delete lockPath m) ∧
         (LOCK_TIMEOUT < clock st' - clock st)%Z ∧
         pinned st' = pinned st.
Proof.
  intros Hq Hlate Hd Ho. unfold acquireLock, bind, dateNow. rewrite LOCK_ATTEMPTS_S.
  apply (acquireLockFrom_held _ st m owner); [done..|]. unfold LOCK_TIMEOUT. lia.
Qed.

(** The state in which a call ends that found the lock held to the end. *)
Lemma saveSubmission_held submission st owner :
  (∀ t d, others t d = d) →
  (∀ t, 0 < LOCK_RETRY_DELAY + lateness st t)%Z →
  files st !! lockPath = Some owner →
  ∃ st', save submission st
         = Some (Thrown (Error "Failed to acquire lock: timeout"), st') ∧
         files st' = (if bool_decide (lockPath ∈ pinned st) then files st
                      else delete lockPath (files st)) ∧
         (LOCK_TIMEOUT < clock st' - clock st)%Z.
Proof.
  intros Hq Hlate Ho. unfold saveSubmission.
  rewrite (bind_ok _ _ _ _ _ (ensureStorageDirectory_spec st)).
  unfold tryFinally, bind.
  destruct (acquireLock_held (withFiles st (files st)) (files st) owner Hq Hlate eq_refl Ho)
    as (st1 & -> & Hd1 & Hc1 & Hp1).
  cbn [pinned withFiles clock] in Hd1, Hc1, Hp1.
  assert (Hf1 : files st1 = if bool_decide (lockPath ∈ pinned st) then files st
                            else delete lockPath (files st)).
  { unfold files at 1. by rewrite Hd1. }
  exists st1. split; [|done].
  unfold releaseLock, tryCatch, unlinkSync, ret. rewrite Hf1, Hp1.
  destruct (bool_decide (lockPath ∈ pinned st)).
  - by rewrite Ho.
  - by rewrite lookup_delete_eq.
Qed.

(** X6. When the lock file is there and nobody removes it, the call throws
    the timeout error, more than [LOCK_TIMEOUT] milliseconds after it
    began; it has removed the lock file, which was not its own, unless the
    file system refuses to remove it, and has changed no other file: the
    submission is not stored. *)
Theorem saveSubmission_timeout submission st owner :
  (∀ t d, others t d = d) →
  (∀ t, 0 < LOCK_RETRY_DELAY + lateness st t)%Z →
  files st !! lockPath = Some owner →
  ∃ st', save submission st
         = Some (Thrown (Error "Failed to acquire lock: timeout"), st') ∧
         (LOCK_TIMEOUT < clock st' - clock st)%Z ∧
         files st' !! lockPath =
           (if bool_decide (lockPath ∈ pinned st) then Some owner else None) ∧
         ∀ p, p ≠ lockPath → files st' !! p = files st !! p.
Proof.
  intros Hq Hlate Ho.
  destruct (saveSubmission_held submission st owner Hq Hlate Ho) as (st' & E & Hf & Hc).
  exists st'. split; [done|]. split; [done|]. rewrite Hf.
  destruct (bool_decide (lockPath ∈ pinned st)).
  - by split.
  - split; [apply lookup_delete_eq|]. intros p Hp. by apply lookup_delete_ne.
Qed.

(** X7. After such a timeout, where the file system lets the process remove
    the lock file, the same call, made again, goes through: the first call
    throws and leaves the primary file as it was, the second one returns
    with the submission appended, without a wait. *)
Theorem saveSubmission_retry submission st owner text :
  let items := (persisted JSON_parse (files st !! storagePath) ++ [submission])%list in
  (∀ t d, others t d = d) →
  (∀ t, 0 < LOCK_RETRY_DELAY + lateness st t)%Z →
  lockPath ∉ pinned st →
  files st !! lockPath = Some owner →
  JSON_stringify (JArray items) = Some text →
  JSON_parse text = Some (JArray items) →
  ∃ st1 st2,
    save submission st = Some (Thrown (Error "Failed to acquire lock: timeout"), st1) ∧
    files st1 !! storagePath = files st !! storagePath ∧
    save submission st1 = Some (Ok tt, st2) ∧
    files st2 !! storagePath = Some text ∧
    clock st2 = clock st1.
Proof.
  intros items Hq Hlate Hfree Ho Hs Hp.
  pose proof (lock_ne_storage storagePath) as N1.
  destruct (saveSubmission_held submission st owner Hq Hlate Ho) as (st1 & E & Hf & Hc).
  rewrite bool_decide_eq_false_2 in Hf by done.
  exists st1. eexists. split; [done|].
  split; [by rewrite Hf, lookup_delete_ne|].
  split.
  - rewrite saveSubmission_free; last first.
    { rewrite Hf. apply lookup_delete_eq. }
    rewrite !Hf, lookup_delete_ne by done. fold items.
    rewrite Hs. by rewrite (verified_round_trip _ _ Hp).
  - rewrite files_withFiles. split; [apply replaced_storage|done].
Qed.

Lemma attempt_S late start dir i :
  attempt late others start dir (S i) =
  ((fst (attempt late others start dir i) + LOCK_RETRY_DELAY
    + late (fst (attempt late others start dir i)))%Z,
   others (fst (attempt late others start dir i)) (snd (attempt late others start dir i))).
Proof. cbn [attempt]. by destruct (attempt late others start dir i). Qed.

Lemma attempt_time late start dir i :
  (∀ t, 0 < LOCK_RETRY_DELAY + late t)%Z →
  (start + Z.of_nat i ≤ fst (attempt late others start dir i))%Z.
Proof.
  intros Hlate. induction i as [|i IH]; [simpl; lia|].
  rewrite attempt_S. cbn [fst].
  specialize (Hlate (fst (attempt late others start dir i))). lia.
Qed.

Lemma acquireLockFrom_waits late start dir m' k n j st :
  (∀ i, (i ≤ k)%nat →
     ∃ m owner, snd (attempt late others start dir i) = Some m ∧
                m !! lockPath = Some owner ∧
                (fst (attempt late others start dir i) - start ≤ LOCK_TIMEOUT)%Z) →
  snd (attempt late others start dir (S k)) = Some m' → m' !! lockPath = None →
  (j ≤ S k)%nat → lateness st = late →
  directory st = snd (attempt late others start dir j) →
  clock st = fst (attempt late others start dir j) →
  (S k - j ≤ n)%nat →
  ∃ st', acquireLockFrom pid others (S n) lockPath start st = Some (Ok tt, st') ∧
         directory st' = Some (<[lockPath := pid]> m') ∧
         clock st' = fst (attempt late others start dir (S k)) ∧
         lockPath ∉ pinned st'.
Proof.
  intros Hheld Hfree Hm'. revert j st.
  induction n as [|n IH]; intros j st Hj Hl Hd Hc Hn.
  all: rewrite acquireLockFrom_S; unfold tryCatch at 1, writeFileSync; rewrite Hd.
  all: destruct (decide (j = S k)) as [->|Hne].
  1,3: rewrite Hfree, Hm'; rewrite bool_decide_eq_false_2 by (by intros [? ?]);
       eexists; split; [done|]; split; [done|]; split; [done|]; apply not_pinned_unpinned.
  - lia.
  - destruct (Hheld j) as (m & owner & Hdj & Ho & Hle); [lia|]. rewrite Hdj.
    rewrite Ho, bool_decide_eq_true_2 by done.
    unfold bind at 1, dateNow. rewrite Hc.
    destruct (Z.gtb_spec (fst (attempt late others start dir j) - start) LOCK_TIMEOUT)
      as [Hgt|_]; [lia|].
    unfold bind at 1, sleep.
    apply (IH (S j)); [lia|done|..|lia].
    + cbn [directory]. by rewrite attempt_S, Hc, Hd.
    + cbn [clock]. by rewrite attempt_S, Hc, Hl.
Qed.

(** X8. A writer that finds the lock held waits for it. When the lock file
    is there at the first [k + 1] attempts, none of them later than
    [LOCK_TIMEOUT] milliseconds after the beginning, and gone after the
    wait that follows, the call returns at the end of that wait, with the
    lock released, and the primary file holds the text of the sequence that
    the other writers left behind, not of the one that was there when the
    call began, followed by the submission. *)
Theorem saveSubmission_waits submission st m' k text :
  let items := (persisted JSON_parse (m' !! storagePath) ++ [submission])%list in
  (∀ t, 0 < LOCK_RETRY_DELAY + lateness st t)%Z →
  (∀ i, (i ≤ k)%nat →
     ∃ m owner,
       snd (attempt (lateness st) others (clock st) (directory st) i) = Some m ∧
       m !! lockPath = Some owner ∧
       (fst (attempt (lateness st) others (clock st) (directory st) i) - clock st
        ≤ LOCK_TIMEOUT)%Z) →
  snd (attempt (lateness st) others (clock st) (directory st) (S k)) = Some m' →
  m' !! lockPath = None →
  JSON_stringify (JArray items) = Some text →
  JSON_parse text = Some (JArray items) →
  ∃ st', save submission st = Some (Ok tt, st') ∧
         files st' !! storagePath = Some text ∧
         files st' !! lockPath = None ∧
         clock st' = fst (attempt (lateness st) others (clock st) (directory st) (S k)).
Proof.
  intros items Hlate Hheld Hfree Hm' Hs Hp.
  pose proof (lock_ne_storage storagePath) as N1.
  destruct (Hheld 0%nat) as (m & owner & Hd & Ho & _); [lia|]. cbn [attempt snd] in Hd.
  assert (Hst : withFiles st (files st) = st).
  { destruct st as [d t q l]. simpl in Hd. subst d. done. }
  assert (Hk : (k ≤ Z.to_nat LOCK_TIMEOUT)%nat).
  { destruct (Hheld k) as (_ & _ & _ & _ & Hle); [lia|].
    pose proof (attempt_time (lateness st) (clock st) (directory st) k Hlate). lia. }
  destruct (acquireLockFrom_waits (lateness st) (clock st) (directory st) m' k
              (Z.to_nat LOCK_TIMEOUT + 1) 0 st)
    as (st1 & Hacq & Hd1 & Hc1 & Hp1); [done|done|done|lia|done|done|done|lia|].
  assert (Hacq' : acquireLock storagePath pid others (withFiles st (files st))
                  = Some (Ok tt, st1)).
  { rewrite Hst. unfold acquireLock, bind at 1, dateNow. by rewrite LOCK_ATTEMPTS_S. }
  eexists. split.
  { rewrite (saveSubmission_acquired submission st _ _ Hacq' Hd1 Hp1).
    rewrite lookup_insert_ne by done. fold items. rewrite Hs.
    rewrite (verified_round_trip _ _ Hp). rewrite replaced_unlocked by done. reflexivity. }
  rewrite files_withFiles. split; [apply replaced_storage|]. split; [|done].
  rewrite replaced_other; [done|apply lock_ne_storage|..].
  - apply not_eq_sym, backup_ne_lock.
  - apply not_eq_sym, temp_ne_lock.
Qed.

(** X9. [getStorageStats] returns, without touching the file system, the
    number of the submissions that the primary file holds and the storage
    path; an append that returns raises that count by one. *)
Theorem getStorageStats_counts submission st text :
  let stored := persisted JSON_parse (files st !! storagePath) in
  files st !! lockPath = None →
  JSON_stringify (JArray (stored ++ [submission])) = Some text →
  JSON_parse text = Some (JArray (stored ++ [submission])) →
  ∃ st',
    getStorageStats JSON_parse storagePath st
    = Some (Ok {| count := length stored; path := storagePath |}, st) ∧
    save submission st = Some (Ok tt, st') ∧
    getStorageStats JSON_parse storagePath st'
    = Some (Ok {| count := S (length stored); path := storagePath |}, st').
Proof.
  intros stored Hl Hs Hp. eexists. split; [|split].
  - unfold getStorageStats. by rewrite (bind_ok _ _ _ _ _ (loadSubmissions_persisted _ _ _)).
  - rewrite saveSubmission_free by done. fold stored. rewrite Hs.
    by rewrite (verified_round_trip _ _ Hp).
  - unfold getStorageStats. rewrite (bind_ok _ _ _ _ _ (loadSubmissions_persisted _ _ _)).
    rewrite files_withFiles, replaced_storage. unfold persisted at 1. rewrite Hp.
    unfold ret, getStoragePath. rewrite length_app. simpl.
    by rewrite Nat.add_1_r.
Qed.

End SaveOutcomes.

Lemma saveSubmission_backup_witness :
  ∃ st', saveSubmission JsonText.stringifyText JsonText.parseText samplePath "4242" quiet
           submission2 oneSubmission = Some (Ok tt, st') ∧
         clock st' = clock oneSubmission ∧
         files st' !! samplePath = Some twoText ∧
         files st' !! (samplePath +:+ ".backup") =
           match files oneSubmission !! samplePath with
           | Some old => Some old
           | None => files oneSubmission !! (samplePath +:+ ".backup")
           end ∧
         files st' !! (samplePath +:+ ".tmp") = None ∧
         ∀ p, p ≠ samplePath → p ≠ samplePath +:+ ".backup" → p ≠ samplePath +:+ ".tmp" →
              files st' !! p = files oneSubmission !! p.
Proof.
  apply (saveSubmission_backup JsonText.stringifyText JsonText.parseText samplePath "4242" quiet
           submission2 oneSubmission twoText).
  - reflexivity.
  - vm_compute. reflexivity.
  - vm_compute. reflexivity.
Defined.

Lemma saveSubmission_resets_corrupted_witness :
  ∃ st', saveSubmission JsonText.stringifyText JsonText.parseText samplePath "4242" quiet
           submission1 damaged = Some (Ok tt, st') ∧
         loadSubmissions JsonText.parseText samplePath st' = Some (Ok [submission1], st') ∧
         files st' !! (samplePath +:+ ".backup") = Some "{invalid json}".
Proof.
  apply (saveSubmission_resets_corrupted JsonText.stringifyText JsonText.parseText samplePath
           "4242" quiet submission1 damaged "{invalid json}" oneText).
  - reflexivity.
  - reflexivity.
  - intros items. vm_compute. discriminate.
  - vm_compute. reflexivity.
  - vm_compute. reflexivity.
Defined.

Lemma saveSubmission_unprintable_witness :
  ∃ st', saveSubmission (λ _, None) JsonText.parseText samplePath "4242" quiet
           submission2 oneSubmission = Some (Thrown TypeError, st') ∧
         files st' = files oneSubmission ∧ clock st' = clock oneSubmission.
Proof.
  apply (saveSubmission_unprintable (λ _, None) JsonText.parseText samplePath "4242" quiet
           submission2 oneSubmission).
  - reflexivity.
  - reflexivity.
Defined.

Lemma saveSubmission_unverified_witness :
  ∃ e st', saveSubmission JsonText.stringifyText (λ _, Some (JArray [])) samplePath "4242" quiet
             submission1 noStore = Some (Thrown e, st') ∧
           files st' !! samplePath = Some oneText ∧
           files st' !! (samplePath +:+ ".backup") =
             match files noStore !! samplePath with
             | Some old => Some old
             | None => files noStore !! (samplePath +:+ ".backup")
             end ∧
           files st' !! getLockPath samplePath = None.
Proof.
  apply (saveSubmission_unverified JsonText.stringifyText (λ _, Some (JArray [])) samplePath
           "4242" quiet submission1 noStore oneText).
  - reflexivity.
  - vm_compute. reflexivity.
  - intros l [= <-]. vm_compute. discriminate.
Defined.

Lemma acquireLock_outcome_witness :
  ∃ r st', acquireLock samplePath "4242" quiet staleLock = Some (r, st') ∧
    (∀ late, (∀ t, lateness staleLock t ≤ late)%Z →
       (clock st' - clock staleLock ≤ LOCK_TIMEOUT + LOCK_RETRY_DELAY + late)%Z) ∧
    match r with
    | Ok _ =>
        files st' !! getLockPath samplePath = Some "4242" ∧
        (clock staleLock ≤ clock st')%Z
    | Thrown e =>
        e = Error "Failed to acquire lock: timeout" ∧
        (LOCK_TIMEOUT < clock st' - clock staleLock)%Z ∧
        (getLockPath samplePath ∉ pinned staleLock →
         files st' !! getLockPath samplePath = None)
    end.
Proof.
  apply (acquireLock_outcome samplePath "4242" quiet staleLock).
  intros t. vm_compute. reflexivity.
Defined.

Lemma saveSubmission_timeout_witness :
  ∃ st', saveSubmission JsonText.stringifyText JsonText.parseText samplePath "4242" quiet
           submission1 staleLock
         = Some (Thrown (Error "Failed to acquire lock: timeout"), st') ∧
         (LOCK_TIMEOUT < clock st' - clock staleLock)%Z ∧
         files st' !! getLockPath samplePath =
           (if bool_decide (getLockPath samplePath ∈ pinned staleLock)
            then Some "77" else None) ∧
         ∀ p, p ≠ getLockPath samplePath → files st' !! p = files staleLock !! p.
Proof.
  apply (saveSubmission_timeout JsonText.stringifyText JsonText.parseText samplePath "4242" quiet
           submission1 staleLock "77").
  - reflexivity.
  - intros t. vm_compute. reflexivity.
  - reflexivity.
Defined.

Lemma saveSubmission_retry_witness :
  ∃ st1 st2,
    saveSubmission JsonText.stringifyText JsonText.parseText samplePath "4242" quiet
      submission1 staleLock
    = Some (Thrown (Error "Failed to acquire lock: timeout"), st1) ∧
    files st1 !! samplePath = files staleLock !! samplePath ∧
    saveSubmission JsonText.stringifyText JsonText.parseText samplePath "4242" quiet
      submission1 st1 = Some (Ok tt, st2) ∧
    files st2 !! samplePath = Some oneText ∧
    clock st2 = clock st1.
Proof.
  apply (saveSubmission_retry JsonText.stringifyText JsonText.parseText samplePath "4242" quiet
           submission1 staleLock "77" oneText).
  - reflexivity.
  - intros t. vm_compute. reflexivity.
  - apply not_elem_of_empty.
  - reflexivity.
  - vm_compute. reflexivity.
  - vm_compute. reflexivity.
Defined.

Lemma saveSubmission_waits_witness :
  ∃ st', saveSubmission JsonText.stringifyText JsonText.parseText samplePath "4242" releasing
           submission2 locked = Some (Ok tt, st') ∧
         files st' !! samplePath = Some twoText ∧
         files st' !! getLockPath samplePath = None ∧
         clock st' = fst (attempt (lateness locked) releasing (clock locked) (directory locked) 2).
Proof.
  apply (saveSubmission_waits JsonText.stringifyText JsonText.parseText samplePath "4242"
           releasing submission2 locked {[ samplePath := oneText ]} 1 twoText).
  - intros t. vm_compute. reflexivity.
  - intros i Hi. exists (files locked), "77".
    do 2 (destruct i as [|i];
          [split; [vm_compute; reflexivity|];
           split; [vm_compute; reflexivity|vm_compute; discriminate]|]).
    lia.
  - vm_compute. reflexivity.
  - reflexivity.
  - vm_compute. reflexivity.
  - vm_compute. reflexivity.
Defined.

(** The times of the three attempts of that call: the second one comes
    103 ms after the first, the lock file is removed during the wait that
    follows, and the third one, 206 ms after the first, takes the lock. *)
Example saveSubmission_waits_times :
  map (λ i, fst (attempt (lateness locked) releasing (clock locked) (directory locked) i))
    [0; 1; 2]%nat = [1000; 1103; 1206]%Z.
Proof. vm_compute. reflexivity. Qed.

Lemma getStorageStats_counts_witness :
  ∃ st',
    getStorageStats JsonText.parseText samplePath oneSubmission
    = Some (Ok {| count := length (persisted JsonText.parseText
                                     (files oneSubmission !! samplePath));
                  path := samplePath |}, oneSubmission) ∧
    saveSubmission JsonText.stringifyText JsonText.parseText samplePath "4242" quiet
      submission2 oneSubmission = Some (Ok tt, st') ∧
    getStorageStats JsonText.parseText samplePath st'
    = Some (Ok {| count := S (length (persisted JsonText.parseText
                                        (files oneSubmission !! samplePath)));
                  path := samplePath |}, st').
Proof.
  apply (getStorageStats_counts JsonText.stringifyText JsonText.parseText samplePath "4242" quiet
           submission2 oneSubmission twoText).
  - reflexivity.
  - vm_compute. reflexivity.
  - vm_compute. reflexivity.
Defined.

(** The count of that sample is 1 before the append. *)
Example getStorageStats_sample :
  length (persisted JsonText.parseText (files oneSubmission !! samplePath)) = 1%nat.
Proof. vm_compute. reflexivity. Qed.

(** ** The lock file that cannot be removed *)

(** C9, as the specification states it, fails where the file system refuses
    to remove the lock file: on a store whose lock file, left by another
    writer, is such an entry, the call ends with the timeout error, both
    [unlinkSync] calls having failed with errors that the code ignores, and
    the lock file is still there when the caller sees that error. *)
Lemma saveSubmission_leaves_stuck_lock :
  ∃ st', saveSubmission JsonText.stringifyText JsonText.parseText samplePath "4242" quiet
           submission1 stuckLock
         = Some (Thrown (Error "Failed to acquire lock: timeout"), st') ∧
         files st' !! getLockPath samplePath = Some "77".
Proof.
  destruct (saveSubmission_held JsonText.stringifyText JsonText.parseText samplePath "4242"
              quiet submission1 stuckLock "77") as (st' & E & Hf & _).
  - reflexivity.
  - intros t. vm_compute. reflexivity.
  - reflexivity.
  - exists st'. split; [exact E|]. rewrite Hf. vm_compute. reflexivity.
Qed.

Lemma saveSubmission_releases_lock_witness :
  ∃ r st', saveSubmission JsonText.stringifyText JsonText.parseText samplePath "4242" quiet
             submission1 staleLock = Some (r, st') ∧
           files st' !! getLockPath samplePath = None.
Proof.
  destruct (saveSubmission_releases_lock JsonText.stringifyText JsonText.parseText samplePath
              "4242" quiet submission1 staleLock) as [Hgone Hends].
  - apply not_elem_of_empty.
  - destruct Hends as (r & st' & E).
    + intros t. vm_compute. reflexivity.
    + exists r, st'. split; [exact E|]. exact (Hgone r st' E).
Defined.

(** ** The matcher: metric, answers and catalogue *)

Section MetricFacts.

Lemma edit1_sym s t : edit1 s t → edit1 t s.
Proof. induction 1; by constructor. Qed.

Lemma edits_sym n s t : edits n s t → edits n t s.
Proof.
  unfold edits. induction 1 as [|n x y z Hxy _ IH]; [constructor|].
  apply nsteps_r with y; [done|by apply edit1_sym].
Qed.

Lemma edits_length n s t : edits n s t → length s ≤ length t + n ∧ length t ≤ length s + n.
Proof.
  unfold edits. induction 1 as [|n x y z Hxy _ IH]; [lia|].
  apply edit1_length in Hxy. lia.
Qed.

Lemma levenshteinDistance_sym a b : levenshteinDistance a b = levenshteinDistance b a.
Proof.
  apply Nat.le_antisymm; apply levenshteinDistance_least, edits_sym, levenshteinDistance_edits.
Qed.

Lemma levenshteinDistance_zero a b : levenshteinDistance a b = 0 ↔ a = b.
Proof.
  split.
  - intros H. pose proof (levenshteinDistance_edits a b) as He. rewrite H in He.
    by inversion He.
  - intros ->. apply Nat.le_0_r, levenshteinDistance_least. constructor.
Qed.

Lemma levenshteinDistance_gap a b :
  length a ≤ length b + levenshteinDistance a b ∧
  length b ≤ length a + levenshteinDistance a b.
Proof. apply edits_length, levenshteinDistance_edits. Qed.

(** X10. The distance computed by the matrix is a metric on strings: it is
    0 exactly for equal strings, it is symmetric, and it satisfies the
    triangle inequality. *)
Theorem levenshteinDistance_metric (a b c : jsstring) :
  (levenshteinDistance a b = 0 ↔ a = b) ∧
  levenshteinDistance a b = levenshteinDistance b a ∧
  levenshteinDistance a c ≤ levenshteinDistance a b + levenshteinDistance b c.
Proof.
  split; [apply levenshteinDistance_zero|]. split; [apply levenshteinDistance_sym|].
  apply levenshteinDistance_least. unfold edits.
  eapply nsteps_trans; apply levenshteinDistance_edits.
Qed.

(** X11. The distance is at least the difference of the two lengths and at
    most the greater of them. *)
Theorem levenshteinDistance_bounds (a b : jsstring) :
  Nat.max (length a) (length b) - Nat.min (length a) (length b) ≤ levenshteinDistance a b ∧
  levenshteinDistance a b ≤ Nat.max (length a) (length b).
Proof.
  split; [|apply levenshteinDistance_le_max].
  pose proof (levenshteinDistance_gap a b). lia.
Qed.

(** The threshold on a ratio, as an inequality between counts. *)
Lemma threshold_counts (d m : nat) :
  0 < m →
  (SIMILARITY_THRESHOLD <= 1 - inject_Z (Z.of_nat d) / inject_Z (Z.of_nat m))%Q ↔ 20 * d ≤ 3 * m.
Proof.
  intros Hm. destruct m as [|m]; [lia|].
  change (Z.of_nat (S m)) with (Z.pos (Pos.of_succ_nat m)).
  rewrite <- Qmake_Qdiv.
  unfold SIMILARITY_THRESHOLD, Qle, Qminus, Qplus, Qopp. simpl. lia.
Qed.

Lemma ratio_one (d m : nat) :
  0 < m → (1 - inject_Z (Z.of_nat d) / inject_Z (Z.of_nat m) == 1)%Q ↔ d = 0.
Proof.
  intros Hm. destruct m as [|m]; [lia|].
  change (Z.of_nat (S m)) with (Z.pos (Pos.of_succ_nat m)).
  rewrite <- Qmake_Qdiv.
  unfold Qeq, Qminus, Qplus, Qopp. simpl. lia.
Qed.

(** X12. The similarity does not depend on the order of its arguments, and
    it is 1 exactly when the two strings are equal. *)
Theorem similarityRatio_symmetric_one (a b : jsstring) :
  similarityRatio a b = similarityRatio b a ∧
  ((similarityRatio a b == 1)%Q ↔ a = b).
Proof.
  split.
  - unfold similarityRatio. by rewrite Nat.max_comm, levenshteinDistance_sym.
  - unfold similarityRatio. cbn zeta.
    destruct (Nat.eqb_spec (Nat.max (length a) (length b)) 0) as [E|E].
    + split; [intros _|done].
      destruct a, b; simpl in E; try lia. done.
    + rewrite ratio_one by lia. apply levenshteinDistance_zero.
Qed.

End MetricFacts.

Section LookupMore.

Variable toLowerCase : jsstring → jsstring.

Local Abbreviation normalize := (normalizeBlipName toLowerCase).


(** A candidate that passes the threshold without being an exact match. *)
Lemma score_threshold input c :
  normalize (name (fst c)) ≠ input →
  (SIMILARITY_THRESHOLD <= score toLowerCase input c)%Q →
  let key := normalize (name (fst c)) in
  0 < levenshteinDistance input key ∧
  20 * levenshteinDistance input key ≤ 3 * Nat.max (length input) (length key).
Proof.
  intros Hne Hth key. unfold score, similarityRatio in Hth. cbn zeta in Hth. fold key in Hth.
  assert (Hd : 0 < levenshteinDistance input key).
  { destruct (levenshteinDistance input key) eqn:E; [|lia].
    apply levenshteinDistance_zero in E. by destruct Hne. }
  split; [done|].
  destruct (Nat.eqb_spec (Nat.max (length input) (length key)) 0) as [E|E].
  - pose proof (levenshteinDistance_le_max input key). lia.
  - apply threshold_counts in Hth; [done|lia].
Qed.

(** X13. A query whose normalised form has at most five code units matches
    only exactly: when no entry has that normalised name the lookup
    returns nothing, since on so short a name one edit already brings the
    similarity below 0.85. *)
Theorem short_query_exact_only dir query :
  length (normalize query) ≤ 5 →
  Forall (λ c, normalize (name (fst c)) ≠ normalize query) (candidates (loadRadarData dir)) →
  findPriorRadarMatch toLowerCase dir query = None.
Proof.
  intros Hlen Hne. rewrite findPriorRadarMatch_candidates.
  destruct (bestOf_scan toLowerCase (normalize query) _ Hne [] None) as (best & -> & Hb);
    [constructor|].
  destruct best as [[b s]|]; [exfalso|done].
  destruct Hb as (pre & c & post & Hc & _ & _ & Hth & _).
  assert (Hcne : normalize (name (fst c)) ≠ normalize query).
  { rewrite Forall_forall in Hne. apply Hne. simpl in Hc. rewrite Hc. set_solver. }
  destruct (score_threshold _ _ Hcne Hth) as [Hd Hm].
  pose proof (levenshteinDistance_gap (normalize query) (normalize (name (fst c)))).
  lia.
Qed.


End LookupMore.

Section CatalogueFacts.

Lemma readVolumes_listed dir index : readVolumes dir index = listed dir index.
Proof.
  unfold readVolumes.
  assert (H : ∀ acc,
    fold_left
      (λ volumes entry,
         match radar_file dir (filename entry) with
         | Some d => volumes ++ [{| volume := volumeLabel (filename entry); data := d |}]
         | None => volumes
         end) index acc = acc ++ listed dir index).
  { induction index as [|e index IH]; intros acc; simpl; [by rewrite app_nil_r|].
    rewrite IH. unfold listed. simpl.
    destruct (radar_file dir (filename e)); [|done]. by rewrite <- app_assoc. }
  apply (H []).
Qed.

Lemma numbered_insertVolume n x l :
  numbered n (insertVolume x l) = numbered n (x :: l).
Proof.
  induction l as [|y l IH]; [done|]. cbn [insertVolume].
  destruct (decide (compareVolumes x y = Positive)) as [E|E];
    [rewrite E|by destruct (compareVolumes x y)].
  unfold numbered in *. cbn [List.filter] in *. rewrite IH.
  destruct (decide (volumeNumber y = n)) as [Hy|Hy], (decide (volumeNumber x = n)) as [Hx|Hx].
  - unfold compareVolumes in E. rewrite Hx, Hy in E. by destruct (minus_same n).
  - by rewrite (bool_decide_eq_true_2 _ Hy), (bool_decide_eq_false_2 _ Hx).
  - by rewrite (bool_decide_eq_false_2 _ Hy), (bool_decide_eq_true_2 _ Hx).
  - by rewrite (bool_decide_eq_false_2 _ Hy), (bool_decide_eq_false_2 _ Hx).
Qed.

Lemma numbered_sortVolumes n l : numbered n (sortVolumes l) = numbered n l.
Proof.
  induction l as [|x l IH]; [done|]. cbn [sortVolumes foldr].
  rewrite numbered_insertVolume. unfold numbered in *. cbn [List.filter].
  fold (sortVolumes l). by rewrite IH.
Qed.

Lemma StronglySorted_among {A} (R R' : A → A → Prop) l :
  (∀ a b, a ∈ l → b ∈ l → R a b → R' a b) →
  StronglySorted R l → StronglySorted R' l.
Proof.
  induction l as [|x l IH]; intros Himp Hs; [constructor|].
  apply StronglySorted_cons in Hs as [Hx Hl]. constructor.
  - apply IH; [|done]. intros a b Ha Hb. apply Himp; by apply list_elem_of_further.
  - apply Forall_forall. intros y Hy. rewrite Forall_forall in Hx.
    apply Himp; [apply list_elem_of_here|by apply list_elem_of_further|by apply Hx].
Qed.

(** X15. [loadRadarData] returns the editions of the index whose file is
    there, each one once, by decreasing edition number, the numbers being
    the binary64 numbers that [parseInt] reads; editions of equal number
    keep the order of the index. Where the labels have the form of the
    word Volume, the number of the edition and a date in parentheses, with
    numbers below 2^53, that is the order of decreasing ordinal, the
    ordinal being the first integer in the label. *)
Theorem loadRadarData_order dir index :
  index_json dir = Some index →
  loadRadarData dir ≡ₚ listed dir index ∧
  StronglySorted newerFirst (loadRadarData dir) ∧
  (∀ n, numbered n (loadRadarData dir) = numbered n (listed dir index)) ∧
  ((∀ v, v ∈ listed dir index → editionLabel (volume v)) →
   StronglySorted
     (λ a b, ∃ na nb, ordinal (volume a) = Some na ∧ ordinal (volume b) = Some nb ∧
                      (nb <= na)%N)
     (loadRadarData dir)).
Proof.
  intros H. unfold loadRadarData. rewrite H, readVolumes_listed.
  split; [apply sortVolumes_perm|]. split; [apply sortVolumes_sorted|].
  split; [intros n; apply numbered_sortVolumes|].
  intros Hlabels.
  apply (StronglySorted_among newerFirst); [|apply sortVolumes_sorted].
  intros a b Ha Hb Hab. rewrite sortVolumes_perm in Ha, Hb.
  destruct (editionLabel_number a (Hlabels a Ha)) as (na & Hoa & Hna).
  destruct (editionLabel_number b (Hlabels b Hb)) as (nb & Hob & Hnb).
  exists na, nb. split; [done|]. split; [done|].
  unfold newerFirst in Hab. by rewrite Hna, Hnb in Hab.
Qed.

(** X16. For a file name that begins with "Volume N (D)", where N is a
    non-empty run of digits and D a non-empty text without a closing
    parenthesis, the label of the edition is that beginning, and the number
    that N writes is the first integer found in the label. The number by
    which the edition is sorted is the binary64 number nearest to it (the
    one of even significand when two are as near): that number itself when
    it is below 2^53, and [Infinity] from 2^1024 - 2^970 on. *)
Theorem volumeLabel_well_formed (digits date rest : jsstring) :
  digits ≠ [] → forallb isDigit digits = true →
  date ≠ [] → forallb (λ c, negb (c =? 41)%N) date = true →
  let label := str "Volume " ++ digits ++ str " (" ++ date ++ str ")" in
  let written := numeral (rev digits) in
  volumeLabel (label ++ rest) = label ∧
  ordinal label = Some written ∧
  volumeNumber {| volume := label; data := [] |} = toNumber written ∧
  match volumeNumber {| volume := label; data := [] |} with
  | Finite v =>
      binary64 v ∧ (written < 2 ^ 1024 - 2 ^ 970)%N ∧
      (∀ w, binary64 w → (gap written v <= gap written w)%N) ∧
      (∀ w, binary64 w → w ≠ v → gap written w = gap written v →
            N.even (v / 2 ^ (N.size written - 53)) = true) ∧
      ((written < 2 ^ 53)%N → v = written)
  | Infinity => (2 ^ 1024 - 2 ^ 970 <= written)%N
  end.
Proof.
  intros Hd1 Hd2 Hy1 Hy2 label written.
  assert (Hnum : volumeNumber {| volume := label; data := [] |} = toNumber written).
  { rewrite (volumeNumber_begins _ digits (str " (" ++ date ++ str ")")); [|done..].
    unfold parseInt. by rewrite decimal_numeral. }
  split; [by apply volumeLabel_begins|]. split; [by apply ordinal_begins|].
  split; [done|]. rewrite Hnum.
  pose proof (toNumber_nearest written) as Hnear.
  destruct (toNumber written) as [v|] eqn:E; [|done].
  destruct Hnear as (H1 & H2 & H3 & H4). repeat split; try done.
  intros Hsmall. rewrite toNumber_exact in E by done. congruence.
Qed.

End CatalogueFacts.

Section Unavailable.

Variable toLowerCase : jsstring → jsstring.

Lemma listed_missing dir index :
  (∀ f, radar_file dir f = None) → listed dir index = [].
Proof.
  intros H. unfold listed. induction index as [|e index IH]; [done|].
  simpl. by rewrite H.
Qed.

(** X17. When the index file is missing, which is when
    [isRadarDataAvailable] is false, or when none of the files of the
    editions is there, no edition is loaded and every lookup returns
    nothing. *)
Theorem findPriorRadarMatch_unavailable dir :
  isRadarDataAvailable dir = false ∨ (∀ f, radar_file dir f = None) →
  loadRadarData dir = [] ∧ ∀ query, findPriorRadarMatch toLowerCase dir query = None.
Proof.
  intros H.
  assert (E : loadRadarData dir = []).
  { unfold loadRadarData. destruct (index_json dir) as [index|] eqn:Ei; [|done].
    destruct H as [H|H].
    - unfold isRadarDataAvailable in H. apply bool_decide_eq_false_1 in H.
      destruct H. by rewrite Ei.
    - by rewrite readVolumes_listed, listed_missing. }
  split; [done|]. intros query. unfold findPriorRadarMatch. by rewrite E.
Qed.

End Unavailable.

Section NormalForm.

Variable toLowerCase : jsstring → jsstring.
Hypothesis toLowerCase_lower : ∀ s, Forall (λ c, isUpperAZ c = false) (toLowerCase s).

Lemma tight_lookup s i : tight s → s !! i = Some space → s !! S i ≠ Some space.
Proof.
  revert i. induction s as [|x s IH]; intros i Ht Hi; [done|].
  destruct Ht as [Hx Ht]. destruct i as [|i].
  - injection Hi as ->. destruct (Hx eq_refl) as [_ Hn].
    destruct s as [|y s]; [done|]. simpl. intros [= ->]. done.
  - simpl in *. by apply IH.
Qed.

Lemma trimStart_first s :
  match trimStart s with c :: _ => isSpace c = false | [] => True end.
Proof.
  unfold trimStart. induction s as [|x s IH]; [done|]. simpl.
  destruct (isSpace x) eqn:E; [done|]. by rewrite E.
Qed.

Lemma last_rev_head (s : jsstring) : last (rev s) = head s.
Proof. destruct s as [|x s]; [done|]. simpl. apply last_snoc. Qed.

Lemma trim_ends s :
  match trim s with c :: _ => isSpace c = false | [] => True end ∧
  match last (trim s) with Some c => isSpace c = false | None => True end.
Proof.
  split.
  - destruct (trim s) as [|y r] eqn:E; [done|]. unfold trim in E.
    apply trimEnd_head in E as [r' E].
    pose proof (trimStart_first s) as H. by rewrite E in H.
  - unfold trim, trimEnd. rewrite last_rev_head.
    pose proof (trimStart_first (rev (trimStart s))) as H. unfold trimStart in H at 1.
    by destruct (dropWhile isSpace (rev (trimStart s))).
Qed.

(** X18. For a case mapping that leaves no upper-case letter of the Basic
    Latin block, a normalised name is made of lower-case letters, digits,
    underscores and spaces, with no space at either end and no two spaces
    in a row. *)
Theorem normalizeBlipName_normal_form name :
  let key := normalizeBlipName toLowerCase name in
  Forall (λ c, keyChar c = true) key ∧
  head key ≠ Some space ∧
  last key ≠ Some space ∧
  ∀ i, key !! i = Some space → key !! S i ≠ Some space.
Proof.
  intros key.
  pose proof (normalizeBlipName_chars toLowerCase toLowerCase_lower name) as Hc.
  pose proof (normalizeBlipName_tight toLowerCase name) as Ht.
  fold key in Hc, Ht.
  assert (He : match key with c :: _ => isSpace c = false | [] => True end ∧
               match last key with Some c => isSpace c = false | None => True end).
  { unfold key. rewrite normalizeBlipName_steps. apply trim_ends. }
  split; [|split; [|split]].
  - clear He. induction key as [|c key IH]; [done|].
    apply Forall_cons in Hc as [[Hu Hk] Hc]. destruct Ht as [Hs Ht].
    constructor; [|by apply IH].
    unfold keyChar. unfold kept, isWord in Hk. rewrite Hu in Hk. simpl in Hk.
    destruct (isSpace c) eqn:Ec.
    + destruct (Hs eq_refl) as [-> _]. done.
    + rewrite orb_false_r in Hk. by rewrite Hk.
  - destruct He as [He _]. destruct key; [done|]. simpl. by intros [= ->].
  - destruct He as [_ He]. destruct (last key); [|done]. by intros [= ->].
  - intros i. by apply tight_lookup.
Qed.

End NormalForm.

Lemma short_query_exact_only_witness :
  findPriorRadarMatch asciiLower twoEditions (str "Reakt") = None.
Proof.
  apply (short_query_exact_only asciiLower twoEditions (str "Reakt")).
  - apply (bool_decide_unpack _). by vm_compute.
  - apply (bool_decide_unpack _). by vm_compute.
Defined.

Lemma findPriorRadarMatch_unavailable_witness :
  loadRadarData noIndex = [] ∧
  ∀ query, findPriorRadarMatch asciiLower noIndex query = None.
Proof.
  apply (findPriorRadarMatch_unavailable asciiLower noIndex). left. reflexivity.
Defined.

Lemma loadRadarData_order_witness :
  loadRadarData twoEditions ≡ₚ listed twoEditions (default [] (index_json twoEditions)) ∧
  StronglySorted newerFirst (loadRadarData twoEditions) ∧
  (∀ n, numbered n (loadRadarData twoEditions)
        = numbered n (listed twoEditions (default [] (index_json twoEditions)))) ∧
  ((∀ v, v ∈ listed twoEditions (default [] (index_json twoEditions)) →
         editionLabel (volume v)) →
   StronglySorted
     (λ a b, ∃ na nb, ordinal (volume a) = Some na ∧ ordinal (volume b) = Some nb ∧
                      (nb <= na)%N)
     (loadRadarData twoEditions)).
Proof.
  apply (loadRadarData_order twoEditions). reflexivity.
Defined.

(** The editions of the sample in the order of the index and as they are
    loaded, and two editions that [parseInt] reads as the same number, which
    keep the order of the index. *)
Example loadRadarData_samples :
  map volume (listed twoEditions (default [] (index_json twoEditions)))
  = [str "Volume 30 (2024-04)"; str "Volume 33 (2025-11)"] ∧
  map volume (loadRadarData twoEditions)
  = [str "Volume 33 (2025-11)"; str "Volume 30 (2024-04)"] ∧
  map volume (loadRadarData hugeNumbers)
  = [str "Volume 9007199254740992 (2030-04)"; str "Volume 9007199254740993 (2030-11)"] ∧
  map volumeNumber (loadRadarData hugeNumbers)
  = [Finite 9007199254740992; Finite 9007199254740992] ∧
  map volumeNumber (loadRadarData plainNames) = [Finite 0; Finite 0].
Proof. repeat split; by vm_compute. Qed.

Lemma volumeLabel_well_formed_witness :
  let label := str "Volume " ++ str "33" ++ str " (" ++ str "2025-11" ++ str ")" in
  let written := numeral (rev (str "33")) in
  volumeLabel (label ++ str ".json") = label ∧
  ordinal label = Some written ∧
  volumeNumber {| volume := label; data := [] |} = toNumber written ∧
  match volumeNumber {| volume := label; data := [] |} with
  | Finite v =>
      binary64 v ∧ (written < 2 ^ 1024 - 2 ^ 970)%N ∧
      (∀ w, binary64 w → (gap written v <= gap written w)%N) ∧
      (∀ w, binary64 w → w ≠ v → gap written w = gap written v →
            N.even (v / 2 ^ (N.size written - 53)) = true) ∧
      ((written < 2 ^ 53)%N → v = written)
  | Infinity => (2 ^ 1024 - 2 ^ 970 <= written)%N
  end.
Proof.
  apply (volumeLabel_well_formed (str "33") (str "2025-11") (str ".json")).
  - discriminate.
  - reflexivity.
  - discriminate.
  - reflexivity.
Defined.

(** The number of that label, and the number of a label whose digits write
    2^53 + 1. *)
Example volumeNumber_samples :
  volumeNumber {| volume := str "Volume 33 (2025-11)"; data := [] |} = Finite 33 ∧
  volumeNumber {| volume := str "Volume 9007199254740993 (2030-11)"; data := [] |}
  = Finite 9007199254740992 ∧
  volumeNumber {| volume := str "radar-12.json"; data := [] |} = Finite 0.
Proof. repeat split; by vm_compute. Qed.

Lemma normalizeBlipName_normal_form_witness :
  Forall (λ c, keyChar c = true) (normalizeBlipName asciiLower (str "  Vue.JS  3.x ")) ∧
  head (normalizeBlipName asciiLower (str "  Vue.JS  3.x ")) ≠ Some space ∧
  last (normalizeBlipName asciiLower (str "  Vue.JS  3.x ")) ≠ Some space ∧
  ∀ i, normalizeBlipName asciiLower (str "  Vue.JS  3.x ") !! i = Some space →
       normalizeBlipName asciiLower (str "  Vue.JS  3.x ") !! S i ≠ Some space.
Proof.
  apply (normalizeBlipName_normal_form asciiLower asciiLower_lower (str "  Vue.JS  3.x ")).
Defined.

Lemma findPriorRadarMatch64_agrees_witness :
  findPriorRadarMatch64 asciiLower twoEditions (str "Kubernetas")
  = findPriorRadarMatch asciiLower twoEditions (str "Kubernetas").
Proof.
  apply (findPriorRadarMatch64_agrees asciiLower twoEditions (str "Kubernetas")).
  - apply (bool_decide_unpack _). by vm_compute.
  - apply (bool_decide_unpack _). by vm_compute.
Defined.

(** ** The validation service *)

Section PatternFacts.
Import Pattern.

Lemma starLoop_class {A} p (k : option char → jsstring → option A) (f : jsstring → option A) :
  (∀ prev s, k prev s = f s) → (∀ s, is_Some (f s)) →
  ∀ fuel prev s, length s < fuel →
  starLoop (rmatch false (Cls p)) k fuel prev s = f (dropWhile p s).
Proof.
  intros Hk Hf. induction fuel as [|fuel IH]; intros prev s Hlen; [lia|].
  destruct s as [|x s]; cbn [starLoop rmatch dropWhile]; [apply Hk|].
  destruct (p x) eqn:Hx; [|apply Hk].
  rewrite (proj2 (Nat.ltb_lt (length s) (length (x :: s)))) by (cbn [length]; lia).
  rewrite IH by (cbn [length] in Hlen; lia).
  by destruct (Hf (dropWhile p s)) as [a ->].
Qed.

Lemma pattern_replaceFrom_skip icase r repl n prev s :
  n ≤ length s →
  ∃ prev', replaceFrom icase r repl n prev s = replaceFrom icase r repl 0 prev' (drop n s).
Proof.
  revert prev s. induction n as [|n IH]; intros prev s H; [by exists prev|].
  destruct s as [|x s]; [simpl in H; lia|].
  cbn [replaceFrom drop]. apply IH. simpl in H. lia.
Qed.

(** [s.replace(/[class]/g, '')] keeps the characters outside the class. *)
Lemma pattern_replaceFrom_class p prev s :
  replaceFrom false (Cls p) [] 0 prev s = List.filter (λ c, negb (p c)) s.
Proof.
  revert prev. induction s as [|x s IH]; intros prev; [done|].
  cbn [replaceFrom rmatch List.filter].
  destruct (p x); cbn [negb]; [|by rewrite IH].
  replace (length (x :: s) - length s) with 1 by (cbn [length]; lia).
  by rewrite IH.
Qed.

Lemma pattern_spaces_cons prev x s :
  ∃ prev1 prev2,
  replaceFrom false Validation.reSpaces [space] 0 prev (x :: s) =
  if isSpace x then space :: replaceFrom false Validation.reSpaces [space] 0 prev1 (dropWhile isSpace s)
  else x :: replaceFrom false Validation.reSpaces [space] 0 prev2 s.
Proof.
  unfold Validation.reSpaces. cbn [replaceFrom].
  change (rmatch false (Plus (Cls isSpace)) prev (x :: s)
            (λ _ s', Some (length (x :: s) - length s')))
    with (if isSpace x
          then starLoop (rmatch false (Cls isSpace))
                 (λ _ s', Some (length (x :: s) - length s')) (S (length s)) (Some x) s
          else None).
  destruct (isSpace x); [|by exists prev, (Some x)].
  rewrite (starLoop_class isSpace _ (λ s', Some (length (x :: s) - length s')))
    by (eauto || lia).
  pose proof (length_dropWhile isSpace s).
  replace (length (x :: s) - length (dropWhile isSpace s))
    with (S (length s - length (dropWhile isSpace s))) by (cbn [length]; lia).
  cbn [app].
  destruct (pattern_replaceFrom_skip false (Plus (Cls isSpace)) [space]
              (length s - length (dropWhile isSpace s)) (Some x) s) as [prev' E]; [lia|].
  exists prev', prev. by rewrite E, drop_dropWhile.
Qed.

Lemma pattern_spaces_both s :
  (∀ prev, replaceFrom false Validation.reSpaces [space] 0 prev s = collapse false s) ∧
  (∀ prev, replaceFrom false Validation.reSpaces [space] 0 prev (dropWhile isSpace s)
           = collapse true s).
Proof.
  induction s as [|x s [IH1 IH2]]; [done|].
  assert (E : ∀ prev, replaceFrom false Validation.reSpaces [space] 0 prev (x :: s)
                      = collapse false (x :: s)).
  { intros prev. destruct (pattern_spaces_cons prev x s) as (p1 & p2 & ->).
    cbn [collapse]. destruct (isSpace x); by rewrite ?IH1, ?IH2. }
  split; [exact E|]. intros prev.
  cbn [dropWhile collapse]. destruct (isSpace x) eqn:Hx; [apply IH2|].
  rewrite E. cbn [collapse]. by rewrite Hx.
Qed.

Lemma pattern_replaceAll_spaces s :
  replaceAll false Validation.reSpaces [space] s = collapseSpaces s.
Proof. apply pattern_spaces_both. Qed.

(** A pattern that begins with a character that the text does not have
    matches nowhere. *)
Lemma pattern_replaceFrom_absent icase c r repl prev s :
  Forall (λ x, Regex.sameChar icase c x = false) s →
  replaceFrom icase (Cat (Chr c) r) repl 0 prev s = s.
Proof.
  intros H. revert prev. induction H as [|x s Hx _ IH]; intros prev; [done|].
  cbn [replaceFrom rmatch]. rewrite Hx. by rewrite IH.
Qed.

End PatternFacts.

Section SanitizeFacts.
Import Pattern Validation ValidationSpec.

Lemma Forall_filter_not p (s : jsstring) :
  Forall (λ c, p c = false) (List.filter (λ c, negb (p c)) s).
Proof.
  apply Forall_forall. intros c Hc. apply list_elem_of_In, filter_In in Hc as [_ Hc].
  by apply negb_true_iff.
Qed.

Lemma isDangerous_space : isDangerous space = false.
Proof. done. Qed.

(** The last three steps of [sanitizeText]. *)
Lemma sanitize_tail_clean (t : jsstring) :
  cleanText (trim (replaceAll false reSpaces [space] (replaceAll false reDangerous [] t))).
Proof.
  unfold replaceAll at 2, reDangerous. rewrite pattern_replaceFrom_class, pattern_replaceAll_spaces.
  split; [|split].
  - apply Forall_trim, Forall_collapse; [done|]. apply Forall_filter_not.
  - apply tight_trim, tight_collapse.
  - apply trim_idempotent.
Qed.


Lemma sameChar_lt (icase : bool) x : x ≠ 60%N → Regex.sameChar icase 60 x = false.
Proof.
  intros H. unfold Regex.sameChar. destruct icase; apply N.eqb_neq; [|done].
  unfold canonicalize at 1. simpl. unfold canonicalize.
  destruct (isLowerAZ x) eqn:E; [|done].
  unfold isLowerAZ, inRange in E. apply andb_true_iff in E as [E1 E2].
  apply N.leb_le in E1, E2. lia.
Qed.

Lemma filter_fixed (p : char → bool) s : Forall (λ c, p c = true) s → List.filter p s = s.
Proof. induction 1 as [|x s Hx _ IH]; [done|]. simpl. by rewrite Hx, IH. Qed.

Lemma reElement_head tag : ∃ r, reElement tag = Cat (Chr 60%N) r.
Proof. by eexists. Qed.

(** X21. A text without [&], [<], [>], apostrophe and quotation mark,
    whose white space is made of single inner spaces, is returned by
    [sanitizeText] as it is. *)
Theorem sanitizeText_plain (s : jsstring) :
  Forall (λ c, c ≠ 38%N ∧ isDangerous c = false) s →
  tight s → trim s = s →
  sanitizeText (VString s) = s.
Proof.
  intros Hc Ht Htrim.
  assert (Hamp : Forall (λ x, Regex.sameChar false 38 x = false) s).
  { eapply Forall_impl; [exact Hc|]. intros x [Hx _]. apply N.eqb_neq. congruence. }
  assert (Hlt : ∀ icase, Forall (λ x, Regex.sameChar icase 60 x = false) s).
  { intros icase. eapply Forall_impl; [exact Hc|]. intros x [_ Hx]. apply sameChar_lt.
    intros ->. by vm_compute in Hx. }
  unfold sanitizeText. cbn zeta. unfold replaceAll.
  change (reEntity "&lt;") with (Cat (Chr 38%N) (lits (str "lt;") Eps)).
  change (reEntity "&gt;") with (Cat (Chr 38%N) (lits (str "gt;") Eps)).
  change (reEntity "&amp;") with (Cat (Chr 38%N) (lits (str "amp;") Eps)).
  do 3 rewrite (pattern_replaceFrom_absent false 38%N _ _ _ s Hamp).
  unfold reNumericEntity. cbn [str lits list_ascii_of_string map N_of_ascii].
  change (N_of_ascii "&") with 38%N.
  rewrite (pattern_replaceFrom_absent false 38%N _ _ _ s Hamp).
  destruct (reElement_head "script") as [r1 ->], (reElement_head "style") as [r2 ->].
  do 2 rewrite (pattern_replaceFrom_absent true 60%N _ _ _ s (Hlt true)).
  unfold reTag. rewrite (pattern_replaceFrom_absent false 60%N _ _ _ s (Hlt false)).
  unfold reDangerous. rewrite pattern_replaceFrom_class.
  rewrite filter_fixed by (eapply Forall_impl; [exact Hc|]; intros x [_ ->]; done).
  fold (replaceAll false reSpaces [space] s). rewrite pattern_replaceAll_spaces.
  unfold collapseSpaces. by rewrite collapse_tight.
Qed.

End SanitizeFacts.

Section ScriptFacts.
Import Pattern Validation ValidationSpec.

Lemma sameChar_refl icase c : Regex.sameChar icase c c = true.
Proof. unfold Regex.sameChar. destruct icase; apply N.eqb_refl. Qed.

Lemma pattern_rmatch_lits {A} l l' r prev s (k : option char → jsstring → option A) :
  canonicalize <$> l' = canonicalize <$> l →
  rmatch true (lits l r) prev (l' ++ s) k = rmatch true r (from_option Some prev (last l')) s k.
Proof.
  revert l' prev. induction l as [|x l IH]; intros [|x' l'] prev E; try done.
  injection E as Ex El.
  cbn [lits app rmatch]. unfold Regex.sameChar. rewrite Ex, N.eqb_refl, (IH l') by done.
  destruct l' as [|y l']; [reflexivity|]. rewrite last_cons_cons.
  destruct (last (y :: l')) eqn:E; [done|]. by apply last_None in E.
Qed.

Lemma canonicalize_lt x : canonicalize x = 60%N → x = 60%N.
Proof.
  unfold canonicalize. destruct (isLowerAZ x) eqn:E; [|done].
  unfold isLowerAZ, inRange in E. apply andb_true_iff in E as [E1 E2].
  apply N.leb_le in E1, E2. lia.
Qed.

Lemma canonicalize_amp x : canonicalize x = 38%N → x = 38%N.
Proof.
  unfold canonicalize. destruct (isLowerAZ x) eqn:E; [|done].
  unfold isLowerAZ, inRange in E. apply andb_true_iff in E as [E1 E2].
  apply N.leb_le in E1, E2. lia.
Qed.

Lemma canonicalize_t x : canonicalize x = 84%N → isWord x = true.
Proof.
  unfold canonicalize. destruct (isLowerAZ x) eqn:E.
  - intros _. unfold isWord. by rewrite E, orb_true_r.
  - by intros ->.
Qed.

(** A greedy run of a class stops where the class stops, when the
    continuation accepts what follows. *)
Lemma starLoop_run {A} p (k : option char → jsstring → option A) a run rest :
  forallb p run = true →
  match rest with x :: _ => p x = false | [] => True end →
  (∀ prev, k prev rest = Some a) →
  ∀ fuel prev, length (run ++ rest) < fuel →
  starLoop (rmatch true (Cls p)) k fuel prev (run ++ rest) = Some a.
Proof.
  intros Hrun Hrest Hk.
  induction run as [|x run IH]; intros fuel prev Hfuel.
  - destruct fuel as [|fuel]; [lia|]. cbn [app starLoop].
    destruct rest as [|z rest]; cbn [rmatch]; [apply Hk|]. rewrite Hrest. apply Hk.
  - destruct fuel as [|fuel]; [lia|]. cbn [app starLoop rmatch].
    cbn [forallb] in Hrun. apply andb_true_iff in Hrun as [-> Hrun].
    rewrite (proj2 (Nat.ltb_lt _ _)) by (cbn [length]; lia).
    rewrite IH; [done|done|]. cbn [length app] in *. lia.
Qed.

Lemma starLoop_stop {A}
    (body : option char → jsstring → (option char → jsstring → option A) → option A)
    (k : option char → jsstring → option A) fuel prev s :
  (∀ k', body prev s k' = None) →
  starLoop body k (S fuel) prev s = k prev s.
Proof. intros H. cbn [starLoop]. by rewrite H. Qed.

Lemma pattern_replaceFrom_prefix icase c r repl prev pre rest :
  Forall (λ x, Regex.sameChar icase c x = false) pre →
  ∃ prev', replaceFrom icase (Cat (Chr c) r) repl 0 prev (pre ++ rest)
           = pre ++ replaceFrom icase (Cat (Chr c) r) repl 0 prev' rest.
Proof.
  intros H. revert prev. induction H as [|x pre Hx _ IH]; intros prev; [by exists prev|].
  cbn [app replaceFrom rmatch]. rewrite Hx.
  destruct (IH (Some x)) as [prev' ->]. by exists prev'.
Qed.

Lemma pattern_rmatch_cat {A} icase r1 r2 prev s (k : option char → jsstring → option A) :
  rmatch icase (Cat r1 r2) prev s k =
  rmatch icase r1 prev s (λ prev1 s1, rmatch icase r2 prev1 s1 k).
Proof. done. Qed.

Lemma pattern_rmatch_star {A} icase r1 prev s (k : option char → jsstring → option A) :
  rmatch icase (Star r1) prev s k = starLoop (rmatch icase r1) k (S (length s)) prev s.
Proof. done. Qed.

Lemma pattern_rmatch_notAhead {A} icase r1 prev s (k : option char → jsstring → option A) :
  rmatch icase r1 prev s (λ _ _, Some tt) = Some tt →
  rmatch icase (NotAhead r1) prev s k = None.
Proof. intros H. cbn [rmatch]. by rewrite H. Qed.

Lemma pattern_rmatch_wordBoundary {A} icase prev s (k : option char → jsstring → option A) :
  xorb (isWordAt prev) (isWordAt (head s)) = true →
  rmatch icase WordBoundary prev s k = k prev s.
Proof. intros H. cbn [rmatch]. by rewrite H. Qed.

(** The expression of a script element matches such an element, whose
    text between the tag name and the closing tag has no [<], up to the
    end of its closing tag. *)
Lemma reElement_script {A} prev opening inner closing post
    (k : option char → jsstring → option A) a :
  canonicalize <$> opening = canonicalize <$> str "<script" →
  canonicalize <$> closing = canonicalize <$> str "</script>" →
  forallb notLt inner = true → isWordAt (head inner) = false →
  (∀ prev', k prev' post = Some a) →
  rmatch true (reElement "script") prev (opening ++ inner ++ closing ++ post) k = Some a.
Proof.
  intros Ho Hc Hinner Hhead Hk. unfold reElement. cbn zeta.
  change (str ("<" +:+ "script")) with (str "<script").
  change (str ("</" +:+ "script" +:+ ">")) with (str "</script>").
  rewrite (pattern_rmatch_lits _ opening) by done.
  assert (Hlast : ∃ t, last opening = Some t ∧ isWord t = true).
  { do 7 (destruct opening as [|? opening]; [done|]). destruct opening; [|done].
    eexists. split; [done|]. injection Ho as _ _ _ _ _ _ Ht. by apply canonicalize_t. }
  destruct Hlast as (t & -> & Ht). cbn [from_option].
  assert (Hcl : ∃ cl, closing = 60%N :: cl).
  { destruct closing as [|x cl]; [done|]. injection Hc as Hx _.
    apply canonicalize_lt in Hx as ->. by eexists. }
  destruct Hcl as [cl Hcl].
  rewrite pattern_rmatch_cat, pattern_rmatch_wordBoundary; last first.
  { change (isWordAt (Some t)) with (isWord t). rewrite Ht.
    destruct inner as [|y inner]; [by rewrite Hcl|].
    cbn [app head]. cbn [head] in Hhead. by rewrite Hhead. }
  rewrite pattern_rmatch_cat, pattern_rmatch_star.
  apply starLoop_run; [done|by rewrite Hcl| |apply Nat.lt_succ_diag_r].
  intros prev1.
  assert (Hclose : ∀ {B} prev2 (k2 : option char → jsstring → option B),
            rmatch true (lits (str "</script>") Eps) prev2 (closing ++ post) k2
            = k2 (from_option Some prev2 (last closing)) post).
  { intros B prev2 k2. by rewrite (pattern_rmatch_lits _ closing). }
  rewrite pattern_rmatch_cat, pattern_rmatch_star, starLoop_stop.
  - rewrite Hclose. apply Hk.
  - intros k'. rewrite pattern_rmatch_cat. apply pattern_rmatch_notAhead. by rewrite Hclose.
Qed.

Lemma length_skip (e post : jsstring) : length (e ++ post) - length post = length e.
Proof. rewrite length_app. lia. Qed.

(** One script element between two texts without [<] is removed. *)
Lemma replaceAll_script pre opening inner closing post :
  canonicalize <$> opening = canonicalize <$> str "<script" →
  canonicalize <$> closing = canonicalize <$> str "</script>" →
  Forall (λ c, notLt c = true) pre → 
  forallb notLt inner = true → isWordAt (head inner) = false →
  Forall (λ c, notLt c = true) post →
  replaceAll true (reElement "script") [] (pre ++ opening ++ inner ++ closing ++ post)
  = pre ++ post.
Proof.
  intros Ho Hc Hpre Hinner Hhead Hpost.
  assert (Habs : ∀ t, Forall (λ c, notLt c = true) t →
                      Forall (λ x, Regex.sameChar true 60 x = false) t).
  { intros t Ht. eapply Forall_impl; [exact Ht|]. intros x Hx. apply sameChar_lt.
    intros ->. done. }
  unfold replaceAll. destruct (reElement_head "script") as [r Hr].
  rewrite Hr.
  destruct (pattern_replaceFrom_prefix true 60%N r [] None pre
              (opening ++ inner ++ closing ++ post) (Habs _ Hpre))
    as [prev ->].
  f_equal. rewrite <- Hr.
  set (e := opening ++ inner ++ closing).
  replace (opening ++ inner ++ closing ++ post) with (e ++ post)
    by (unfold e; by rewrite <- !app_assoc).
  assert (Hm : rmatch true (reElement "script") prev (e ++ post)
                 (λ _ s', Some (length (e ++ post) - length s')) = Some (length e)).
  { unfold e. rewrite <- !app_assoc. apply reElement_script; [done..|].
    intros _. f_equal. rewrite !app_assoc. apply length_skip. }
  assert (He : ∃ x e', e = x :: e').
  { unfold e. destruct opening; [done|]. by eexists _, _. }
  destruct He as (x & e' & He). rewrite He in *. cbn [app replaceFrom] in *.
  rewrite Hm. cbn [length app].
  destruct (pattern_replaceFrom_skip true (reElement "script") [] (length e') (Some x) (e' ++ post))
    as [prev' ->]; [rewrite length_app; lia|].
  rewrite drop_app_length. rewrite Hr. by apply pattern_replaceFrom_absent, Habs.
Qed.

Lemma canonical_no_amp (l l' : jsstring) :
  canonicalize <$> l' = canonicalize <$> l →
  Forall (λ c, canonicalize c ≠ 38%N) l →
  Forall (λ x, Regex.sameChar false 38 x = false) l'.
Proof.
  revert l'. induction l as [|c l IH]; intros [|x l'] E H; try done.
  injection E as Ex El. apply Forall_cons in H as [Hc H].
  constructor; [|by apply IH].
  apply N.eqb_neq. intros <-. by rewrite <- Ex in Hc.
Qed.

(** X22. A script element is removed with its content, whatever the case
    of the letters of its tags: when the text between the tag name and the
    closing tag has no [<] and no [&] and does not begin with a word
    character, and the text around the element has none of [&], [<], [>],
    apostrophe and quotation mark, [sanitizeText] returns the text around
    the element, its white space reduced. *)
Theorem sanitizeText_removes_script (pre opening inner closing post : jsstring) :
  canonicalize <$> opening = canonicalize <$> str "<script" →
  canonicalize <$> closing = canonicalize <$> str "</script>" →
  Forall (λ c, c ≠ 38%N ∧ c ≠ 60%N) inner →
  isWordAt (head inner) = false →
  Forall (λ c, c ≠ 38%N ∧ isDangerous c = false) (pre ++ post) →
  sanitizeText (VString (pre ++ opening ++ inner ++ closing ++ post))
  = trim (collapseSpaces (pre ++ post)).
Proof.
  intros Ho Hc Hinner Hhead Hplain.
  assert (Hamp : Forall (λ x, Regex.sameChar false 38 x = false)
                   (pre ++ opening ++ inner ++ closing ++ post)).
  { apply Forall_app in Hplain as [Hpre Hpost].
    repeat (apply Forall_app; split).
    - eapply Forall_impl; [exact Hpre|]. intros x [Hx _]. apply N.eqb_neq. congruence.
    - apply (canonical_no_amp _ _ Ho). by apply (bool_decide_unpack _).
    - eapply Forall_impl; [exact Hinner|]. intros x [Hx _]. apply N.eqb_neq. congruence.
    - apply (canonical_no_amp _ _ Hc). by apply (bool_decide_unpack _).
    - eapply Forall_impl; [exact Hpost|]. intros x [Hx _]. apply N.eqb_neq. congruence. }
  assert (Hlt : Forall (λ c, notLt c = true) (pre ++ post)).
  { eapply Forall_impl; [exact Hplain|]. intros x [_ Hx]. unfold notLt.
    apply negb_true_iff, N.eqb_neq. intros ->. done. }
  assert (Hin : forallb notLt inner = true).
  { apply forallb_forall, List.Forall_forall. eapply Forall_impl; [exact Hinner|].
    intros x [_ Hx]. unfold notLt. by apply negb_true_iff, N.eqb_neq. }
  pose proof Hlt as Hlt'. apply Forall_app in Hlt' as [Hl1 Hl3].
  pose proof (replaceAll_script pre opening inner closing post Ho Hc Hl1 Hin Hhead Hl3) as Hs.
  set (s := pre ++ opening ++ inner ++ closing ++ post) in *.
  unfold sanitizeText. cbn zeta. unfold replaceAll in *.
  change (reEntity "&lt;") with (Cat (Chr 38%N) (lits (str "lt;") Eps)).
  change (reEntity "&gt;") with (Cat (Chr 38%N) (lits (str "gt;") Eps)).
  change (reEntity "&amp;") with (Cat (Chr 38%N) (lits (str "amp;") Eps)).
  do 3 rewrite (pattern_replaceFrom_absent false 38%N _ _ _ s Hamp).
  unfold reNumericEntity. cbn [str lits list_ascii_of_string map N_of_ascii].
  change (N_of_ascii "&") with 38%N.
  rewrite (pattern_replaceFrom_absent false 38%N _ _ _ s Hamp).
  rewrite Hs.
  assert (Hno : ∀ icase, Forall (λ x, Regex.sameChar icase 60 x = false) (pre ++ post)).
  { intros icase. eapply Forall_impl; [exact Hplain|].
    intros x [_ Hx]. apply sameChar_lt. intros ->. done. }
  destruct (reElement_head "style") as [r2 ->].
  rewrite (pattern_replaceFrom_absent true 60%N _ _ _ _ (Hno true)).
  unfold reTag. rewrite (pattern_replaceFrom_absent false 60%N _ _ _ _ (Hno false)).
  unfold reDangerous. rewrite pattern_replaceFrom_class.
  rewrite filter_fixed by (eapply Forall_impl; [exact Hplain|]; intros x [_ ->]; done).
  fold (replaceAll false reSpaces [space] (pre ++ post)). by rewrite pattern_replaceAll_spaces.
Qed.

End ScriptFacts.

Section ValidationFacts.
Import Pattern Validation ValidationSpec.

Local Open Scope string_scope.

Lemma trim_nil_inv s : trim s ≠ [] → s ≠ [].
Proof. by intros H ->. Qed.

Lemma isBlank_other v : isString v = false → isBlank v = true.
Proof. intros H. unfold isBlank. rewrite H. simpl. by rewrite orb_true_r. Qed.

Lemma isBlank_filled v : isBlank v = false ↔ filled v.
Proof.
  split.
  - intros H. destruct v as [| | | |s| |]; try by rewrite isBlank_other in H.
    exists s. split; [done|].
    unfold isBlank in H. simpl in H. apply orb_false_iff in H as [_ H].
    apply Nat.eqb_neq in H. by destruct (trim s).
  - intros (s & -> & Hs). unfold isBlank. simpl.
    destruct s as [|c s]; [done|]. simpl. apply Nat.eqb_neq. by destruct (trim (c :: s)).
Qed.

Lemma includes_oneOf choices v : includes choices v = true ↔ oneOf choices v.
Proof.
  unfold includes, oneOf. split.
  - destruct v as [| | | |s| |]; try done. intros H. apply bool_decide_eq_true_1 in H.
    apply list_elem_of_fmap in H as (c & -> & Hc). by exists c.
  - intros (c & Hc & ->). apply bool_decide_eq_true_2.
    apply list_elem_of_fmap. by exists c.
Qed.

Lemma textWithin_checks limit v :
  textWithin limit v ↔
  negb (truthy v) || negb (isString v) = false ∧
  (stringLength v <? 1)%nat || (limit <? stringLength v)%nat = false.
Proof.
  split.
  - intros (s & -> & Hs). simpl. split.
    + rewrite orb_false_r. apply negb_false_iff, negb_true_iff, Nat.eqb_neq. lia.
    + apply orb_false_iff. split; apply Nat.ltb_ge; lia.
  - intros [H1 H2]. destruct v as [| | | |s| |]; try done. exists s. split; [done|].
    simpl in H2. apply orb_false_iff in H2 as [H2 H3]. apply Nat.ltb_ge in H2, H3. lia.
Qed.

Lemma imap_errors_nil {A} (b : value → bool) (g : nat → list A) (l : list value) :
  (∀ i, g i ≠ []) →
  concat (imap (λ i x, if b x then g i else []) l) = [] ↔ Forall (λ x, b x = false) l.
Proof.
  revert g. induction l as [|x l IH]; intros g Hg; [done|].
  rewrite imap_cons. cbn [concat]. rewrite Forall_cons. split.
  - intros H. apply app_eq_nil in H as [H1 H2].
    split; [destruct (b x); [by destruct (Hg 0)|done]|].
    apply (IH (g ∘ S)); [intros i; apply Hg|done].
  - intros [H1 H2]. rewrite H1. simpl. apply (IH (g ∘ S)); [intros i; apply Hg|done].
Qed.

Lemma ringErrors_nil data :
  oneOf RINGS (ring data) →
  validateRingSpecificRequirements (ring data) (clientExamples data) (cautionReasoning data) = []
  ↔ ringRequirements data.
Proof.
  intros (r & Hr & E). unfold ringRequirements. rewrite E.
  unfold validateRingSpecificRequirements.
  unfold RINGS in Hr. rewrite !elem_of_cons, elem_of_nil in Hr.
  destruct Hr as [->|[->|[->|[->|[]]]]].
  - rewrite bool_decide_eq_true_2 by done. split.
    + intros H. split; [intros _|split; intros [=]].
      destruct (clientExamples data) as [| | | | |examples|]; try done.
      destruct (Nat.ltb_spec (length examples) 2) as [|Hl]; [done|].
      exists examples. split; [done|]. split; [done|].
      apply imap_errors_nil in H; [|done].
      eapply Forall_impl; [exact H|]. intros x. apply isBlank_filled.
    + intros [H _]. destruct (H eq_refl) as (examples & -> & Hl & Hf).
      rewrite (proj2 (Nat.ltb_ge _ _) Hl). apply imap_errors_nil; [done|].
      eapply Forall_impl; [exact Hf|]. intros x. apply isBlank_filled.
  - rewrite bool_decide_eq_false_2 by done. rewrite bool_decide_eq_true_2 by done. split.
    + intros H. split; [intros [=]|split; [intros _|intros [=]]].
      destruct (clientExamples data) as [| | | | |examples|]; try done.
      destruct examples as [|first others]; [done|]. simpl in H.
      exists first, others. split; [done|]. apply isBlank_filled.
      by destruct (isBlank first).
    + intros (_ & H & _). destruct (H eq_refl) as (first & others & -> & Hf).
      simpl. apply isBlank_filled in Hf. by rewrite Hf.
  - do 3 rewrite bool_decide_eq_false_2 by done. split; [|done].
    intros _. by repeat split; intros [=].
  - do 2 rewrite bool_decide_eq_false_2 by done. rewrite bool_decide_eq_true_2 by done. split.
    + intros H. split; [intros [=]|split; [intros [=]|intros _]].
      apply isBlank_filled. by destruct (isBlank (cautionReasoning data)).
    + intros (_ & _ & H). apply isBlank_filled in H; [|done]. by rewrite H.
Qed.

Lemma oneOf_truthy choices v :
  Forall (λ c, c ≠ "") choices → oneOf choices v → truthy v = true.
Proof.
  intros Hne (c & Hc & ->). rewrite Forall_forall in Hne. specialize (Hne c Hc).
  destruct c; [done|]. done.
Qed.

(** The checks that [validateSubmission] makes, when none of them adds an
    error. *)
Lemma validateSubmission_checks (data : BlipSubmission) :
  validateSubmission data = [] ↔
  (negb (truthy (name data)) || negb (isString (name data)) = false ∧
   (stringLength (name data) <? 1)%nat || (100 <? stringLength (name data))%nat = false) ∧
  (truthy (quadrant data) = true ∧ includes QUADRANTS (quadrant data) = true) ∧
  (truthy (ring data) = true ∧ includes RINGS (ring data) = true) ∧
  (negb (truthy (description data)) || negb (isString (description data)) = false ∧
   (stringLength (description data) <? 1)%nat
   || (2000 <? stringLength (description data))%nat = false) ∧
  validateRingSpecificRequirements (ring data) (clientExamples data) (cautionReasoning data) = [].
Proof.
  unfold validateSubmission. cbn zeta.
  destruct (negb (truthy (name data)) || negb (isString (name data))) eqn:N1.
  { split; [|by intros [[[=] _] _]].
    intros H. exfalso. revert H. repeat (case_match; simpl); try discriminate;
      intros H; by apply app_eq_nil in H as [[=] _]. }
  destruct ((stringLength (name data) <? 1)%nat || (100 <? stringLength (name data))%nat) eqn:N2.
  { split; [|by intros [[_ [=]] _]].
    intros H. exfalso. revert H. repeat (case_match; simpl); try discriminate;
      intros H; by apply app_eq_nil in H as [[=] _]. }
  destruct (truthy (quadrant data)) eqn:Q1; cbn [negb]; last first.
  { split; [|by intros (_ & [[=] _] & _)].
    intros H. exfalso. revert H. repeat (case_match; simpl); try discriminate;
      intros H; by apply app_eq_nil in H as [[=] _]. }
  destruct (includes QUADRANTS (quadrant data)) eqn:Q2; cbn [negb]; last first.
  { split; [|by intros (_ & [_ [=]] & _)].
    intros H. exfalso. revert H. repeat (case_match; simpl); try discriminate;
      intros H; by apply app_eq_nil in H as [[=] _]. }
  destruct (truthy (ring data)) eqn:R1; cbn [negb]; last first.
  { split; [|by intros (_ & _ & [[=] _] & _)].
    intros H. exfalso. revert H. repeat (case_match; simpl); try discriminate;
      intros H; by apply app_eq_nil in H as [[=] _]. }
  destruct (includes RINGS (ring data)) eqn:R2; cbn [negb]; last first.
  { split; [|by intros (_ & _ & [_ [=]] & _)].
    intros H. exfalso. revert H. repeat (case_match; simpl); try discriminate;
      intros H; by apply app_eq_nil in H as [[=] _]. }
  destruct (negb (truthy (description data)) || negb (isString (description data))) eqn:D1.
  { split; [|by intros (_ & _ & _ & [[=] _] & _)].
    intros H. by apply app_eq_nil in H as [[=] _]. }
  destruct ((stringLength (description data) <? 1)%nat
            || (2000 <? stringLength (description data))%nat) eqn:D2.
  { split; [|by intros (_ & _ & _ & [_ [=]] & _)].
    intros H. by apply app_eq_nil in H as [[=] _]. }
  cbn [app]. tauto.
Qed.

(** X23. [validateSubmission] returns no error exactly for the submissions
    that have a name of 1 to 100 code units, a quadrant and a ring of the
    fixed lists, a description of 1 to 2000 code units, and what their
    ring asks for: for adopt an array of at least two client examples,
    none of them blank; for trial an array of client examples with a first
    one that is not blank; for caution a reasoning that is not blank. *)
Theorem validateSubmission_accepts (data : BlipSubmission) :
  validateSubmission data = [] ↔ acceptable data.
Proof.
  rewrite validateSubmission_checks. unfold acceptable.
  rewrite !textWithin_checks, <- !includes_oneOf.
  split.
  - intros (Hn & [_ Hq] & [_ Hr] & Hd & He).
    split; [exact Hn|]. split; [exact Hq|]. split; [exact Hr|]. split; [exact Hd|].
    apply ringErrors_nil; [by apply includes_oneOf|exact He].
  - intros (Hn & Hq & Hr & Hd & He).
    split; [exact Hn|]. split; [split; [|exact Hq]|split; [split; [|exact Hr]|split; [exact Hd|]]].
    + apply (oneOf_truthy QUADRANTS); [by repeat constructor|by apply includes_oneOf].
    + apply (oneOf_truthy RINGS); [by repeat constructor|by apply includes_oneOf].
    + apply ringErrors_nil; [by apply includes_oneOf|exact He].
Qed.

End ValidationFacts.

Section AcceptedFacts.
Import Pattern Validation ValidationSpec.

Lemma sanitizeIfPresent_clean v :
  sanitizeIfPresent v = VUndefined ∨ ∃ s, sanitizeIfPresent v = VString s ∧ cleanText s.
Proof.
  unfold sanitizeIfPresent. destruct (truthy v); [right|by left].
  eexists. split; [done|].
  destruct v as [| | | |s| |]; try by repeat split; constructor.
  apply sanitize_tail_clean.
Qed.

Lemma sanitizeEach_clean v examples :
  sanitizeEach v = Some (VArray examples) →
  Forall (λ example, ∃ s, example = VString s ∧ cleanText s) examples.
Proof.
  unfold sanitizeEach. destruct v as [| | | | |items|]; try done.
  intros [= <-]. apply Forall_fmap, Forall_forall. intros x _.
  eexists. split; [done|].
  destruct x as [| | | |s| |]; try by repeat split; constructor.
  apply sanitize_tail_clean.
Qed.

(** X24. What [validateAndSanitize] lets through without an error: the
    sanitised submission passes [validateSubmission], its quadrant and
    ring are those of the request, its name and its description are
    sanitised texts of 1 to 100 and of 1 to 2000 code units, and each of
    its client examples and its caution reasoning, if there is one, are
    sanitised texts. *)
Theorem validateAndSanitize_accepted (data sanitized : BlipSubmission) :
  validateAndSanitize data = Some (sanitized, []) →
  validateSubmission sanitized = [] ∧
  quadrant sanitized = quadrant data ∧
  ring sanitized = ring data ∧
  (∃ s, name sanitized = VString s ∧ cleanText s ∧ 1 ≤ length s ≤ 100) ∧
  (∃ s, description sanitized = VString s ∧ cleanText s ∧ 1 ≤ length s ≤ 2000) ∧
  (∀ examples, clientExamples sanitized = VArray examples →
     Forall (λ example, ∃ s, example = VString s ∧ cleanText s) examples) ∧
  (cautionReasoning sanitized = VUndefined ∨
   ∃ s, cautionReasoning sanitized = VString s ∧ cleanText s).
Proof.
  unfold validateAndSanitize.
  destruct (sanitizeEach (clientExamples data)) as [examples|] eqn:Ee; [|done].
  cbn zeta. intros [= <- Herr]. split; [done|].
  apply validateSubmission_checks in Herr as (Hn & _ & _ & Hd & _).
  apply textWithin_checks in Hn as (n & Hn & Hln), Hd as (d & Hd & Hld).
  cbn [name description] in Hn, Hd.
  cbn [quadrant ring name description clientExamples cautionReasoning].
  split; [done|]. split; [done|].
  split.
  { exists n. split; [done|]. split; [|done].
    destruct (sanitizeIfPresent_clean (name data)) as [E|(s & E & Hs)]; rewrite E in Hn; [done|].
    by injection Hn as <-. }
  split.
  { exists d. split; [done|]. split; [|done].
    destruct (sanitizeIfPresent_clean (description data)) as [E|(s & E & Hs)];
      rewrite E in Hd; [done|].
    by injection Hd as <-. }
  split; [|apply sanitizeIfPresent_clean].
  intros l ->. by apply (sanitizeEach_clean (clientExamples data)).
Qed.

End AcceptedFacts.

Import ValidationSpec ValidationExamples.

Lemma sanitizeText_plain_witness :
  Validation.sanitizeText (Validation.VString (str "Data mesh 2.0")) = str "Data mesh 2.0".
Proof.
  apply (sanitizeText_plain (str "Data mesh 2.0")).
  - apply (bool_decide_unpack _). by vm_compute.
  - vm_compute. repeat split; try discriminate.
  - reflexivity.
Defined.

Lemma sanitizeText_removes_script_witness :
  Validation.sanitizeText
    (Validation.VString
       (str "Hello " ++ str "<SCRIPT" ++ scriptInner ++ str "</Script>" ++ str " world"))
  = trim (collapseSpaces (str "Hello " ++ str " world")).
Proof.
  apply (sanitizeText_removes_script (str "Hello ") (str "<SCRIPT") scriptInner
           (str "</Script>") (str " world")).
  - reflexivity.
  - reflexivity.
  - apply (bool_decide_unpack _). by vm_compute.
  - reflexivity.
  - apply (bool_decide_unpack _). by vm_compute.
Defined.

Lemma validateSubmission_accepts_witness :
  Validation.validateSubmission adoptSanitized = [] ∧ acceptable adoptSanitized.
Proof.
  split; [reflexivity|].
  apply (proj1 (validateSubmission_accepts adoptSanitized)). reflexivity.
Defined.

Lemma validateAndSanitize_accepted_witness :
  Validation.validateSubmission adoptSanitized = [] ∧
  Validation.quadrant adoptSanitized = Validation.quadrant adoptRequest ∧
  Validation.ring adoptSanitized = Validation.ring adoptRequest ∧
  (∃ s, Validation.name adoptSanitized = Validation.VString s ∧ cleanText s ∧
        1 ≤ length s ≤ 100) ∧
  (∃ s, Validation.description adoptSanitized = Validation.VString s ∧ cleanText s ∧
        1 ≤ length s ≤ 2000) ∧
  (∀ examples, Validation.clientExamples adoptSanitized = Validation.VArray examples →
     Forall (λ example, ∃ s, example = Validation.VString s ∧ cleanText s) examples) ∧
  (Validation.cautionReasoning adoptSanitized = Validation.VUndefined ∨
   ∃ s, Validation.cautionReasoning adoptSanitized = Validation.VString s ∧ cleanText s).
Proof.
  apply (validateAndSanitize_accepted adoptRequest adoptSanitized).
  vm_compute. reflexivity.
Defined.

(** The expectations of the tests of the service, met by the embedding;
    and a text that a second sanitisation changes again. *)
Example sanitizeText_samples :
  let sanitize s := Validation.sanitizeText (Validation.VString s) in
  sanitize (str "<script>alert(" ++ [34%N] ++ str "xss" ++ [34%N] ++ str ")</script>") = [] ∧
  sanitize (str "Hello <b>world</b>") = str "Hello world" ∧
  sanitize (str "<div>Test</div>") = str "Test" ∧
  sanitize (str "Test<>" ++ [34%N; 39%N]) = str "Test" ∧
  sanitize (str "Normal text") = str "Normal text" ∧
  sanitize (str "  Multiple   spaces  ") = str "Multiple spaces" ∧
  sanitize (str "Line" ++ [10%N] ++ str "break") = str "Line break" ∧
  sanitize [] = [] ∧
  sanitize (str "   ") = [] ∧
  sanitize (str "Hello, world! How are you?") = str "Hello, world! How are you?" ∧
  sanitize (str "React.js") = str "React.js" ∧
  sanitize (str "&lt;script&gt;alert(1)&lt;/script&gt;") = [] ∧
  sanitize (str "a <SCRIPT type=x>evil < 3 </script > b</ScRiPt> c") = str "a c" ∧
  sanitize (str "<scriptx>k</script> z") = str "k z" ∧
  sanitize (str "&amp;lt;b&amp;gt;") = str "&lt;b&gt;" ∧
  sanitize (str "&lt;b&gt;") = [].
Proof. vm_compute. by repeat split. Qed.

Example validateSubmission_samples :
  let text s := Validation.VString (str s) in
  let error f m := {| Validation.field := f; Validation.message := m |} in
  Validation.validateSubmission
    (validBase (text "adopt") (Validation.VArray [text "Client A"; text "Client B"])
       Validation.VUndefined) = [] ∧
  Validation.validateSubmission
    (validBase (text "adopt") (Validation.VArray [text "Only one"]) Validation.VUndefined)
  = [error "clientExamples" "Adopt ring requires at least 2 client examples"] ∧
  Validation.validateSubmission
    (validBase (text "adopt") (Validation.VArray [text "Example 1"; text ""])
       Validation.VUndefined)
  = [error "clientExamples[1]" "Client example 2 cannot be empty"] ∧
  Validation.validateSubmission
    (validBase (text "trial") (Validation.VArray [text ""]) Validation.VUndefined)
  = [error "clientExamples[0]" "Client example cannot be empty"] ∧
  Validation.validateSubmission
    (validBase (text "trial") (Validation.VArray [text "Client A"; text ""])
       Validation.VUndefined) = [] ∧
  Validation.validateSubmission
    (validBase (text "assess") Validation.VUndefined Validation.VUndefined) = [] ∧
  Validation.validateSubmission
    (validBase (text "caution") Validation.VUndefined (text "  "))
  = [error "cautionReasoning"
       "Caution ring requires reasoning including examples of issues encountered"] ∧
  Validation.validateSubmission
    (validBase (text "hold") Validation.VUndefined Validation.VUndefined)
  = [error "ring" "Ring must be one of: adopt, trial, assess, caution"] ∧
  Validation.validateAndSanitize adoptRequest = Some (adoptSanitized, []) ∧
  Validation.validateAndSanitize
    (validBase (text "adopt") (text "Client A") Validation.VUndefined) = None ∧
  Validation.isValidQuadrant (text "tools") = true ∧
  Validation.isValidRing Validation.VNull = false.
Proof. vm_compute. by repeat split. Qed.
